(** * Dynamic field detection, mapping and task bridge: a shallow embedding

    The development follows the two source files of the Python bridge.

    - [python-bridge/enhanced_browser_automation.py]: the JavaScript class
      [DynamicFieldDetector] that the bridge injects into the page
      (module [Detector]) and the Python class [EnhancedBrowserAutomation]
      that consumes its output (module [Automation]).
    - [python-bridge/browser_use_bridge.py]: the method [execute_task] of
      [BrowserUseBridge] (module [Bridge]).

    Modelling conventions.
    - Text is [string] (a list of 8-bit characters).  [lower] lowercases the
      letters A to Z, which is what [str.lower] and [toLowerCase] do on such
      text.
    - A JavaScript value that may be [undefined] and a Python dictionary key
      that may be absent are [option string]: a member that is [undefined]
      in the page is taken to be absent from the dictionary that the Python
      side receives.
    - A Python [float] is a binary64 number, a rational of [Q] that
      [Binary64.round] returns.  [calculate_mapping_confidence] is the value
      of the expression of the method in exact arithmetic, with the literals
      [0.5], [0.3], [0.2], [1.0] and [100.0] read as those rationals;
      [calculate_mapping_confidence_binary64] is the number the interpreter
      computes, every literal and operation rounded, and it is the one that
      [get_field_suggestions] compares with the threshold and sorts by.
      Overflow is left out: a score is 100 at most.
    - A Python dictionary that is built by assignment is a [gmap]; a
      dictionary that is iterated is the list of its items in insertion
      order.
    - The page and the agent are outside the sources: the calls made on them
      are section variables, and a call that may raise returns a [result].
    - A coroutine of the bridge is an [Exec]: the lines it writes on the
      standard output, and then it returns, raises or never ends.  The run of
      the agent is a [Run]: how long it takes and what it ends with when it
      is left alone, and what it does when [asyncio.wait_for] cancels it at
      the deadline.
    - A line is written when [json.dumps] can encode the response; writing
      to the standard output itself is taken to succeed.
    - Logging is left out.

    The definitions come first, module by module, then the statements of the
    specification ([Spec]), sample pages ([Examples]) and the facts.

    Beside the three modules above, [Binary64] holds the rounding of
    rationals to binary64 numbers, [Highlighter] the JavaScript class
    [FieldHighlighter], [FillScript] the script that writes a value into the
    page, [FlightSearch] the class [SmartFlightSearchAutomation] and [Host]
    the methods of [BrowserUseBridge] that read and answer request lines. *)

From Stdlib Require Import ZArith QArith Qminmax Qround Qabs Qpower String Ascii List Sorted Permutation Lia Lqa Bool.
From stdpp Require Import base option list strings gmap pretty.

Local Open Scope Z_scope.

(** ** Text *)

Module Str.

(** [c.lower()] on one character. *)
Definition lower_ascii (c : ascii) : ascii :=
  let n := nat_of_ascii c in
  if ((65 <=? n) && (n <=? 90))%nat then ascii_of_nat (n + 32) else c.

(** [s.lower()] / [s.toLowerCase()]. *)
Fixpoint lower (s : string) : string :=
  match s with
  | EmptyString => EmptyString
  | String c s' => String (lower_ascii c) (lower s')
  end.

(** [s.startswith(p)]. *)
Fixpoint starts_with (p s : string) : bool :=
  match p, s with
  | EmptyString, _ => true
  | String _ _, EmptyString => false
  | String a p', String b s' => Ascii.eqb a b && starts_with p' s'
  end.

(** Python's [k in s] on strings; also what an unanchored literal regular
    expression tests. *)
Fixpoint contains (k s : string) : bool :=
  starts_with k s ||
  match s with
  | EmptyString => false
  | String _ s' => contains k s'
  end.

(** [sep.join(parts)] / [parts.join(sep)]. *)
Fixpoint join (sep : string) (parts : list string) : string :=
  match parts with
  | [] => EmptyString
  | [p] => p
  | p :: rest => p +:+ sep +:+ join sep rest
  end.

(** Truthiness of a text value: the empty text is falsy. *)
Definition nonempty (s : string) : bool :=
  match s with EmptyString => false | String _ _ => true end.

(** Truthiness of a possibly undefined text value. *)
Definition truthy (o : option string) : bool :=
  match o with Some s => nonempty s | None => false end.

(** The declarative reading of "k occurs in s". *)
Definition Substring (k s : string) : Prop :=
  exists pre suf, s = pre +:+ k +:+ suf.

(** "k occurs in s, case-insensitively". *)
Definition SubstringCI (k s : string) : Prop :=
  Substring (lower k) (lower s).

Definition contains_ci (k s : string) : bool :=
  contains (lower k) (lower s).

(** No character of [p] is a space. *)
Fixpoint no_space (p : string) : bool :=
  match p with
  | EmptyString => true
  | String c p' => negb (Ascii.eqb c " ") && no_space p'
  end.

End Str.

(** ** Results of calls that may raise *)

(** A raised exception: its class, as far as a handler of the sources tells
    classes apart, and the text [str(e)]. *)
Inductive exn : Type :=
| TimeoutError (msg : string)
| Exception (msg : string).

Definition str (e : exn) : string :=
  match e with TimeoutError msg => msg | Exception msg => msg end.

Inductive result (A : Type) : Type :=
| Ok (a : A)
| Raise (e : exn).
Arguments Ok {A} a.
Arguments Raise {A} e.

(** ** Stable sorting

    [Array.prototype.sort] with a comparator and [list.sort] with a key are
    both stable.  [before a b] says that [a], met earlier than [b], stays in
    front of it.  Inserting from the right keeps equal elements in their
    original order. *)

Section StableSort.
Context {A : Type} (before : A -> A -> bool).

Fixpoint insert_sorted (x : A) (l : list A) : list A :=
  match l with
  | [] => [x]
  | y :: l' => if before x y then x :: l else y :: insert_sorted x l'
  end.

Definition stable_sort (l : list A) : list A :=
  foldr insert_sorted [] l.

(** The order a stable sort leaves behind: [a] is in front of [b] because it
    sorts first, and when the two tie, because it was in front already
    (relation [R] of the input). *)
Definition sorted_then (R : A -> A -> Prop) (a b : A) : Prop :=
  before a b = true /\ (before b a = true -> R a b).

End StableSort.

(** ** Binary64 numbers

    A Python [float] is an IEEE 754 binary64 number.  The finite ones are
    rationals, and they compare as rationals do.  [round q] is the binary64
    number nearest to [q], the one with the even significand when two are
    equally near; every literal and every operation of the interpreter is
    the exact value followed by [round]. *)

Module Binary64.

(** [2^e]. *)
Definition pow2 (e : Z) : Q := (2 ^ e)%Q.

(** The largest [k] with [2^k <= a], for a positive [a]. *)
Definition ilog2 (a : Q) : Z :=
  let k := Z.log2 (Qnum a) - Z.log2 (Zpos (Qden a)) in
  if Qle_bool (pow2 k) a then k else k - 1.

(** The integer nearest to [x], the even one of two that are equally
    near. *)
Definition nearest_even (x : Q) : Z :=
  let n := Qfloor x in
  match (x - inject_Z n ?= 1 # 2)%Q with
  | Lt => n
  | Gt => n + 1
  | Eq => if Z.even n then n else n + 1
  end.

(** The significand has 53 bits, so the last bit of a number between [2^k]
    and [2^(k+1)] weighs [2^(k-52)]; below [2^-1022] it weighs [2^-1074]. *)
Definition round (q : Q) : Q :=
  match Qnum q with
  | 0 => 0%Q
  | _ =>
      let a := Qabs q in
      let e := Z.max (ilog2 a - 52) (-1074) in
      let m := nearest_even (a / pow2 e) in
      Qred ((if Qle_bool 0 q then 1 else -1) * (inject_Z m * pow2 e))
  end.

(** A decimal literal, an [int] used as a [float], [x + y] and [x / y]. *)
Definition literal (q : Q) : Q := round q.
Definition of_int (z : Z) : Q := round (inject_Z z).
Definition add (x y : Q) : Q := round (x + y).
Definition div (x y : Q) : Q := round (x / y).

End Binary64.

(** ** The injected detector (JavaScript, class [DynamicFieldDetector]) *)

Module Detector.

Record Rect := {
  rect_x : Q;
  rect_y : Q;
  rect_width : Q;
  rect_height : Q
}.

(** What the detector reads from one DOM element.  A property that is
    [undefined] on the element is [None].  The three label and text members
    are the answers of the DOM queries made by [findLabel] and
    [getNearbyText]: the text content of [label[for=id]] when it exists, the
    text content of the closest enclosing label when it exists, and the text
    contents of the nodes under the parent other than the element itself
    (empty when there is no parent). *)
Record Element := {
  el_name : option string;
  el_id : option string;
  el_type : option string;
  el_tagName : string;
  el_placeholder : option string;
  el_className : option string;
  el_rect : Rect;
  el_display : string;
  el_visibility : string;
  el_labelFor : option string;
  el_closestLabel : option string;
  el_parentTexts : list string
}.

(** The document, as far as the detector queries it. *)
Record Document := {
  querySelectorAll : string -> list Element
}.

Record Attributes := {
  a_name : option string;
  a_id : option string;
  a_type : string;
  a_placeholder : option string;
  a_className : option string
}.

Record Context := {
  label : option string;
  nearbyText : list string
}.

Record Field := {
  id : string;
  rect : Rect;
  attributes : Attributes;
  context : Context;
  semantic : string;
  score : Z;
  visible : bool
}.

(** The double quote character, and a text between double quotes. *)
Definition dquote : ascii := ascii_of_nat 34.

Definition quoted (s : string) : string :=
  String dquote (s +:+ String dquote EmptyString).

Definition input_of_type (t : string) : string :=
  "input[type=" +:+ quoted t +:+ "]".

Definition fieldSelectors : list string :=
  [ input_of_type "text"; input_of_type "email"; input_of_type "password";
    input_of_type "tel"; input_of_type "search"; input_of_type "url";
    input_of_type "number"; input_of_type "date"; "input:not([type])";
    "textarea"; "select"; "[contenteditable=" +:+ quoted "true" +:+ "]" ].

(** The pattern table, in declaration order.  Every pattern of the source is
    a literal with the [i] flag, so a pattern is its text. *)
Definition semanticPatterns : list (string * list string) :=
  [ ("email", ["email"; "e-mail"; "mail"]);
    ("password", ["password"; "pass"; "pwd"]);
    ("name", ["name"; "firstname"; "lastname"]);
    ("departure", ["from"; "departure"; "origin"; "depart"]);
    ("destination", ["to"; "destination"; "arrival"; "arrive"]);
    ("date", ["date"; "when"; "departure"]);
    ("phone", ["phone"; "tel"; "mobile"]);
    ("address", ["address"; "street"; "city"]) ].

(** [pattern.test(text)] for a literal pattern with the [i] flag. *)
Definition test (pattern text : string) : bool :=
  Str.contains (Str.lower pattern) (Str.lower text).

(** [x || undefined]. *)
Definition or_undefined (o : option string) : option string :=
  if Str.truthy o then o else None.

(** [s.trim()]. *)
Fixpoint trim_start (s : string) : string :=
  match s with
  | EmptyString => EmptyString
  | String c s' => if Ascii.is_space c then trim_start s' else s
  end.

Definition trim (s : string) : string :=
  String.rev (trim_start (String.rev (trim_start s))).

Definition isVisible (element : Element) : bool :=
  let r := el_rect element in
  negb (Qle_bool (rect_width r) 0) && negb (Qle_bool (rect_height r) 0) &&
  negb (String.eqb (el_display element) "none") &&
  negb (String.eqb (el_visibility element) "hidden").

Definition extractAttributes (element : Element) : Attributes :=
  {| a_name := or_undefined (el_name element);
     a_id := or_undefined (el_id element);
     a_type := match or_undefined (el_type element) with
               | Some t => t
               | None => Str.lower (el_tagName element)
               end;
     a_placeholder := or_undefined (el_placeholder element);
     a_className := or_undefined (el_className element) |}.

Definition findLabel (element : Element) : option string :=
  match (if Str.truthy (el_id element) then el_labelFor element else None) with
  | Some text => Some (trim text)
  | None =>
      match el_closestLabel element with
      | Some text => Some (trim text)
      | None => None
      end
  end.

Definition getNearbyText (element : Element) : list string :=
  map trim (filter (fun t => Str.nonempty (trim t) = true) (el_parentTexts element)).

Definition analyzeContext (element : Element) : Context :=
  {| label := findLabel element; nearbyText := getNearbyText element |}.

(** [[...].filter(Boolean)] on possibly undefined texts. *)
Definition filter_Boolean (parts : list (option string)) : list string :=
  omap (fun o => if Str.truthy o then o else None) parts.

Definition searchText (attributes : Attributes) (context : Context) : string :=
  Str.lower
    (Str.join " "
       (filter_Boolean
          ([a_name attributes; a_id attributes; a_placeholder attributes;
            label context] ++ map Some (nearbyText context)))).

(** The two nested loops of [inferPurpose] over a table. *)
Fixpoint first_category (table : list (string * list string)) (text : string)
  : string :=
  match table with
  | [] => "unknown"
  | (semantic, patterns) :: rest =>
      if existsb (fun pattern => test pattern text) patterns
      then semantic
      else first_category rest text
  end.

Definition inferPurpose (attributes : Attributes) (context : Context) : string :=
  first_category semanticPatterns (searchText attributes context).

Definition calculateScore (attributes : Attributes) (context : Context)
    (semantic : string) : Z :=
  let score := 50 in
  let score := if Str.truthy (label context) then score + 20 else score in
  let score := if Str.truthy (a_placeholder attributes) then score + 15 else score in
  let score := if negb (String.eqb semantic "unknown") then score + 15 else score in
  Z.min 100 score.

(** [(a, b) => b.score - a.score]; [a] stays in front when the comparator
    is not positive. *)
Definition compareScore (a b : Field) : Z := score b - score a.

Definition rankFields (fields : list Field) : list Field :=
  stable_sort (fun a b => compareScore a b <=? 0) fields.

(** [analyzeField(element, order)]; [now] is the reading of [Date.now()]. *)
Definition analyzeField (element : Element) (order : nat) (now : Z) : Field :=
  let attributes := extractAttributes element in
  let context := analyzeContext element in
  let semantic := inferPurpose attributes context in
  let score := calculateScore attributes context semantic in
  {| id := "field_" +:+ pretty order +:+ "_" +:+ pretty now;
     rect := el_rect element;
     attributes := attributes;
     context := context;
     semantic := semantic;
     score := score;
     visible := true |}.

(** The candidates in discovery order: selector by selector, each selector's
    matches in document order. *)
Definition candidates (document : Document) : list Element :=
  concat (map (querySelectorAll document) fieldSelectors).

(** The loop of [detectAllFields] before ranking: [counter] numbers the
    visible elements, [now k] is the clock when field [k] is analysed. *)
Fixpoint analyzeAll (now : nat -> Z) (counter : nat) (elements : list Element)
  : list Field :=
  match elements with
  | [] => []
  | element :: rest =>
      if isVisible element
      then analyzeField element counter (now counter)
             :: analyzeAll now (S counter) rest
      else analyzeAll now counter rest
  end.

Definition discovered (document : Document) (now : nat -> Z) : list Field :=
  analyzeAll now 0%nat (candidates document).

Definition detectAllFields (document : Document) (now : nat -> Z) : list Field :=
  rankFields (discovered document now).

End Detector.

(** ** The Python side (class [EnhancedBrowserAutomation]) *)

Module Automation.
Import Detector.

(** [x > y] on floats. *)
Definition Qgt_bool (x y : Q) : bool := negb (Qle_bool x y).

(** [d.get(key, EmptyString)] for a text member that may be absent. *)
Definition get_text (o : option string) : string :=
  match o with Some s => s | None => EmptyString end.

(** [max(items, key=key)]: the first item is kept until a strictly larger
    key is met. *)
Fixpoint max_from {A : Type} (key : A -> Z) (best : A) (items : list A) : A :=
  match items with
  | [] => best
  | x :: rest => max_from key (if key best <? key x then x else best) rest
  end.

Definition py_max {A : Type} (key : A -> Z) (items : list A) : option A :=
  match items with
  | [] => None
  | x :: rest => Some (max_from key x rest)
  end.

Record Suggestion := {
  sg_field : Field;
  sg_confidence : Q
}.

(** The first comprehension of [fill_field_by_semantic_type]. *)
Definition exact_matches (detected_fields : list Field) (semantic_type : string)
  : list Field :=
  filter (fun field => semantic field = semantic_type) detected_fields.

(** The second comprehension, "Fallback to partial matching". *)
Definition partial_matches (detected_fields : list Field) (semantic_type : string)
  : list Field :=
  filter (fun field =>
            Str.contains (Str.lower semantic_type) (Str.lower (semantic field)) = true)
         detected_fields.

(** [matching_fields] when the method reaches its second test. *)
Definition matching_fields (detected_fields : list Field) (semantic_type : string)
  : list Field :=
  match exact_matches detected_fields semantic_type with
  | [] => partial_matches detected_fields semantic_type
  | matching => matching
  end.

(** [best_field], when there is a candidate. *)
Definition best_field (detected_fields : list Field) (semantic_type : string)
  : option Field :=
  py_max score (matching_fields detected_fields semantic_type).

Definition context_text (field : Field) : string :=
  Str.lower
    (get_text (label (context field)) +:+ " " +:+
     Str.join " " (nearbyText (context field)) +:+ " " +:+
     get_text (a_placeholder (attributes field))).

Definition semantic_bonus (data_key : string) (field : Field) : Q :=
  if String.eqb (Str.lower data_key) (Str.lower (semantic field)) then 0.5%Q
  else if Str.contains (Str.lower data_key) (Str.lower (semantic field)) then 0.3%Q
  else 0%Q.

Definition context_bonus (data_key : string) (field : Field) : Q :=
  if Str.contains (Str.lower data_key) (context_text field) then 0.2%Q else 0%Q.

(** [field['score'] / 100.0]. *)
Definition base_score (field : Field) : Q := (inject_Z (score field) / 100)%Q.

Definition calculate_mapping_confidence (data_key : string) (field : Field) : Q :=
  Qmin 1 (base_score field + semantic_bonus data_key field
          + context_bonus data_key field)%Q.

(** The arithmetic of [calculate_mapping_confidence] as the interpreter
    does it, on the score and the two bonuses: [score / 100.0], the two
    additions from the left, and [min(1.0, ...)], each in binary64. *)
Definition confidence_binary64 (score : Z) (semantic_bonus context_bonus : Q)
  : Q :=
  let base_score := Binary64.div (Binary64.of_int score) (Binary64.literal 100) in
  Qmin (Binary64.literal 1)
       (Binary64.add (Binary64.add base_score (Binary64.literal semantic_bonus))
                     (Binary64.literal context_bonus)).

(** The number [calculate_mapping_confidence] returns.  The definition
    above is the value of the same expression in exact arithmetic; the two
    differ in the last bit at most, which decides between confidences that
    are equal or next to equal. *)
Definition calculate_mapping_confidence_binary64 (data_key : string)
    (field : Field) : Q :=
  confidence_binary64 (score field) (semantic_bonus data_key field)
                      (context_bonus data_key field).

(** A test of the arithmetic on each of the given scores and on every value
    the two bonuses take. *)
Definition on_scores (check : Z -> Q -> Q -> bool) (scores : list Z) : bool :=
  forallb (fun score =>
             forallb (fun semantic_bonus =>
                        forallb (check score semantic_bonus) [0.2%Q; 0%Q])
                     [0.5%Q; 0.3%Q; 0%Q])
          scores.

(** The inner loop of [get_field_suggestions] for one key; [0.3] is the
    binary64 number of that literal. *)
Definition collect_suggestions (detected_fields : list Field) (data_key : string)
  : list Suggestion :=
  omap (fun field =>
          let confidence := calculate_mapping_confidence_binary64 data_key field in
          if Qgt_bool confidence (Binary64.literal 0.3)
          then Some {| sg_field := field; sg_confidence := confidence |}
          else None)
       detected_fields.

(** [sort(key=confidence, reverse=True)]: stable, larger confidence first;
    the keys are the binary64 numbers stored above. *)
Definition sort_by_confidence (l : list Suggestion) : list Suggestion :=
  stable_sort (fun a b => Qle_bool (sg_confidence b) (sg_confidence a)) l.

(** [suggestions[data_key]] as assigned in the loop body. *)
Definition suggestions_for (detected_fields : list Field) (data_key : string)
  : list Suggestion :=
  take 3 (sort_by_confidence (collect_suggestions detected_fields data_key)).

Section WithPage.

(** The page handle.  [detection p] is the outcome of injecting the scripts
    and starting the detector: it raises, or the detector runs on a document
    with a clock.  [evaluate_fill field value p] is the script of
    [fill_field_by_semantic_type] run on the page. *)
Context {P : Type}.
Variable detection : P -> result (Document * (nat -> Z)) * P.
Variable evaluate_fill : Field -> string -> P -> result bool * P.

(** The object and the page it drives. *)
Record World := {
  detected_fields : list Field;
  page : P
}.

(** A method: it returns or raises, and leaves a world behind. *)
Definition M (A : Type) : Type := World -> result A * World.

Definition ret {A : Type} (a : A) : M A := fun w => (Ok a, w).

Definition bind {A B : Type} (m : M A) (k : A -> M B) : M B :=
  fun w =>
    match m w with
    | (Ok a, w') => k a w'
    | (Raise e, w') => (Raise e, w')
    end.

(** [try: body  except Exception: handler]. *)
Definition try_except {A : Type} (body : M A) (handler : exn -> M A) : M A :=
  fun w =>
    match body w with
    | (Ok a, w') => (Ok a, w')
    | (Raise e, w') => handler e w'
    end.

Local Notation "'do' x <- m ; k" := (bind m (fun x => k))
  (at level 10, x name, m at level 100, k at level 200).

Definition get_detected_fields : M (list Field) :=
  fun w => (Ok (detected_fields w), w).

Definition set_detected_fields (fields : list Field) : M unit :=
  fun w => (Ok tt, {| detected_fields := fields; page := page w |}).

(** A call on the page. *)
Definition on_page {A : Type} (call : P -> result A * P) : M A :=
  fun w =>
    let (r, p) := call (page w) in
    (r, {| detected_fields := detected_fields w; page := p |}).

Definition detect_and_highlight_fields : M (list Field) :=
  try_except
    (do env <- on_page detection ;
     let fields := detectAllFields (fst env) (snd env) in
     do _ <- set_detected_fields fields ;
     ret fields)
    (fun _ => ret []).

Definition fill_field_by_semantic_type (semantic_type value : string) : M bool :=
  do fields <- get_detected_fields ;
  match best_field fields semantic_type with
  | None => ret false
  | Some best =>
      try_except
        (do success <- on_page (evaluate_fill best value) ; ret success)
        (fun _ => ret false)
  end.

(** The loop of [smart_field_fill]. *)
Fixpoint fill_each (items : list (string * string)) (results : gmap string bool)
  : M (gmap string bool) :=
  match items with
  | [] => ret results
  | (data_key, data_value) :: rest =>
      do success <- fill_field_by_semantic_type data_key data_value ;
      fill_each rest (<[data_key := success]> results)
  end.

Definition ensure_detected : M unit :=
  do fields <- get_detected_fields ;
  match fields with
  | [] => do _ <- detect_and_highlight_fields ; ret tt
  | _ :: _ => ret tt
  end.

Definition smart_field_fill (field_data : list (string * string))
  : M (gmap string bool) :=
  do _ <- ensure_detected ;
  fill_each field_data ∅.

(** The loop of [get_field_suggestions]. *)
Fixpoint suggest_each (items : list (string * string))
    (suggestions : gmap string (list Suggestion))
  : M (gmap string (list Suggestion)) :=
  match items with
  | [] => ret suggestions
  | (data_key, _) :: rest =>
      do fields <- get_detected_fields ;
      suggest_each rest (<[data_key := suggestions_for fields data_key]> suggestions)
  end.

Definition get_field_suggestions (user_data : list (string * string))
  : M (gmap string (list Suggestion)) :=
  do _ <- ensure_detected ;
  suggest_each user_data ∅.

End WithPage.

End Automation.

(** ** The task bridge (class [BrowserUseBridge]) *)

Module Bridge.

(** The message of an [execute_task] request; an absent key is [None]. *)
Record TaskData := {
  td_task : option string;
  td_url : option string;
  td_timeout : option Z
}.

(** A Python value that the bridge hands through unread, as far as
    [json.dumps] tells values apart: it encodes [None], booleans, texts,
    numbers and lists and dictionaries of values it encodes, and raises on
    any other object; [repr] names such an object. *)
#[warnings="-register-all"]
Inductive value : Type :=
| Null
| Flag (b : bool)
| Text (s : string)
| Number (n : Z)
| Items (items : list value)
| Entries (entries : list (string * value))
| Opaque (repr : string).

(** [json.dumps(v)] returns. *)
Fixpoint encodable (v : value) : bool :=
  match v with
  | Items items => forallb encodable items
  | Entries entries => forallb (fun entry => encodable (snd entry)) entries
  | Opaque _ => false
  | _ => true
  end.

(** What [process_result] reads from the agent's result; an attribute the
    result does not have is [None].  [actions] is the outcome of
    [[str(action) for action in result.actions]]: the texts, or the fault
    raised on the way.  [as_text] is [str(result)]. *)
Record AgentResult := {
  actions : option (result (list string));
  final_url : option value;
  screenshots : option value;
  extracted_content : option value;
  as_text : string
}.

(** The dictionary [process_result] returns: the one with "success": True,
    or the one its handler builds, with "success": False. *)
Inductive Processed : Type :=
| Extracted (actions_taken : list string) (final_state_url : option value)
            (processed_screenshots extracted_data : value)
| Unprocessed (error raw_result : string).

(** One line written to the host, before it is encoded. *)
Record Response := {
  r_type : string;
  r_message : option string;
  r_data : option Processed;
  r_timestamp : string
}.

(** What a coroutine of the bridge does, seen from the host: the lines it
    writes, and then it returns, raises, or never ends. *)
Inductive Exec : Type :=
| Returns (lines : list Response)
| Raises (lines : list Response) (e : exn)
| Never (lines : list Response).

Definition written (run : Exec) : list Response :=
  match run with
  | Returns lines => lines
  | Raises lines _ => lines
  | Never lines => lines
  end.

(** [lines] were written before [run] started. *)
Definition after (lines : list Response) (run : Exec) : Exec :=
  match run with
  | Returns more => Returns (lines ++ more)
  | Raises more e => Raises (lines ++ more) e
  | Never more => Never (lines ++ more)
  end.

(** [first] and then, when it returns, [next]. *)
Definition and_then (first next : Exec) : Exec :=
  match first with
  | Returns lines => after lines next
  | stopped => stopped
  end.

(** [try: body  except Exception as e: handler(e)], for a handler that only
    writes. *)
Definition catch (body : Exec) (handler : exn -> list Response) : Exec :=
  match body with
  | Raises lines e => Returns (lines ++ handler e)
  | ended => ended
  end.

(** The run of the agent, seen from the caller that awaits it under a
    deadline.  [Finishes] and [Hangs] are runs that do not catch the
    cancellation: left alone the run ends after some time with a result or a
    fault, or never ends; cancelled, it stops at once.  [Catches alone
    caught] is a run that catches the cancellation: left alone it ends as
    [alone] says ([None]: never), and cancelled it goes on and ends as
    [caught] says ([None]: never). *)
Inductive Run : Type :=
| Finishes (seconds : Q) (outcome : result AgentResult)
| Hangs
| Catches (alone : option (Q * result AgentResult))
          (caught : option (result AgentResult)).

(** [await asyncio.wait_for(run, timeout)]: [None] when the call never
    returns.  A run that ends before the deadline gives its outcome.
    Otherwise the run is cancelled and awaited: when the cancellation comes
    out of it the call raises [TimeoutError], and when the run caught the
    cancellation the call gives what the run then ends with. *)
Definition wait_for (run : Run) (timeout : Z) : option (result AgentResult) :=
  match run with
  | Finishes seconds outcome =>
      if Qle_bool (inject_Z timeout) seconds
      then Some (Raise (TimeoutError EmptyString))
      else Some outcome
  | Hangs => Some (Raise (TimeoutError EmptyString))
  | Catches (Some (seconds, outcome)) caught =>
      if Qle_bool (inject_Z timeout) seconds then caught else Some outcome
  | Catches None caught => caught
  end.

Definition nl : string := String (ascii_of_nat 10) EmptyString.

Definition enhance_task_description (task url : string) : string :=
  let enhanced_task :=
    if Str.nonempty url
    then "Navigate to " +:+ url +:+ " and then complete this task:" +:+ nl +:+ nl +:+ task
    else task in
  enhanced_task
  +:+ nl +:+ nl +:+ "ACTION-FOCUSED RULES:"
  +:+ nl +:+ "- TAKE IMMEDIATE ACTION - don't spend time analyzing"
  +:+ nl +:+ "- Click Accept on any cookie popups (5 seconds max)"
  +:+ nl +:+ "- Find form fields quickly by their labels"
  +:+ nl +:+ "- Type airport codes immediately when you find the right field"
  +:+ nl +:+ "- Click dropdown options immediately when they appear"
  +:+ nl +:+ "- If stuck on any element for >10 seconds, move to next step"
  +:+ nl +:+ "- If you see bot detection/CAPTCHA, stop immediately"
  +:+ nl +:+ "- SPEED IS CRITICAL - don't overthink, just execute".

(** [process_result]: the attributes other than [actions] are stored as
    they are; a fault while the actions are read is caught, and the second
    dictionary is returned. *)
Definition process_result (r : AgentResult) : Processed :=
  match actions r with
  | Some (Raise e) => Unprocessed (str e) (as_text r)
  | Some (Ok texts) =>
      Extracted texts (final_url r) (default (Items []) (screenshots r))
                (default (Items []) (extracted_content r))
  | None =>
      Extracted [] (final_url r) (default (Items []) (screenshots r))
                (default (Items []) (extracted_content r))
  end.

(** [json.dumps] returns on the dictionary of [process_result]. *)
Definition encodable_data (p : Processed) : bool :=
  match p with
  | Extracted _ url shots data =>
      match url with Some v => encodable v | None => true end
      && encodable shots && encodable data
  | Unprocessed _ _ => true
  end.

(** [json.dumps] returns on a response. *)
Definition encodable_response (r : Response) : bool :=
  match r_data r with
  | Some p => encodable_data p
  | None => true
  end.

(** The dictionary of a response once [send_response] has added the
    timestamp. *)
Definition response (timestamp type : string) (message : option string)
    (data : option Processed) : Response :=
  {| r_type := type; r_message := message; r_data := data;
     r_timestamp := timestamp |}.

(** [send_response]: the lines it writes.  When [json.dumps] raises, the
    handler of the method logs the fault and nothing is written.
    [timestamp] is the reading of [datetime.now().isoformat()]. *)
Definition send_response (timestamp type : string) (message : option string)
    (data : option Processed) : list Response :=
  let line := response timestamp type message data in
  if encodable_response line then [line] else [].

(** The vocabulary scanned for in the outer handler. *)
Definition bot_keywords : list string :=
  ["captcha"; "bot"; "verification"; "challenge"; "blocked"].

(** [any(keyword in error_msg for keyword in [...])] with
    [error_msg = str(e).lower()]. *)
Definition mentions_bot_detection (e : exn) : bool :=
  let error_msg := Str.lower (str e) in
  existsb (fun keyword => Str.contains keyword error_msg) bot_keywords.

Definition timeout_message (actual_timeout : Z) : string :=
  "Task timed out after " +:+ pretty actual_timeout +:+
  " seconds. Site may have bot detection or be unresponsive.".

Definition bot_detection_message (e : exn) : string :=
  "Bot detection encountered: " +:+ str e.

Section WithAgent.

(** [timestamp] is the reading of the clock when the response is sent.
    [create_agent task timeout] is the constructor [Agent(...)]: [None] when
    it returns, the exception when it raises.  [agent_run task] is the run of
    the agent made for [task]. *)
Variable timestamp : string.
Variable create_agent : string -> Z -> option exn.
Variable agent_run : string -> Run.

(** The inner [try] with its [except asyncio.TimeoutError]. *)
Definition run_with_deadline (enhanced_task : string) (timeout : Z) : Exec :=
  let actual_timeout := Z.min timeout 90 in
  match wait_for (agent_run enhanced_task) actual_timeout with
  | None => Never []
  | Some (Ok r) =>
      Returns (send_response timestamp "success" None (Some (process_result r)))
  | Some (Raise (TimeoutError _)) =>
      Returns (send_response timestamp "error"
                 (Some (timeout_message actual_timeout)) None)
  | Some (Raise (Exception msg)) => Raises [] (Exception msg)
  end.

(** The body of the outer [try]. *)
Definition attempt (task_data : TaskData) : Exec :=
  let task_description := default EmptyString (td_task task_data) in
  let url := default EmptyString (td_url task_data) in
  let timeout := default 60 (td_timeout task_data) in
  if negb (Str.nonempty task_description)
  then Raises [] (Exception "Task description is required")
  else
    let enhanced_task := enhance_task_description task_description url in
    match create_agent enhanced_task (Z.min timeout 90) with
    | Some e => Raises [] e
    | None => run_with_deadline enhanced_task timeout
    end.

(** The outer [except Exception as e]. *)
Definition report_fault (e : exn) : list Response :=
  if mentions_bot_detection e
  then send_response timestamp "error" (Some (bot_detection_message e)) None
  else send_response timestamp "error" (Some (str e)) None.

Definition execute_task (task_data : TaskData) : Exec :=
  catch (attempt task_data) report_fault.

End WithAgent.

End Bridge.

(** ** The properties, in the words of the specification *)

Module Spec.
Import Detector Automation Bridge.

(** A text signal is present: it is defined and not empty. *)
Definition Present (o : option string) : Prop :=
  exists text, o = Some text /\ text <> EmptyString.

(** A label was resolved: [findLabel] found a label element, whatever its
    text. *)
Definition Resolved (o : option string) : Prop :=
  exists text, o = Some text.

(** [v] is the bonus [n] when [P] holds and nothing otherwise. *)
Definition bonus_if (P : Prop) (n v : Z) : Prop :=
  (P /\ v = n) \/ (~ P /\ v = 0).

(** The search string in the words of the specification: name, id,
    placeholder, label and the nearby fragments, the undefined ones skipped,
    joined by spaces, in lower case. *)
Definition claimed_parts (a : Attributes) (c : Context) : list string :=
  omap (fun o : option string => o)
       [a_name a; a_id a; a_placeholder a; label c] ++ nearbyText c.

Definition claimed_searchText (a : Attributes) (c : Context) : string :=
  Str.lower (Str.join " " (claimed_parts a c)).

(** Some pattern of the category matches the text. *)
Definition CategoryMatches (entry : string * list string) (text : string) : Prop :=
  exists pattern, pattern ∈ entry.2 /\ Str.SubstringCI pattern text.

(** [semantic] is the first category of [table] that matches [text], or
    "unknown" when none does. *)
Definition FirstMatching (table : list (string * list string)) (text : string)
    (semantic : string) : Prop :=
  (exists before patterns after,
      table = before ++ (semantic, patterns) :: after /\
      CategoryMatches (semantic, patterns) text /\
      Forall (fun entry => ~ CategoryMatches entry text) before) \/
  (Forall (fun entry => ~ CategoryMatches entry text) table /\
   semantic = "unknown").

(** The fallback candidates as the specification words them: the semantic
    contains the key or the key contains the semantic, ignoring case. *)
Definition claimed_fallback (detected_fields : list Field) (key : string)
    (f : Field) : Prop :=
  f ∈ detected_fields /\
  (Str.SubstringCI key (semantic f) \/ Str.SubstringCI (semantic f) key).

(** The fallback candidates of the code: the semantic contains the key,
    ignoring case. *)
Definition semantic_contains_key (detected_fields : list Field) (key : string)
    (f : Field) : Prop :=
  f ∈ detected_fields /\ Str.SubstringCI key (semantic f).

(** [clamp(x, lo, hi)]. *)
Definition clamp (x lo hi : Q) : Q := Qmax lo (Qmin hi x).

(** The semantic bonus as the specification words it: 0.5 when key and
    semantic are equal, else 0.3 when either contains the other, else 0. *)
Definition claimed_semantic_bonus (key : string) (f : Field) : Q :=
  if String.eqb key (semantic f) then 0.5%Q
  else if Str.contains_ci key (semantic f) || Str.contains_ci (semantic f) key
       then 0.3%Q
       else 0%Q.

(** The confidence as the specification words it.  The context bonus is
    taken as the code computes it. *)
Definition claimed_confidence (key : string) (f : Field) : Q :=
  clamp (base_score f + claimed_semantic_bonus key f + context_bonus key f) 0 1.

(** The text searched for the context bonus, before lower-casing. *)
Definition context_signals (f : Field) : string :=
  get_text (label (context f)) +:+ " " +:+
  Str.join " " (nearbyText (context f)) +:+ " " +:+
  get_text (a_placeholder (attributes f)).

(** The semantic bonus of the code: 0.5 when key and semantic are equal
    ignoring case, else 0.3 when the semantic contains the key ignoring case,
    else 0. *)
Definition SemanticBonus (key : string) (f : Field) (v : Q) : Prop :=
  (Str.lower key = Str.lower (semantic f) /\ v = 0.5%Q) \/
  (Str.lower key <> Str.lower (semantic f) /\
   Str.SubstringCI key (semantic f) /\ v = 0.3%Q) \/
  (~ Str.SubstringCI key (semantic f) /\ v = 0%Q).

(** The context bonus: 0.2 when the key occurs, ignoring case, in the label,
    the nearby fragments and the placeholder joined by spaces, else 0. *)
Definition ContextBonus (key : string) (f : Field) (v : Q) : Prop :=
  (Str.SubstringCI key (context_signals f) /\ v = 0.2%Q) \/
  (~ Str.SubstringCI key (context_signals f) /\ v = 0%Q).

(** Suggestion [a] may stand in front of suggestion [b]: its confidence is
    larger, or the confidences are equal and its score is not smaller. *)
Definition ranks_before (a b : Suggestion) : Prop :=
  (sg_confidence b < sg_confidence a)%Q \/
  ((sg_confidence a == sg_confidence b)%Q /\
   score (sg_field b) <= score (sg_field a)).

(** A field list as a detection pass leaves it: largest score first. *)
Definition ranked (fields : list Field) : Prop :=
  StronglySorted (fun a b => score b <= score a) fields.

(** The deadline elapses before the run completes. *)
Definition DeadlineElapses (run : Run) (timeout : Z) : Prop :=
  match run with
  | Finishes seconds _ => (inject_Z timeout < seconds)%Q
  | Hangs => True
  | Catches (Some (seconds, _)) _ => (inject_Z timeout < seconds)%Q
  | Catches None _ => True
  end.

(** The run stops when it is cancelled: it does not catch the
    cancellation. *)
Definition StopsWhenCancelled (run : Run) : Prop :=
  match run with
  | Catches _ _ => False
  | _ => True
  end.

(** The message of the fault contains a word of the bot-detection
    vocabulary, ignoring case. *)
Definition MentionsBotDetection (e : exn) : Prop :=
  exists keyword, keyword ∈ bot_keywords /\ Str.SubstringCI keyword (str e).

End Spec.

(** ** Sample pages *)

Module Examples.
Import Detector.

Definition box (w h : Q) : Rect :=
  {| rect_x := 0; rect_y := 0; rect_width := w; rect_height := h |}.

(** [<input id=dep placeholder="From city">] with the label "Departure". *)
Definition el_departure : Element :=
  {| el_name := Some EmptyString; el_id := Some "dep"; el_type := Some "text";
     el_tagName := "INPUT"; el_placeholder := Some "From city";
     el_className := Some EmptyString; el_rect := box 120 24;
     el_display := "inline-block"; el_visibility := "visible";
     el_labelFor := Some " Departure "; el_closestLabel := None;
     el_parentTexts := [" Departure "] |}.

(** The same input drawn elsewhere. *)
Definition el_departure_moved : Element :=
  {| el_name := Some EmptyString; el_id := Some "dep"; el_type := Some "text";
     el_tagName := "INPUT"; el_placeholder := Some "From city";
     el_className := Some EmptyString; el_rect := box 300 40;
     el_display := "block"; el_visibility := "visible";
     el_labelFor := Some " Departure "; el_closestLabel := None;
     el_parentTexts := [" Departure "] |}.

(** An input with no label and no placeholder, next to the text "random". *)
Definition el_plain : Element :=
  {| el_name := Some EmptyString; el_id := Some EmptyString; el_type := Some "text";
     el_tagName := "INPUT"; el_placeholder := Some EmptyString;
     el_className := Some EmptyString; el_rect := box 120 24;
     el_display := "inline-block"; el_visibility := "visible";
     el_labelFor := None; el_closestLabel := None;
     el_parentTexts := ["random"] |}.

(** [<label><input name=email></label>]: the label is there, its text is
    empty. *)
Definition el_email : Element :=
  {| el_name := Some "email"; el_id := Some EmptyString; el_type := Some "email";
     el_tagName := "INPUT"; el_placeholder := Some EmptyString;
     el_className := Some EmptyString; el_rect := box 120 24;
     el_display := "inline-block"; el_visibility := "visible";
     el_labelFor := None; el_closestLabel := Some "  ";
     el_parentTexts := [] |}.

(** A hidden input. *)
Definition el_hidden : Element :=
  {| el_name := Some "token"; el_id := Some EmptyString; el_type := Some "text";
     el_tagName := "INPUT"; el_placeholder := Some EmptyString;
     el_className := Some EmptyString; el_rect := box 120 24;
     el_display := "none"; el_visibility := "visible";
     el_labelFor := None; el_closestLabel := None;
     el_parentTexts := [] |}.

Definition document : Document :=
  {| querySelectorAll selector :=
       if String.eqb selector (input_of_type "text")
       then [el_plain; el_hidden; el_departure]
       else if String.eqb selector (input_of_type "email")
       then [el_email]
       else [] |}.

Definition clock (k : nat) : Z := 1753900000000 + Z.of_nat k.

Definition fields : list Field := detectAllFields document clock.

Definition field_plain : Field := analyzeField el_plain 0 (clock 0).
Definition field_departure : Field := analyzeField el_departure 1 (clock 1).
Definition field_email : Field := analyzeField el_email 2 (clock 2).

(** A page that counts the scripts run on it.  Detection works; a field is
    filled when it has an id, and the evaluation raises otherwise. *)
Definition detection_ok (p : nat) : result (Document * (nat -> Z)) * nat :=
  (Ok (document, clock), S p).

Definition detection_blocked (p : nat) : result (Document * (nat -> Z)) * nat :=
  (Raise (Exception "Field detection scripts not loaded"), p).

Definition evaluate_fill_by_id (f : Field) (value : string) (p : nat)
  : result bool * nat :=
  if Str.truthy (a_id (attributes f))
  then (Ok true, S p)
  else (Raise (Exception "Execution context was destroyed"), S p).

(** A record that no detection pass produces: its score is negative. *)
Definition field_negative : Field :=
  {| id := "field_x"; rect := box 1 1;
     attributes := attributes field_plain; context := context field_plain;
     semantic := "unknown"; score := -100; visible := true |}.

Definition fresh : Automation.World :=
  {| Automation.detected_fields := []; Automation.page := 0%nat |}.

(** Agents: one that meets a CAPTCHA after three seconds, one that needs
    two minutes, one that returns after five seconds. *)
Definition no_result : Bridge.AgentResult :=
  {| Bridge.actions := None; Bridge.final_url := None;
     Bridge.screenshots := None; Bridge.extracted_content := None;
     Bridge.as_text := "AgentHistoryList()" |}.

(** A result whose screenshots are byte strings, which [json.dumps] does not
    encode. *)
Definition result_with_bytes : Bridge.AgentResult :=
  {| Bridge.actions := Some (Ok ["click"; "type"]);
     Bridge.final_url := Some (Bridge.Text "https://flights.example/results");
     Bridge.screenshots := Some (Bridge.Items [Bridge.Opaque "b'PNG'"]);
     Bridge.extracted_content := None;
     Bridge.as_text := "AgentHistoryList()" |}.

(** A result whose actions cannot be read. *)
Definition result_unreadable : Bridge.AgentResult :=
  {| Bridge.actions := Some (Raise (Exception "'int' object is not iterable"));
     Bridge.final_url := None;
     Bridge.screenshots := Some (Bridge.Items [Bridge.Opaque "b'PNG'"]);
     Bridge.extracted_content := None;
     Bridge.as_text := "AgentHistoryList()" |}.

Definition run_captcha (task : string) : Bridge.Run :=
  Bridge.Finishes 3 (Raise (Exception "CAPTCHA challenge detected")).

Definition run_slow_captcha (task : string) : Bridge.Run :=
  Bridge.Finishes 120 (Raise (Exception "CAPTCHA challenge detected")).

Definition run_done (task : string) : Bridge.Run :=
  Bridge.Finishes 5 (Ok no_result).

(** Agents that catch the cancellation: one then raises, one then returns,
    one goes on for ever. *)
Definition run_cancelled_captcha (task : string) : Bridge.Run :=
  Bridge.Catches None (Some (Raise (Exception "CAPTCHA challenge detected"))).

Definition run_cancelled_done (task : string) : Bridge.Run :=
  Bridge.Catches (Some (120%Q, Ok no_result)) (Some (Ok no_result)).

Definition run_never_ends (task : string) : Bridge.Run :=
  Bridge.Catches None None.

(** An agent that raises a [TimeoutError] of its own after a second. *)
Definition run_own_timeout (task : string) : Bridge.Run :=
  Bridge.Finishes 1 (Raise (TimeoutError "Navigation blocked by a captcha page")).

Definition create_ok (task : string) (timeout : Z) : option exn := None.

Definition search_task : Bridge.TaskData :=
  {| Bridge.td_task := Some "Find flights from LAX to JFK";
     Bridge.td_url := Some "https://flights.example";
     Bridge.td_timeout := Some 30 |}.

End Examples.

(** ** The injected highlighter (JavaScript, class [FieldHighlighter]) *)

Module Highlighter.
Import Detector.

Record Style := {
  border : string;
  bg : string
}.

(** The table [this.styles], in declaration order. *)
Definition styles : list (string * Style) :=
  [ ("email", {| border := "#3b82f6"; bg := "rgba(59, 130, 246, 0.1)" |});
    ("password", {| border := "#ef4444"; bg := "rgba(239, 68, 68, 0.1)" |});
    ("name", {| border := "#10b981"; bg := "rgba(16, 185, 129, 0.1)" |});
    ("departure", {| border := "#f59e0b"; bg := "rgba(245, 158, 11, 0.1)" |});
    ("destination", {| border := "#8b5cf6"; bg := "rgba(139, 92, 246, 0.1)" |});
    ("unknown", {| border := "#9ca3af"; bg := "rgba(156, 163, 175, 0.1)" |}) ].

(** [this.styles.unknown]. *)
Definition unknown_style : Style :=
  {| border := "#9ca3af"; bg := "rgba(156, 163, 175, 0.1)" |}.

(** [table[key]] on the entries of the table. *)
Fixpoint property {V : Type} (table : list (string * V)) (key : string) : option V :=
  match table with
  | [] => None
  | (k, v) :: rest => if String.eqb k key then Some v else property rest key
  end.

(** [this.styles[field.semantic] || this.styles.unknown]. *)
Definition style_of (semantic : string) : Style :=
  match property styles semantic with
  | Some style => style
  | None => unknown_style
  end.

(** The overlay that [createHighlight] builds: the box it copies from the
    field, the colours of the style, and the text of its label.  [left] and
    [top] of a rectangle are its smaller horizontal and vertical
    coordinates. *)
Record Overlay := {
  ov_left : Q;
  ov_top : Q;
  ov_width : Q;
  ov_height : Q;
  ov_border : string;
  ov_bg : string;
  ov_label : string
}.

Definition rect_left (r : Rect) : Q := Qmin (rect_x r) (rect_x r + rect_width r).
Definition rect_top (r : Rect) : Q := Qmin (rect_y r) (rect_y r + rect_height r).

Definition overlay_of (field : Field) : Overlay :=
  let style := style_of (semantic field) in
  {| ov_left := rect_left (rect field);
     ov_top := rect_top (rect field);
     ov_width := rect_width (rect field);
     ov_height := rect_height (rect field);
     ov_border := border style;
     ov_bg := bg style;
     ov_label := semantic field |}.

(** The children of [document.body] that are overlays, in document order,
    each with the number that tells the node apart, and the number the next
    created node gets. *)
Record Body := {
  nodes : list (nat * Overlay);
  fresh : nat
}.

(** [document.body.appendChild(highlight)] for a new node. *)
Definition appendChild (overlay : Overlay) (body : Body) : nat * Body :=
  (fresh body,
   {| nodes := nodes body ++ [(fresh body, overlay)]; fresh := S (fresh body) |}).

(** [highlight.remove()]. *)
Definition remove (node : nat) (body : Body) : Body :=
  {| nodes := filter (fun entry => entry.1 <> node) (nodes body);
     fresh := fresh body |}.

(** [map.set(key, value)] on a [Map] kept in insertion order. *)
Fixpoint map_set (key : string) (value : nat) (m : list (string * nat))
  : list (string * nat) :=
  match m with
  | [] => [(key, value)]
  | (k, v) :: rest =>
      if String.eqb k key then (k, value) :: rest
      else (k, v) :: map_set key value rest
  end.

(** A [FieldHighlighter] (its map [highlights]) and the body it draws on. *)
Definition State : Type := list (string * nat) * Body.

(** [new FieldHighlighter()]. *)
Definition new_highlights : list (string * nat) := [].

Definition createHighlight (field : Field) (st : State) : State :=
  let (node, body) := appendChild (overlay_of field) st.2 in
  (map_set (id field) node st.1, body).

Definition removeAllHighlights (st : State) : State :=
  ([], foldl (fun body entry => remove entry.2 body) st.2 st.1).

Definition highlightFields (fields : list Field) (st : State) : State :=
  foldl (fun st field => createHighlight field st) (removeAllHighlights st) fields.

(** The script of [detect_and_highlight_fields], once both classes are
    loaded: a new detector, a new highlighter, detection, highlighting. *)
Definition detection_script (document : Document) (now : nat -> Z) (body : Body)
  : list Field * Body :=
  let fields := detectAllFields document now in
  (fields, (highlightFields fields (new_highlights, body)).2).

(** The script of [remove_highlights]; [loaded] tells whether
    [window.FieldHighlighter] is there. *)
Definition remove_highlights_script (loaded : bool) (body : Body) : Body :=
  if loaded then (removeAllHighlights (new_highlights, body)).2 else body.

(** Every node of the body was numbered before [fresh]. *)
Definition well_numbered (body : Body) : Prop :=
  Forall (fun entry => (entry.1 < fresh body)%nat) (nodes body).

End Highlighter.

(** ** Flight search (class [SmartFlightSearchAutomation]) *)

Module FlightSearch.
Import Detector Automation.

(** The selectors probed by [click_search_button], in order. *)
Definition search_selectors : list string :=
  [ "button[type=" +:+ quoted "submit" +:+ "]";
    "input[type=" +:+ quoted "submit" +:+ "]";
    "button:has-text(" +:+ quoted "Search" +:+ ")";
    "button:has-text(" +:+ quoted "Find" +:+ ")";
    "button:has-text(" +:+ quoted "Go" +:+ ")";
    "[role=" +:+ quoted "button" +:+ "]:has-text(" +:+ quoted "Search" +:+ ")";
    ".search-button";
    ".btn-search";
    "#search-btn";
    "button:contains(" +:+ quoted "Search" +:+ ")";
    "button:contains(" +:+ quoted "Find" +:+ ")" ].

(** [flight_data.get(key, EmptyString)]. *)
Definition get (flight_data : gmap string string) (key : string) : string :=
  default EmptyString (flight_data !! key).

(** The dictionary [field_mapping] after the empty values are filtered out,
    in insertion order. *)
Definition field_mapping (flight_data : gmap string string)
  : list (string * string) :=
  filter (fun item => Str.nonempty item.2 = true)
    [ ("departure", get flight_data "from");
      ("destination", get flight_data "to");
      ("date", get flight_data "departure_date");
      ("email", get flight_data "email");
      ("name", get flight_data "passenger_name") ].

(** [mapping.get(key)] on a dictionary given by its items. *)
Fixpoint mapping_get (mapping : list (string * string)) (key : string)
  : option string :=
  match mapping with
  | [] => None
  | (k, v) :: rest => if String.eqb k key then Some v else mapping_get rest key
  end.

Definition required_fields : list string := ["departure"; "destination"].

(** [all(results.get(field, False) for field in required_fields
         if field_mapping.get(field))]. *)
Definition all_required_filled (mapping : list (string * string))
    (results : gmap string bool) : bool :=
  forallb (fun field => default false (results !! field))
    (filter (fun field => Str.truthy (mapping_get mapping field) = true)
            required_fields).

Section WithPage.

(** [wait_for_selector selector p] is [page.wait_for_selector(selector,
    timeout=2000)]: an element handle, [None], or an exception.
    [click h p] is [element.click()]. *)
Context {P H : Type}.
Variable detection : P -> result (Document * (nat -> Z)) * P.
Variable evaluate_fill : Field -> string -> P -> result bool * P.
Variable wait_for_selector : string -> P -> result (option H) * P.
Variable click : H -> P -> result unit * P.

Local Notation "'do' x <- m ; k" := (bind m (fun x => k))
  (at level 10, x name, m at level 100, k at level 200).

(** The body of the loop of [click_search_button] for one selector: [true]
    when the method returns [True] there, [false] when the loop goes on. *)
Definition probe (selector : string) : M bool :=
  try_except
    (do element <- on_page (wait_for_selector selector) ;
     match element with
     | Some handle => do _ <- on_page (click handle) ; ret true
     | None => ret false
     end)
    (fun _ => ret false).

Fixpoint probe_each (selectors : list string) : M bool :=
  match selectors with
  | [] => ret false
  | selector :: rest =>
      do clicked <- probe selector ;
      if clicked then ret true else probe_each rest
  end.

Definition click_search_button : M bool := probe_each search_selectors.

Definition search_flights (flight_data : gmap string string) : M bool :=
  try_except
    (do fields <- detect_and_highlight_fields detection ;
     let mapping := field_mapping flight_data in
     do results <- smart_field_fill detection evaluate_fill mapping ;
     if all_required_filled mapping results
     then
       do search_clicked <- click_search_button ;
       if search_clicked then ret true else ret false
     else ret false)
    (fun _ => ret false).

End WithPage.

End FlightSearch.

(** ** The host side of the bridge ([initialize_llm], [test_connection],
    [handle_message], [run]) *)

Module Host.
Import Bridge.

(** The model made by [initialize_llm]. *)
Inductive LLM : Type :=
| ChatOpenAI (api_key : string)
| ChatAnthropic (api_key : string).

(** A request line once parsed.  [message.get] works on an object; on any
    other JSON value it raises, and [no_get] is the text of that fault. *)
Record Message := {
  m_type : option string;
  m_data : option TaskData
}.

Inductive Json : Type :=
| JObject (message : Message)
| JOther (no_get : string).

(** [{}] read as task data. *)
Definition no_task_data : TaskData :=
  {| td_task := None; td_url := None; td_timeout := None |}.

(** ASCII white space, as [str.strip] sees it. *)
Definition py_space (c : ascii) : bool :=
  let n := nat_of_ascii c in
  ((9 <=? n) && (n <=? 13) || (28 <=? n) && (n <=? 32))%nat.

(** [not line.strip()]. *)
Fixpoint blank (line : string) : bool :=
  match line with
  | EmptyString => true
  | String c rest => py_space c && blank rest
  end.

Section WithEnvironment.

(** [openai_key] and [anthropic_key] are the readings of [os.getenv].
    [make_openai key] and [make_anthropic key] are the constructors, and
    [load_anthropic] the import of [ChatAnthropic]: [None] when they return,
    the exception when they raise. *)
Variable timestamp : string.
Variables openai_key anthropic_key : option string.
Variable make_openai : string -> option exn.
Variable load_anthropic : option exn.
Variable make_anthropic : string -> option exn.

(** The body of the [try] of [initialize_llm]. *)
Definition choose_llm : result LLM :=
  match openai_key with
  | Some (String c key) =>
      match make_openai (String c key) with
      | None => Ok (ChatOpenAI (String c key))
      | Some e => Raise e
      end
  | _ =>
      match anthropic_key with
      | Some (String c key) =>
          match load_anthropic with
          | Some e => Raise e
          | None =>
              match make_anthropic (String c key) with
              | None => Ok (ChatAnthropic (String c key))
              | Some e => Raise e
              end
          end
      | _ =>
          Raise (Exception
                   "No API key found. Please set OPENAI_API_KEY or ANTHROPIC_API_KEY")
      end
  end.

(** [initialize_llm]: the value of [self.llm] afterwards and the lines
    written. *)
Definition initialize_llm : option LLM * list Response :=
  match choose_llm with
  | Ok llm => (Some llm, [])
  | Raise e =>
      (None,
       send_response timestamp "error"
         (Some ("Failed to initialize LLM: " +:+ str e)) None)
  end.

End WithEnvironment.

(** The answer of the model to the test prompt: it answers, it raises, or
    the call never returns. *)
Inductive Reply : Type :=
| Answers
| Fails (e : exn)
| Silent.

(** The world outside while one line is handled: the clock, the model the
    bridge holds, the answer of the model to the test prompt, and the
    agent. *)
Record World := {
  timestamp : string;
  llm : option LLM;
  ainvoke : LLM -> Reply;
  create_agent : string -> Z -> option exn;
  agent_run : string -> Run
}.

Definition test_connection (w : World) : Exec :=
  match llm w with
  | None =>
      Returns (send_response (timestamp w) "test_error"
                 (Some ("Browser-use test failed: " +:+ "LLM not initialized"))
                 None)
  | Some model =>
      match ainvoke w model with
      | Answers =>
          Returns (send_response (timestamp w) "test_success"
                     (Some "Browser-use is working correctly") None)
      | Fails e =>
          Returns (send_response (timestamp w) "test_error"
                     (Some ("Browser-use test failed: " +:+ str e)) None)
      | Silent => Never []
      end
  end.

(** The body of the [try] of [handle_message]. *)
Definition dispatch (w : World) (json : Json) : Exec :=
  match json with
  | JOther no_get => Raises [] (Exception no_get)
  | JObject message =>
      let message_type := default EmptyString (m_type message) in
      if String.eqb message_type "execute_task" then
        execute_task (timestamp w) (create_agent w) (agent_run w)
          (default no_task_data (m_data message))
      else if String.eqb message_type "test" then test_connection w
      else if String.eqb message_type "ping" then
        Returns (send_response (timestamp w) "pong" (Some "Bridge is alive") None)
      else
        Returns (send_response (timestamp w) "error"
                   (Some ("Unknown message type: " +:+ message_type)) None)
  end.

Definition handle_message (w : World) (json : Json) : Exec :=
  catch (dispatch w json)
        (fun e => send_response (timestamp w) "error"
                    (Some ("Message handling failed: " +:+ str e)) None).

Section WithInput.

(** [json_loads line] is [json.loads(line)], which raises on a line that is
    not JSON; [world k] is the world while line number [k] is handled;
    [started] is the clock when the bridge starts. *)
Variable json_loads : string -> result Json.
Variable world : nat -> World.
Variable started : string.

(** One turn of the loop of [run] for a line that was read. *)
Definition answer (k : nat) (line : string) : Exec :=
  if blank line then Returns []
  else
    match json_loads line with
    | Raise e =>
        Returns (send_response (timestamp (world k)) "error"
                   (Some ("Invalid JSON: " +:+ str e)) None)
    | Ok json =>
        catch (handle_message (world k) json)
              (fun e => send_response (timestamp (world k)) "error"
                          (Some ("Unexpected error: " +:+ str e)) None)
    end.

(** The loop, until the input ends. *)
Fixpoint answer_each (k : nat) (lines : list string) : Exec :=
  match lines with
  | [] => Returns []
  | line :: rest => and_then (answer k line) (answer_each (S k) rest)
  end.

(** [run] on the lines read before the input ends. *)
Definition run (lines : list string) : Exec :=
  after (send_response started "ready" (Some "Browser-use bridge is ready") None)
        (catch (answer_each 0 lines) (fun _ => [])).

End WithInput.

(** [main]: the bridge is constructed, which initialises the model, and
    then runs; the model the bridge holds is the one it made. *)
Definition with_llm (model : option LLM) (w : World) : World :=
  {| timestamp := timestamp w; llm := model; ainvoke := ainvoke w;
     create_agent := create_agent w; agent_run := agent_run w |}.

Definition main (constructed : string) (openai_key anthropic_key : option string)
    (make_openai : string -> option exn) (load_anthropic : option exn)
    (make_anthropic : string -> option exn)
    (json_loads : string -> result Json) (world : nat -> World)
    (started : string) (lines : list string) : Exec :=
  let (model, sent) :=
    initialize_llm constructed openai_key anthropic_key make_openai
      load_anthropic make_anthropic in
  after sent (run json_loads (fun k => with_llm model (world k)) started lines).

End Host.

(** ** The fill script of [fill_field_by_semantic_type] (JavaScript) *)

Module FillScript.
Import Detector.

(** What the script does to the page, in order. *)
Inductive Action : Type :=
| Focus (node : nat)
| SetValue (node : nat) (value : string)
| Dispatch (node : nat) (event : string).

(** The live document as the script queries it.  [querySelector] raises on
    a selector it cannot parse. *)
Record Dom := {
  getElementById : string -> option nat;
  querySelector : string -> result (option nat)
}.

(** [[attribute="text"]]. *)
Definition attribute_selector (attribute text : string) : string :=
  "[" +:+ attribute +:+ "=" +:+ quoted text +:+ "]".

(** [if (!element && text) element = document.querySelector(...)]. *)
Definition or_by_attribute (dom : Dom) (attribute : string)
    (text : option string) (element : option nat) : result (option nat) :=
  match element, text with
  | None, Some (String c rest) =>
      querySelector dom (attribute_selector attribute (String c rest))
  | _, _ => Ok element
  end.

(** [if (fieldData.attributes.id) element = document.getElementById(...)]. *)
Definition by_id (dom : Dom) (fieldData : Field) : option nat :=
  match a_id (attributes fieldData) with
  | Some (String c rest) => getElementById dom (String c rest)
  | _ => None
  end.

(** The script: what it returns and what it did. *)
Definition fill_script (dom : Dom) (fieldData : Field) (value : string)
  : result (bool * list Action) :=
  let element := by_id dom fieldData in
  match or_by_attribute dom "name" (a_name (attributes fieldData)) element with
  | Raise e => Raise e
  | Ok element =>
      match or_by_attribute dom "placeholder"
              (a_placeholder (attributes fieldData)) element with
      | Raise e => Raise e
      | Ok (Some node) =>
          Ok (true, [Focus node; SetValue node value;
                     Dispatch node "input"; Dispatch node "change"])
      | Ok None => Ok (false, [])
      end
  end.

End FillScript.

(** ** Further statements about the detector *)

Module DetectorProps.
Import Detector.

(** Character [c] occurs in [s]. *)
Fixpoint occurs (c : ascii) (s : string) : bool :=
  match s with
  | EmptyString => false
  | String x s' => Ascii.eqb x c || occurs c s'
  end.

(** The element is drawn: its box has a positive width and height, and its
    computed style neither removes nor hides it. *)
Definition Drawn (e : Element) : Prop :=
  (0 < rect_width (el_rect e))%Q /\ (0 < rect_height (el_rect e))%Q /\
  el_display e <> "none" /\ el_visibility e <> "hidden".

(** The field is the analysis of the element. *)
Definition analysis_of (e : Element) (f : Field) : Prop :=
  attributes f = extractAttributes e /\ context f = analyzeContext e /\
  rect f = el_rect e /\ visible f = true.

(** The categories of the pattern table and the default. *)
Definition categories : list string :=
  map fst semanticPatterns ++ ["unknown"].

End DetectorProps.

(** ** Further statements about the task bridge *)

Module BridgeProps.
Import Bridge.

(** The task is there and not empty. *)
Definition TaskGiven (task_data : TaskData) : Prop :=
  exists task, td_task task_data = Some task /\ task <> EmptyString.

(** The text handed to the agent. *)
Definition enhanced (task_data : TaskData) : string :=
  enhance_task_description (default EmptyString (td_task task_data))
                           (default EmptyString (td_url task_data)).

(** The deadline of the run, in seconds. *)
Definition deadline (task_data : TaskData) : Z :=
  Z.min (default 60 (td_timeout task_data)) 90.

(** The run hands the result [r] to the caller that awaits it under the
    deadline: it returns [r] before the deadline, or it catches the
    cancellation at the deadline and then returns [r]. *)
Definition Delivers (run : Run) (timeout : Z) (r : AgentResult) : Prop :=
  match run with
  | Finishes seconds outcome =>
      (seconds < inject_Z timeout)%Q /\ outcome = Ok r
  | Hangs => False
  | Catches (Some (seconds, outcome)) caught =>
      ((seconds < inject_Z timeout)%Q /\ outcome = Ok r) \/
      ((inject_Z timeout <= seconds)%Q /\ caught = Some (Ok r))
  | Catches None caught => caught = Some (Ok r)
  end.

(** The run throws the fault [e] at the caller that awaits it under the
    deadline: it raises [e] before the deadline, or it catches the
    cancellation at the deadline and then raises [e]. *)
Definition Throws (run : Run) (timeout : Z) (e : exn) : Prop :=
  match run with
  | Finishes seconds outcome =>
      (seconds < inject_Z timeout)%Q /\ outcome = Raise e
  | Hangs => False
  | Catches (Some (seconds, outcome)) caught =>
      ((seconds < inject_Z timeout)%Q /\ outcome = Raise e) \/
      ((inject_Z timeout <= seconds)%Q /\ caught = Some (Raise e))
  | Catches None caught => caught = Some (Raise e)
  end.

(** The run catches the cancellation at the deadline and never ends. *)
Definition NeverEnds (run : Run) (timeout : Z) : Prop :=
  match run with
  | Catches (Some (seconds, _)) caught =>
      (inject_Z timeout <= seconds)%Q /\ caught = None
  | Catches None caught => caught = None
  | _ => False
  end.

(** The fault [e] is thrown during the attempt, and it is not the deadline
    that elapses: the task is missing, or the constructor of the agent
    raises [e], or the run throws [e]. *)
Definition Thrown (create_agent : string -> Z -> option exn)
    (agent_run : string -> Run) (task_data : TaskData) (e : exn) : Prop :=
  (~ TaskGiven task_data /\ e = Exception "Task description is required") \/
  (TaskGiven task_data /\
   create_agent (enhanced task_data) (deadline task_data) = Some e) \/
  (TaskGiven task_data /\
   create_agent (enhanced task_data) (deadline task_data) = None /\
   Throws (agent_run (enhanced task_data)) (deadline task_data) e).

(** The fault is a [TimeoutError] that the run throws. *)
Definition OwnTimeout (create_agent : string -> Z -> option exn)
    (agent_run : string -> Run) (task_data : TaskData) (e : exn) : Prop :=
  TaskGiven task_data /\
  create_agent (enhanced task_data) (deadline task_data) = None /\
  Throws (agent_run (enhanced task_data)) (deadline task_data) e /\
  exists msg, e = TimeoutError msg.

(** The task is started and gets no answer: the run catches the
    cancellation and never ends, or it hands over a result that
    [json.dumps] cannot encode once it is processed. *)
Definition Lost (create_agent : string -> Z -> option exn)
    (agent_run : string -> Run) (task_data : TaskData) : Prop :=
  TaskGiven task_data /\
  create_agent (enhanced task_data) (deadline task_data) = None /\
  (NeverEnds (agent_run (enhanced task_data)) (deadline task_data) \/
   exists r,
     Delivers (agent_run (enhanced task_data)) (deadline task_data) r /\
     encodable_data (process_result r) = false).

End BridgeProps.

(** ** Further statements about the host side *)

Module HostProps.
Import Bridge Host BridgeProps.

(** The message gets no answer: it starts a task that gets none, or it
    tests a model that never answers. *)
Definition Unanswered (w : World) (json : Json) : Prop :=
  exists message,
    json = JObject message /\
    ((m_type message = Some "execute_task" /\
      Lost (create_agent w) (agent_run w)
           (default no_task_data (m_data message))) \/
     (m_type message = Some "test" /\
      exists model, llm w = Some model /\ ainvoke w model = Silent)).

End HostProps.

(** ** Further samples *)

Module Samples.
Import Detector Highlighter.

(** A page with no overlay yet. *)
Definition clean_body : Body := {| nodes := []; fresh := 0%nat |}.

(** A page on which only the submit button of a form resolves, and a click
    that returns.  The page counts the calls made on it. *)
Definition wait_submit (selector : string) (p : nat)
  : result (option unit) * nat :=
  if String.eqb selector ("button[type=" +:+ quoted "submit" +:+ "]")
  then (Ok (Some tt), S p)
  else (Raise (TimeoutError "Timeout 2000ms exceeded."), S p).

Definition click_ok (handle : unit) (p : nat) : result unit * nat :=
  (Ok tt, S p).

(** Two inputs that no category matches: one with a label and a
    placeholder, and one with a placeholder only, which comes first in the
    document. *)
Definition el_voucher : Element :=
  {| el_name := Some EmptyString; el_id := Some "v"; el_type := Some "text";
     el_tagName := "INPUT"; el_placeholder := Some "Voucher";
     el_className := Some EmptyString; el_rect := Examples.box 120 24;
     el_display := "inline-block"; el_visibility := "visible";
     el_labelFor := Some " Voucher "; el_closestLabel := None;
     el_parentTexts := [" Voucher "] |}.

Definition el_promo : Element :=
  {| el_name := Some EmptyString; el_id := Some EmptyString;
     el_type := Some "text";
     el_tagName := "INPUT"; el_placeholder := Some "Promo";
     el_className := Some EmptyString; el_rect := Examples.box 120 24;
     el_display := "inline-block"; el_visibility := "visible";
     el_labelFor := None; el_closestLabel := None;
     el_parentTexts := [] |}.

Definition checkout : Document :=
  {| querySelectorAll selector :=
       if String.eqb selector (input_of_type "text")
       then [el_promo; el_voucher]
       else [] |}.

(** A parser that knows three lines, and a world in which the model answers
    and the agent returns after five seconds. *)
Definition parse (line : string) : result Host.Json :=
  if String.eqb line "ping"
  then Ok (Host.JObject {| Host.m_type := Some "ping"; Host.m_data := None |})
  else if String.eqb line "test"
  then Ok (Host.JObject {| Host.m_type := Some "test"; Host.m_data := None |})
  else if String.eqb line "run"
  then Ok (Host.JObject {| Host.m_type := Some "execute_task";
                           Host.m_data := Some Examples.search_task |})
  else Raise (Exception "Expecting value: line 1 column 1 (char 0)").

Definition quiet_world (k : nat) : Host.World :=
  {| Host.timestamp := pretty k; Host.llm := None;
     Host.ainvoke := fun _ => Host.Answers;
     Host.create_agent := Examples.create_ok;
     Host.agent_run := Examples.run_done |}.

(** A world with a model, in which the run of the agent catches the
    cancellation and never ends. *)
Definition stuck_world (k : nat) : Host.World :=
  {| Host.timestamp := pretty k; Host.llm := Some (Host.ChatOpenAI "sk-test");
     Host.ainvoke := fun _ => Host.Answers;
     Host.create_agent := Examples.create_ok;
     Host.agent_run := Examples.run_never_ends |}.

End Samples.

(** * Facts *)

Import Str.

(** ** Text *)

Lemma app_nil_l (s : string) : "" +:+ s = s.
Proof. reflexivity. Qed.

Lemma app_cons (c : ascii) (a b : string) :
  String c a +:+ b = String c (a +:+ b).
Proof. reflexivity. Qed.

Lemma app_empty_r (s : string) : s +:+ "" = s.
Proof. induction s as [|c s IH]; [reflexivity | now rewrite app_cons, IH]. Qed.

Lemma app_assoc (a b c : string) : (a +:+ b) +:+ c = a +:+ (b +:+ c).
Proof. induction a as [|x a IH]; [reflexivity | now rewrite !app_cons, IH]. Qed.

Lemma starts_with_spec (p s : string) :
  starts_with p s = true <-> exists suf, s = p +:+ suf.
Proof.
  revert s. induction p as [|a p IH]; intros s; simpl.
  - split; [intros _; now exists s | reflexivity].
  - destruct s as [|b s].
    + split; [discriminate | intros [suf H]; rewrite app_cons in H; discriminate].
    + rewrite andb_true_iff, Ascii.eqb_eq, IH. split.
      * intros [-> [suf ->]]. now exists suf.
      * intros [suf H]. rewrite app_cons in H. injection H as -> ->.
        split; [reflexivity | now exists suf].
Qed.

Lemma contains_spec (k s : string) :
  contains k s = true <-> Substring k s.
Proof.
  unfold Substring. induction s as [|c s IH].
  - simpl. rewrite orb_false_r, starts_with_spec. split.
    + intros [suf H]. exists "", suf. exact H.
    + intros [pre [suf H]]. destruct pre; [now exists suf | rewrite app_cons in H; discriminate].
  - cbn [contains]. rewrite orb_true_iff, starts_with_spec, IH. split.
    + intros [[suf H] | [pre [suf H]]].
      * exists "", suf. exact H.
      * exists (String c pre), suf. now rewrite app_cons, H.
    + intros [pre [suf H]]. destruct pre as [|x pre].
      * left. now exists suf.
      * right. rewrite app_cons in H. injection H as _ H. now exists pre, suf.
Qed.

Lemma contains_ci_spec (k s : string) :
  contains_ci k s = true <-> SubstringCI k s.
Proof. apply contains_spec. Qed.

Lemma Substring_app_r (k a b : string) : Substring k b -> Substring k (a +:+ b).
Proof.
  intros [pre [suf ->]]. exists (a +:+ pre), suf. now rewrite app_assoc.
Qed.

Lemma Substring_app_l (k a b : string) : Substring k a -> Substring k (a +:+ b).
Proof.
  intros [pre [suf ->]]. exists pre, (suf +:+ b). now rewrite !app_assoc.
Qed.

Lemma lower_app (a b : string) : lower (a +:+ b) = lower a +:+ lower b.
Proof.
  induction a as [|c a IH]; [reflexivity|].
  rewrite app_cons. cbn [lower]. now rewrite app_cons, IH.
Qed.

Lemma lower_ascii_idem (c : ascii) : lower_ascii (lower_ascii c) = lower_ascii c.
Proof.
  destruct c as [[] [] [] [] [] [] [] []]; reflexivity.
Qed.

Lemma lower_idem (s : string) : lower (lower s) = lower s.
Proof.
  induction s as [|c s IH]; simpl; [reflexivity|].
  now rewrite lower_ascii_idem, IH.
Qed.

Lemma length_app (a b : string) :
  String.length (a +:+ b) = (String.length a + String.length b)%nat.
Proof.
  induction a as [|c a IH]; [reflexivity|].
  rewrite app_cons. cbn [String.length]. now rewrite IH.
Qed.

(** ** Stable sorting *)

Section StableSortFacts.
Context {A : Type} (before : A -> A -> bool).

Lemma insert_sorted_perm (x : A) (l : list A) :
  Permutation (insert_sorted before x l) (x :: l).
Proof.
  induction l as [|y l IH]; cbn [insert_sorted]; [reflexivity|].
  destruct (before x y); [reflexivity|].
  rewrite IH. apply perm_swap.
Qed.

Lemma stable_sort_perm (l : list A) : Permutation (stable_sort before l) l.
Proof.
  induction l as [|x l IH]; [reflexivity|].
  cbn [stable_sort foldr]. rewrite insert_sorted_perm.
  now apply perm_skip.
Qed.

Lemma elem_of_stable_sort (x : A) (l : list A) :
  x ∈ stable_sort before l <-> x ∈ l.
Proof. now rewrite stable_sort_perm. Qed.

(** Elements that are not moved past [x] keep their place: a filter that
    drops everything [x] is moved past sees [x] in front. *)
Lemma filter_insert_sorted (P : A -> Prop) `{!forall a, Decision (P a)}
    (x : A) (l : list A) :
  (forall y, P y -> P x -> before x y = true) ->
  filter P (insert_sorted before x l) = filter P (x :: l).
Proof.
  intros Hclass. induction l as [|y l IH]; cbn [insert_sorted]; [reflexivity|].
  destruct (before x y) eqn:Hxy; [reflexivity|].
  rewrite filter_cons, IH, !filter_cons.
  destruct (decide (P y)) as [Hy|Hy], (decide (P x)) as [Hx|Hx]; try reflexivity.
  rewrite (Hclass y Hy Hx) in Hxy. discriminate.
Qed.

Lemma filter_stable_sort (P : A -> Prop) `{!forall a, Decision (P a)}
    (l : list A) :
  (forall x y, P x -> P y -> before x y = true) ->
  filter P (stable_sort before l) = filter P l.
Proof.
  intros Hclass. induction l as [|x l IH]; [reflexivity|].
  cbn [stable_sort foldr].
  rewrite filter_insert_sorted by (intros y Hy Hx; now apply Hclass).
  rewrite !filter_cons. fold (stable_sort before l). now rewrite IH.
Qed.

Hypothesis before_total : forall x y, before x y = false -> before y x = true.
Hypothesis before_trans :
  forall x y z, before x y = true -> before y z = true -> before x z = true.

Lemma insert_sorted_then (R : A -> A -> Prop) (x : A) (l : list A) :
  Forall (R x) l ->
  StronglySorted (sorted_then before R) l ->
  StronglySorted (sorted_then before R) (insert_sorted before x l).
Proof.
  intros Hx Hl. induction Hl as [|y l Hl IH Hy]; cbn [insert_sorted].
  - repeat constructor.
  - destruct (before x y) eqn:Hxy.
    + constructor; [now constructor|].
      rewrite Forall_forall in Hx. apply Forall_forall. intros z Hz. split.
      * apply elem_of_cons in Hz as [->|Hz]; [assumption|].
        rewrite Forall_forall in Hy. destruct (Hy z Hz) as [Hyz _].
        now apply before_trans with y.
      * intros _. now apply Hx.
    + apply Forall_cons in Hx as [_ Hx]. constructor; [now apply IH|].
      apply Forall_forall. intros z Hz.
      apply (elem_of_Permutation_proper _ _ _ (insert_sorted_perm x l)) in Hz.
      apply elem_of_cons in Hz as [->|Hz].
      * split; [now apply before_total | rewrite Hxy; discriminate].
      * rewrite Forall_forall in Hy. now apply Hy.
Qed.

Lemma stable_sort_sorted_then (R : A -> A -> Prop) (l : list A) :
  StronglySorted R l ->
  StronglySorted (sorted_then before R) (stable_sort before l).
Proof.
  induction 1 as [|x l Hl IH Hx]; [constructor|].
  cbn [stable_sort foldr]. apply insert_sorted_then; [|exact IH].
  apply Forall_forall. intros z Hz.
  apply (proj1 (elem_of_stable_sort z l)) in Hz.
  rewrite Forall_forall in Hx. now apply Hx.
Qed.

Lemma StronglySorted_weaken (R1 R2 : A -> A -> Prop) (l : list A) :
  (forall a b, R1 a b -> R2 a b) ->
  StronglySorted R1 l -> StronglySorted R2 l.
Proof.
  intros Himp. induction 1 as [|x l Hl IH Hx]; constructor; [assumption|].
  eapply Forall_impl; [exact Hx | auto].
Qed.

Lemma stable_sort_sorted (l : list A) :
  StronglySorted (fun a b => before a b = true) (stable_sort before l).
Proof.
  assert (StronglySorted (fun _ _ => True) l) as Hl.
  { induction l; constructor; [assumption | now apply Forall_forall]. }
  apply stable_sort_sorted_then in Hl.
  eapply StronglySorted_weaken; [|exact Hl]. now intros a b [Hab _].
Qed.

End StableSortFacts.

(** ** The scorer *)

Import Detector Spec.

Lemma truthy_Present (o : option string) : truthy o = true <-> Present o.
Proof.
  unfold Present. destruct o as [[|c s]|]; simpl; split; try discriminate.
  - intros [text [[= <-] Hne]]. now contradict Hne.
  - intros _. now eexists.
  - reflexivity.
  - intros [text [[=] _]].
Qed.

Lemma bonus_if_truthy (o : option string) (n : Z) :
  bonus_if (Present o) n (if truthy o then n else 0).
Proof.
  destruct (truthy o) eqn:Ho.
  - left. split; [now apply truthy_Present | reflexivity].
  - right. split; [|reflexivity]. intros H%truthy_Present. congruence.
Qed.

Lemma bonus_if_known (semantic : string) (n : Z) :
  bonus_if (semantic <> "unknown") n
           (if negb (String.eqb semantic "unknown") then n else 0).
Proof.
  destruct (String.eqb_spec semantic "unknown") as [->|Hne]; simpl.
  - right. split; [|reflexivity]. intros H. now apply H.
  - left. now split.
Qed.

Lemma calculateScore_sum (a : Attributes) (c : Context) (semantic : string) :
  calculateScore a c semantic =
  Z.min 100
    (50 + (if truthy (label c) then 20 else 0)
        + (if truthy (a_placeholder a) then 15 else 0)
        + (if negb (String.eqb semantic "unknown") then 15 else 0)).
Proof.
  unfold calculateScore.
  destruct (truthy (label c)), (truthy (a_placeholder a)),
    (negb (String.eqb semantic "unknown")); reflexivity.
Qed.

Lemma calculateScore_range (a : Attributes) (c : Context) (semantic : string) :
  50 <= calculateScore a c semantic <= 100.
Proof.
  rewrite calculateScore_sum.
  destruct (truthy (label c)), (truthy (a_placeholder a)),
    (negb (String.eqb semantic "unknown")); lia.
Qed.

Lemma bonus_if_mono (P P' : Prop) (n v v' : Z) :
  0 <= n -> (P -> P') -> bonus_if P n v -> bonus_if P' n v' -> v <= v'.
Proof.
  intros Hn Himp [[HP ->]|[HP ->]] [[HP' ->]|[HP' ->]]; try lia.
  contradict HP'. now apply Himp.
Qed.

(** A resolved label earns nothing when its text is empty: the label of
    [<label><input name=email></label>] is found, its trimmed text is empty,
    and the score is 65 where the stated sum is 85. *)
Lemma score_ignores_empty_label :
  Resolved (label (context Examples.field_email)) /\
  score Examples.field_email
  = calculateScore (attributes Examples.field_email)
      (context Examples.field_email) (semantic Examples.field_email) /\
  ~ (exists l p s,
        bonus_if (Resolved (label (context Examples.field_email))) 20 l /\
        bonus_if (Present (a_placeholder (attributes Examples.field_email))) 15 p /\
        bonus_if (semantic Examples.field_email <> "unknown") 15 s /\
        calculateScore (attributes Examples.field_email)
          (context Examples.field_email) (semantic Examples.field_email)
        = Z.min 100 (50 + l + p + s)).
Proof.
  split; [now exists EmptyString | split; [reflexivity|]].
  intros (l & p & s & [[_ ->]|[Hno _]] & Hp & Hs & Hscore).
  - assert (0 <= p) by (destruct Hp as [[_ ->]|[_ ->]]; lia).
    assert (0 <= s) by (destruct Hs as [[_ ->]|[_ ->]]; lia).
    vm_compute in Hscore. revert Hscore.
    change (65 = Z.min 100 (50 + 20 + p + s) -> False). lia.
  - apply Hno. now exists EmptyString.
Qed.

(** C4. The score is 50, plus 20 when a label with a text was resolved,
    plus 15 when a placeholder is present, plus 15 when the semantic is not
    "unknown", capped at 100; it lies in [0,100]; and it does not decrease
    when bonus conditions are added.  A label or placeholder counts when its
    text is defined and not empty, which is what the tests
    [if (context.label)] and [if (attributes.placeholder)] accept. *)
Theorem calculateScore_additive_bounded_monotone
    (a a' : Attributes) (c c' : Context) (semantic semantic' : string)
    (Hlabel : Present (label c) -> Present (label c'))
    (Hplaceholder : Present (a_placeholder a) -> Present (a_placeholder a'))
    (Hsemantic : semantic <> "unknown" -> semantic' <> "unknown") :
  (exists l p s,
      bonus_if (Present (label c)) 20 l /\
      bonus_if (Present (a_placeholder a)) 15 p /\
      bonus_if (semantic <> "unknown") 15 s /\
      calculateScore a c semantic = Z.min 100 (50 + l + p + s)) /\
  0 <= calculateScore a c semantic <= 100 /\
  calculateScore a c semantic <= calculateScore a' c' semantic'.
Proof.
  split; [|split].
  - eexists _, _, _. repeat split.
    + apply bonus_if_truthy.
    + apply bonus_if_truthy.
    + apply bonus_if_known.
    + apply calculateScore_sum.
  - pose proof (calculateScore_range a c semantic). lia.
  - rewrite !calculateScore_sum.
    pose proof (bonus_if_mono _ _ 20 _ _ ltac:(lia) Hlabel
                  (bonus_if_truthy (label c) 20) (bonus_if_truthy (label c') 20)).
    pose proof (bonus_if_mono _ _ 15 _ _ ltac:(lia) Hplaceholder
                  (bonus_if_truthy (a_placeholder a) 15)
                  (bonus_if_truthy (a_placeholder a') 15)).
    pose proof (bonus_if_mono _ _ 15 _ _ ltac:(lia) Hsemantic
                  (bonus_if_known semantic 15) (bonus_if_known semantic' 15)).
    lia.
Qed.

Lemma calculateScore_additive_bounded_monotone_witness :
  0 <= calculateScore (attributes Examples.field_plain)
         (context Examples.field_departure) "unknown" <= 100 /\
  calculateScore (attributes Examples.field_plain)
    (context Examples.field_departure) "unknown"
  <= calculateScore (attributes Examples.field_departure)
       (context Examples.field_departure) "departure".
Proof.
  refine (proj2 (calculateScore_additive_bounded_monotone
                   (attributes Examples.field_plain)
                   (attributes Examples.field_departure)
                   (context Examples.field_departure)
                   (context Examples.field_departure)
                   "unknown" "departure" _ _ _)).
  - intros H. exact H.
  - intros [text [H _]]. vm_compute in H. discriminate H.
  - intros H _. apply H. reflexivity.
Defined.

(** ** The classifier *)

Lemma test_spec (pattern text : string) :
  test pattern text = true <-> SubstringCI pattern text.
Proof. apply contains_spec. Qed.

Lemma existsb_test (semantic : string) (patterns : list string) (text : string) :
  existsb (fun pattern => test pattern text) patterns = true <->
  CategoryMatches (semantic, patterns) text.
Proof.
  unfold CategoryMatches. cbn [snd]. induction patterns as [|p ps IH]; cbn [existsb].
  - split; [discriminate | intros [p [Hp _]]; inversion Hp].
  - rewrite orb_true_iff, IH, test_spec. split.
    + intros [H | [p' [Hin H]]].
      * exists p. split; [left | exact H].
      * exists p'. split; [now right | exact H].
    + intros [p' [Hin H]]. apply elem_of_cons in Hin as [->|Hin].
      * now left.
      * right. now exists p'.
Qed.

Lemma first_category_spec (table : list (string * list string)) (text : string) :
  FirstMatching table text (first_category table text).
Proof.
  induction table as [|[semantic patterns] rest IH]; cbn [first_category].
  - right. split; [constructor | reflexivity].
  - destruct (existsb _ patterns) eqn:Hex.
    + left. exists [], patterns, rest.
      split; [reflexivity | split; [|constructor]].
      now apply (existsb_test semantic).
    + assert (~ CategoryMatches (semantic, patterns) text) as Hno.
      { intros H%existsb_test. congruence. }
      destruct IH as [(pre & pats & post & Heq & Hm & Hpre) | [Hnone Hunk]].
      * left. exists ((semantic, patterns) :: pre), pats, post.
        split; [|split; [exact Hm | now constructor]].
        rewrite <- app_comm_cons. f_equal. exact Heq.
      * right. split; [now constructor | assumption].
Qed.

Lemma first_category_ext (table : list (string * list string)) (t1 t2 : string) :
  (forall entry pattern,
      entry ∈ table -> pattern ∈ entry.2 -> test pattern t1 = test pattern t2) ->
  first_category table t1 = first_category table t2.
Proof.
  induction table as [|[semantic patterns] rest IH]; intros Hsame; [reflexivity|].
  cbn [first_category].
  assert (existsb (fun p => test p t1) patterns
          = existsb (fun p => test p t2) patterns) as ->.
  { assert (forall p, p ∈ patterns -> test p t1 = test p t2) as Hp.
    { intros p Hin. apply (Hsame (semantic, patterns)); [left | exact Hin]. }
    clear Hsame IH. induction patterns as [|p ps IHp]; [reflexivity|].
    cbn [existsb]. rewrite (Hp p) by left. f_equal. apply IHp.
    intros q Hq. apply Hp. now right. }
  rewrite IH; [reflexivity|].
  intros entry p Hin Hp. apply (Hsame entry p); [now right | exact Hp].
Qed.

(** A text without spaces that starts inside [a] and fits in [a], a space
    and [b], fits in [a]. *)
Lemma starts_app_space (p a b : string) :
  no_space p = true ->
  (exists suf, a +:+ " " +:+ b = p +:+ suf) ->
  exists suf, a = p +:+ suf.
Proof.
  revert a. induction p as [|c p IH]; intros a Hp [suf H].
  - now exists a.
  - cbn [no_space] in Hp. apply andb_true_iff in Hp as [Hc Hp].
    rewrite app_cons in H. destruct a as [|x a].
    + rewrite app_nil_l, app_cons in H. injection H as <- _.
      discriminate Hc.
    + rewrite app_cons in H. injection H as -> H.
      destruct (IH a Hp (ex_intro _ suf H)) as [suf' ->].
      exists suf'. now rewrite app_cons.
Qed.

Lemma Substring_app_space (p a b : string) :
  no_space p = true -> p <> EmptyString ->
  Substring p (a +:+ " " +:+ b) -> Substring p a \/ Substring p b.
Proof.
  intros Hp Hne [pre [suf H]]. revert a H.
  induction pre as [|c pre IH]; intros a H.
  - rewrite app_nil_l in H. left.
    destruct (starts_app_space p a b Hp (ex_intro _ suf H)) as [suf' ->].
    now exists EmptyString, suf'.
  - rewrite app_cons in H. destruct a as [|x a].
    + rewrite app_nil_l, app_cons in H. injection H as _ H.
      right. now exists pre, suf.
    + rewrite app_cons in H. injection H as -> H.
      destruct (IH a H) as [[pre' [suf' ->]] | Hb]; [left | now right].
      exists (String c pre'), suf'. now rewrite app_cons.
Qed.

Lemma join_cons (sep p q : string) (rest : list string) :
  join sep (p :: q :: rest) = p +:+ sep +:+ join sep (q :: rest).
Proof. reflexivity. Qed.

Lemma Substring_join_elim (p : string) (parts : list string) :
  no_space p = true -> p <> EmptyString ->
  Substring p (join " " parts) ->
  exists part, part ∈ parts /\ Substring p part.
Proof.
  intros Hp Hne. induction parts as [|a [|b rest] IH]; intros H.
  - destruct H as [[|c pre] [suf H]]; [|rewrite app_cons in H; discriminate].
    rewrite app_nil_l in H. destruct p; [now contradict Hne|].
    rewrite app_cons in H. discriminate.
  - exists a. split; [left | exact H].
  - rewrite join_cons in H.
    destruct (Substring_app_space _ _ _ Hp Hne H) as [Ha | Hrest].
    + exists a. split; [left | exact Ha].
    + destruct (IH Hrest) as [part [Hin Hpart]].
      exists part. split; [now right | exact Hpart].
Qed.

Lemma Substring_join_intro (p sep part : string) (parts : list string) :
  part ∈ parts -> Substring p part -> Substring p (join sep parts).
Proof.
  intros Hin Hp. induction parts as [|a [|b rest] IH]; [inversion Hin| |].
  - apply elem_of_cons in Hin as [->|Hin]; [exact Hp | inversion Hin].
  - rewrite join_cons. apply elem_of_cons in Hin as [->|Hin].
    + now apply Substring_app_l.
    + apply Substring_app_r, Substring_app_r. now apply IH.
Qed.

Lemma lower_join (sep : string) (parts : list string) :
  lower (join sep parts) = join (lower sep) (map lower parts).
Proof.
  induction parts as [|a [|b rest] IH]; [reflexivity..|].
  rewrite join_cons, !lower_app, IH. reflexivity.
Qed.

(** Empty parts do not change what a pattern without spaces finds. *)
Lemma contains_join_nonempty (p : string) (parts : list string) :
  no_space p = true -> p <> EmptyString ->
  contains p (lower (join " " (filter (fun s => nonempty s = true) parts)))
  = contains p (lower (join " " parts)).
Proof.
  intros Hp Hne. rewrite !lower_join. change (lower " ") with " ".
  apply eq_true_iff_eq. rewrite !contains_spec. split.
  - intros H. apply Substring_join_elim in H as [part [Hin Hpart]]; [|assumption..].
    apply (Substring_join_intro _ _ part); [|exact Hpart].
    apply list_elem_of_fmap in Hin as [s [-> Hs]].
    apply list_elem_of_fmap. exists s. split; [reflexivity|].
    now apply list_elem_of_filter in Hs as [_ Hs].
  - intros H. apply Substring_join_elim in H as [part [Hin Hpart]]; [|assumption..].
    apply (Substring_join_intro _ _ part); [|exact Hpart].
    apply list_elem_of_fmap in Hin as [s [-> Hs]].
    apply list_elem_of_fmap. exists s. split; [reflexivity|].
    apply list_elem_of_filter. split; [|exact Hs].
    destruct s; [|reflexivity].
    destruct Hpart as [[|c pre] [suf H]].
    + destruct p; [now contradict Hne | rewrite app_nil_l, app_cons in H; discriminate].
    + rewrite app_cons in H. discriminate.
Qed.

Lemma filter_Boolean_filter (parts : list (option string)) :
  filter_Boolean parts
  = filter (fun s => nonempty s = true) (omap (fun o : option string => o) parts).
Proof.
  unfold filter_Boolean. induction parts as [|[s|] parts IH]; [reflexivity| |].
  - cbn -[filter nonempty]. rewrite filter_cons.
    destruct (nonempty s) eqn:Hs.
    + rewrite decide_True by reflexivity. f_equal. exact IH.
    + rewrite decide_False by discriminate. exact IH.
  - cbn -[filter]. exact IH.
Qed.

Lemma omap_Some_app (l1 : list (option string)) (l2 : list string) :
  omap (fun o : option string => o) (l1 ++ map Some l2)
  = omap (fun o : option string => o) l1 ++ l2.
Proof.
  rewrite omap_app. f_equal. induction l2 as [|x l2 IH]; [reflexivity|].
  cbn. now rewrite IH.
Qed.

Lemma searchText_claimed_parts (a : Attributes) (c : Context) :
  searchText a c
  = lower (join " " (filter (fun s => nonempty s = true) (claimed_parts a c))).
Proof.
  unfold searchText, claimed_parts.
  now rewrite filter_Boolean_filter, omap_Some_app.
Qed.

Lemma test_searchText (pattern : string) (a : Attributes) (c : Context) :
  no_space (lower pattern) = true -> lower pattern <> EmptyString ->
  test pattern (searchText a c) = test pattern (claimed_searchText a c).
Proof.
  intros Hp Hne. unfold test, claimed_searchText.
  rewrite searchText_claimed_parts, !lower_idem.
  now apply contains_join_nonempty.
Qed.

Lemma semanticPatterns_no_space (entry : string * list string) (pattern : string) :
  entry ∈ semanticPatterns -> pattern ∈ entry.2 ->
  no_space (lower pattern) = true /\ lower pattern <> EmptyString.
Proof.
  intros Hentry Hpattern.
  assert (forallb (fun e : string * list string =>
                     forallb (fun p => no_space (lower p) && nonempty (lower p)) e.2)
                  semanticPatterns = true) as Hall by (vm_compute; reflexivity).
  rewrite forallb_forall in Hall.
  apply list_elem_of_In in Hentry. specialize (Hall entry Hentry).
  rewrite forallb_forall in Hall.
  apply list_elem_of_In in Hpattern. specialize (Hall pattern Hpattern).
  apply andb_true_iff in Hall as [Hs Hn]. split; [exact Hs|].
  intros Heq. rewrite Heq in Hn. discriminate.
Qed.

Lemma inferPurpose_claimed (a : Attributes) (c : Context) :
  inferPurpose a c = first_category semanticPatterns (claimed_searchText a c).
Proof.
  unfold inferPurpose. apply first_category_ext. intros entry pattern He Hp.
  destruct (semanticPatterns_no_space entry pattern He Hp) as [Hs Hn].
  now apply test_searchText.
Qed.

(** ** Sample runs of the detector *)

Example scenario_departure :
  semantic Examples.field_departure = "departure" /\
  score Examples.field_departure = 100 /\
  label (context Examples.field_departure) = Some "Departure" /\
  searchText (attributes Examples.field_departure) (context Examples.field_departure)
  = "dep from city departure departure".
Proof. vm_compute. repeat split. Qed.

Example scenario_plain :
  semantic Examples.field_plain = "unknown" /\ score Examples.field_plain = 50.
Proof. vm_compute. split; reflexivity. Qed.

Example scenario_empty_label :
  label (context Examples.field_email) = Some EmptyString /\
  semantic Examples.field_email = "email" /\
  score Examples.field_email = 65.
Proof. vm_compute. repeat split. Qed.

Example scenario_detection :
  Examples.fields
  = [Examples.field_departure; Examples.field_email; Examples.field_plain] /\
  id Examples.field_departure = "field_1_1753900000001".
Proof. vm_compute. split; reflexivity. Qed.

(** C7. The classifier returns the first category of the table, in
    declaration order, one of whose patterns occurs in the lower-case,
    space-joined text of name, id, placeholder, label and nearby fragments
    (undefined ones skipped), and "unknown" when no category matches.
    Two analyses of elements with the same attributes and context give the
    same semantic and the same score, whatever their order number and clock
    reading. *)
Theorem inferPurpose_first_matching_category
    (a : Attributes) (c : Context)
    (e1 e2 : Element) (order1 order2 : nat) (now1 now2 : Z)
    (Hattributes : extractAttributes e1 = extractAttributes e2)
    (Hcontext : analyzeContext e1 = analyzeContext e2) :
  FirstMatching semanticPatterns (claimed_searchText a c) (inferPurpose a c) /\
  semantic (analyzeField e1 order1 now1)
  = inferPurpose (extractAttributes e1) (analyzeContext e1) /\
  semantic (analyzeField e1 order1 now1) = semantic (analyzeField e2 order2 now2) /\
  score (analyzeField e1 order1 now1) = score (analyzeField e2 order2 now2).
Proof.
  split; [|split; [reflexivity|]].
  - rewrite inferPurpose_claimed. apply first_category_spec.
  - unfold analyzeField. cbn [semantic score].
    now rewrite Hattributes, Hcontext.
Qed.

Lemma inferPurpose_first_matching_category_witness :
  FirstMatching semanticPatterns
    (claimed_searchText (extractAttributes Examples.el_email)
                        (analyzeContext Examples.el_email))
    "email" /\
  semantic (analyzeField Examples.el_departure 1 5) = "departure" /\
  semantic (analyzeField Examples.el_departure 1 5)
  = semantic (analyzeField Examples.el_departure_moved 7 9) /\
  score (analyzeField Examples.el_departure 1 5)
  = score (analyzeField Examples.el_departure_moved 7 9).
Proof.
  exact (inferPurpose_first_matching_category
           (extractAttributes Examples.el_email) (analyzeContext Examples.el_email)
           Examples.el_departure Examples.el_departure_moved 1 7 5 9
           eq_refl eq_refl).
Defined.

(** ** The detection pass *)

Lemma analyzeAll_analyzed (now : nat -> Z) (elements : list Element)
    (counter : nat) (f : Field) :
  f ∈ analyzeAll now counter elements ->
  exists element order,
    element ∈ elements /\ isVisible element = true /\
    f = analyzeField element order (now order).
Proof.
  revert counter. induction elements as [|e rest IH]; intros counter Hf.
  - inversion Hf.
  - cbn [analyzeAll] in Hf. destruct (isVisible e) eqn:Hv.
    + apply elem_of_cons in Hf as [-> | Hf].
      * exists e, counter. split; [left | now split].
      * destruct (IH _ Hf) as (e' & o & Hin & Hvis & ->).
        exists e', o. split; [now right | now split].
    + destruct (IH _ Hf) as (e' & o & Hin & Hvis & ->).
      exists e', o. split; [now right | now split].
Qed.

Lemma compareScore_total (x y : Field) :
  (compareScore x y <=? 0) = false -> (compareScore y x <=? 0) = true.
Proof. unfold compareScore. lia. Qed.

Lemma compareScore_trans (x y z : Field) :
  (compareScore x y <=? 0) = true -> (compareScore y z <=? 0) = true ->
  (compareScore x z <=? 0) = true.
Proof. unfold compareScore. lia. Qed.

Lemma rankFields_perm (fields : list Field) :
  Permutation (rankFields fields) fields.
Proof. apply stable_sort_perm. Qed.

Lemma rankFields_sorted (fields : list Field) :
  StronglySorted (fun a b => score b <= score a) (rankFields fields).
Proof.
  eapply StronglySorted_weaken;
    [|apply stable_sort_sorted; [apply compareScore_total | apply compareScore_trans]].
  intros a b. unfold compareScore. cbn beta. lia.
Qed.

Lemma rankFields_stable (fields : list Field) (s : Z) :
  filter (fun f => score f = s) (rankFields fields)
  = filter (fun f => score f = s) fields.
Proof.
  apply filter_stable_sort. intros x y Hx Hy. unfold compareScore. lia.
Qed.

(** A list that is sorted by decreasing score and keeps, score by score,
    the order of the discovered fields is the ranked list: the outcome of a
    stable sort does not depend on how the sort is carried out. *)
Lemma sorted_by_score_unique (l1 l2 : list Field) :
  StronglySorted (fun a b => score b <= score a) l1 ->
  StronglySorted (fun a b => score b <= score a) l2 ->
  (forall s, filter (fun f => score f = s) l1 = filter (fun f => score f = s) l2) ->
  l1 = l2.
Proof.
  intros H1. revert l2. induction H1 as [|x l1 Hl1 IH Hx]; intros l2 H2 Hsame.
  - destruct l2 as [|y l2]; [reflexivity|].
    specialize (Hsame (score y)).
    rewrite filter_nil, filter_cons_True in Hsame by reflexivity. discriminate.
  - destruct l2 as [|y l2].
    { specialize (Hsame (score x)).
      rewrite filter_nil, filter_cons_True in Hsame by reflexivity. discriminate. }
    apply StronglySorted_inv in H2 as [H2 Hy].
    rewrite Forall_forall in Hx, Hy.
    assert (score x <= score y) as Hxy.
    { assert (x ∈ filter (fun f => score f = score x) (y :: l2)) as Hin.
      { rewrite <- Hsame, filter_cons_True by reflexivity. left. }
      apply list_elem_of_filter in Hin as [_ Hin].
      apply elem_of_cons in Hin as [->|Hin]; [lia | now apply Hy]. }
    assert (score y <= score x) as Hyx.
    { assert (y ∈ filter (fun f => score f = score y) (x :: l1)) as Hin.
      { rewrite Hsame, filter_cons_True by reflexivity. left. }
      apply list_elem_of_filter in Hin as [_ Hin].
      apply elem_of_cons in Hin as [->|Hin]; [lia | now apply Hx]. }
    assert (x = y) as <-.
    { specialize (Hsame (score x)).
      rewrite !filter_cons_True in Hsame by lia. congruence. }
    f_equal. apply IH; [exact H2|]. intros s. specialize (Hsame s).
    destruct (decide (score x = s)) as [Hs|Hs].
    + rewrite !filter_cons_True in Hsame by exact Hs. congruence.
    + now rewrite !filter_cons_False in Hsame by exact Hs.
Qed.

Lemma rankFields_unique (fields sorted : list Field) :
  StronglySorted (fun a b => score b <= score a) sorted ->
  (forall s, filter (fun f => score f = s) sorted
             = filter (fun f => score f = s) fields) ->
  sorted = rankFields fields.
Proof.
  intros Hsorted Hstable. apply sorted_by_score_unique.
  - exact Hsorted.
  - apply rankFields_sorted.
  - intros s. now rewrite rankFields_stable.
Qed.

Lemma detectAllFields_analyzed (document : Document) (now : nat -> Z) (f : Field) :
  f ∈ detectAllFields document now ->
  exists element order,
    element ∈ candidates document /\ isVisible element = true /\
    f = analyzeField element order (now order).
Proof.
  unfold detectAllFields, discovered. rewrite rankFields_perm.
  apply analyzeAll_analyzed.
Qed.

Lemma base_score_half (f : Field) :
  50 <= score f -> (1 # 2 <= Automation.base_score f)%Q.
Proof.
  intros H. unfold Automation.base_score, Qle, Qdiv, Qmult, Qinv, inject_Z.
  simpl. lia.
Qed.

(** C10. Every field of a detection pass scores at least 50 and at most
    100; a field with no label, no placeholder and an unknown semantic
    scores exactly 50; so the normalised base score used for suggestions is
    at least one half. *)
Theorem detected_score_at_least_50
    (document : Document) (now : nat -> Z) (f : Field)
    (Hdetected : f ∈ detectAllFields document now) :
  50 <= score f <= 100 /\
  (1 # 2 <= Automation.base_score f)%Q /\
  (forall (a : Attributes) (c : Context),
      ~ Present (label c) -> ~ Present (a_placeholder a) ->
      calculateScore a c "unknown" = 50).
Proof.
  destruct (detectAllFields_analyzed _ _ _ Hdetected) as (e & o & _ & _ & ->).
  assert (50 <= score (analyzeField e o (now o)) <= 100) as Hrange
    by apply calculateScore_range.
  split; [exact Hrange | split].
  - apply base_score_half. lia.
  - intros a c Hl Hp. rewrite calculateScore_sum.
    destruct (truthy (label c)) eqn:El; [now apply truthy_Present in El|].
    destruct (truthy (a_placeholder a)) eqn:Ep; [now apply truthy_Present in Ep|].
    reflexivity.
Qed.

Lemma detected_score_at_least_50_witness :
  50 <= score Examples.field_plain <= 100 /\
  (1 # 2 <= Automation.base_score Examples.field_plain)%Q /\
  (forall (a : Attributes) (c : Context),
      ~ Present (label c) -> ~ Present (a_placeholder a) ->
      calculateScore a c "unknown" = 50).
Proof.
  apply (detected_score_at_least_50 Examples.document Examples.clock).
  vm_compute. do 2 right. left.
Defined.

(** ** Choosing the field to fill *)

Import Automation.

Lemma max_from_first {A : Type} (key : A -> Z) (best : A) (items : list A) :
  Forall (fun x => key x <= key best) items -> max_from key best items = best.
Proof.
  induction 1 as [|x items Hx _ IH]; [reflexivity|].
  cbn [max_from]. destruct (key best <? key x) eqn:Hlt; [lia | exact IH].
Qed.

Lemma StronglySorted_filter {A : Type} (R : A -> A -> Prop) (P : A -> Prop)
    `{!forall a, Decision (P a)} (l : list A) :
  StronglySorted R l -> StronglySorted R (filter P l).
Proof.
  induction 1 as [|x l Hl IH Hx]; [constructor|].
  rewrite filter_cons. destruct (decide (P x)); [|exact IH].
  constructor; [exact IH|].
  apply Forall_forall. intros y [_ Hy]%list_elem_of_filter.
  rewrite Forall_forall in Hx. now apply Hx.
Qed.

Lemma filter_swap {A : Type} (P Q : A -> Prop)
    `{!forall a, Decision (P a), !forall a, Decision (Q a)} (l : list A) :
  filter P (filter Q l) = filter Q (filter P l).
Proof.
  induction l as [|x l IH]; [reflexivity|].
  rewrite !(filter_cons _ x l).
  destruct (decide (Q x)) as [HQ|HQ], (decide (P x)) as [HP|HP].
  - rewrite (filter_cons_True P), (filter_cons_True Q) by assumption.
    now rewrite IH.
  - rewrite (filter_cons_False P) by assumption. exact IH.
  - rewrite (filter_cons_False Q) by assumption. exact IH.
  - exact IH.
Qed.

(** Over a ranked list, [max] by score of the fields that pass a test is the
    first field, in discovery order, among those that pass the test with the
    largest score. *)
Lemma py_max_filter_rankFields (P : Field -> Prop) `{!forall f, Decision (P f)}
    (discovered : list Field) :
  filter P discovered <> [] ->
  exists best,
    py_max score (filter P (rankFields discovered)) = Some best /\
    best ∈ filter P discovered /\
    (forall c, c ∈ filter P discovered -> score c <= score best) /\
    head (filter (fun c => score c = score best) (filter P discovered)) = Some best.
Proof.
  intros Hne.
  pose proof (StronglySorted_filter _ P _ (rankFields_sorted discovered)) as Hsorted.
  assert (Permutation (filter P (rankFields discovered)) (filter P discovered))
    as Hperm by (now rewrite rankFields_perm).
  destruct (filter P (rankFields discovered)) as [|best rest] eqn:Hranked.
  { apply Permutation_nil in Hperm. congruence. }
  apply StronglySorted_inv in Hsorted as [_ Hbest].
  exists best. cbn [py_max]. rewrite (max_from_first score best rest Hbest).
  split; [reflexivity | split; [|split]].
  - rewrite <- Hperm. left.
  - intros c Hc. rewrite <- Hperm in Hc. apply elem_of_cons in Hc as [->|Hc]; [lia|].
    rewrite Forall_forall in Hbest. now apply Hbest.
  - rewrite filter_swap, <- (rankFields_stable discovered (score best)).
    rewrite filter_swap, Hranked, filter_cons_True by reflexivity. reflexivity.
Qed.

Lemma exact_matches_rankFields_nil (discovered : list Field) (key : string) :
  exact_matches (rankFields discovered) key = [] <->
  exact_matches discovered key = [].
Proof.
  unfold exact_matches.
  assert (Permutation (filter (fun f => semantic f = key) (rankFields discovered))
                      (filter (fun f => semantic f = key) discovered)) as Hperm
    by (now rewrite rankFields_perm).
  split; intros H; rewrite H in Hperm.
  - now apply Permutation_nil in Hperm.
  - symmetry in Hperm. now apply Permutation_nil in Hperm.
Qed.

(** C6. Ranking is a stable sort by score, largest first: a permutation,
    sorted, and keeping discovery order within each score.  On the ranked
    list the field chosen for a key with candidates has the largest score
    among the candidates, and among the candidates with that score it is the
    first in discovery order. *)
Theorem best_field_highest_score_first_discovered
    (discovered : list Field) (key : string)
    (Hcandidates : matching_fields discovered key <> []) :
  (Permutation (rankFields discovered) discovered /\
   StronglySorted (fun a b => score b <= score a) (rankFields discovered) /\
   forall s, filter (fun f => score f = s) (rankFields discovered)
             = filter (fun f => score f = s) discovered) /\
  exists best,
    best_field (rankFields discovered) key = Some best /\
    best ∈ matching_fields discovered key /\
    (forall c, c ∈ matching_fields discovered key -> score c <= score best) /\
    head (filter (fun c => score c = score best) (matching_fields discovered key))
    = Some best.
Proof.
  split.
  { split; [apply rankFields_perm | split; [apply rankFields_sorted|]].
    intros s. apply rankFields_stable. }
  unfold best_field, matching_fields in *.
  destruct (exact_matches discovered key) as [|m ms] eqn:Hexact.
  - apply exact_matches_rankFields_nil in Hexact. rewrite Hexact.
    now apply py_max_filter_rankFields.
  - assert (exact_matches (rankFields discovered) key <> []) as Hranked.
    { intros H. apply (proj1 (exact_matches_rankFields_nil _ _)) in H.
      congruence. }
    assert (exact_matches discovered key <> []) as Hne by congruence.
    destruct (py_max_filter_rankFields (fun f => semantic f = key) discovered Hne)
      as (best & Hmax & Hin & Hle & Hhead).
    fold (exact_matches discovered key) in Hin, Hle, Hhead.
    fold (exact_matches (rankFields discovered) key) in Hmax.
    rewrite Hexact in Hin, Hle, Hhead.
    exists best. split; [|now split].
    destruct (exact_matches (rankFields discovered) key); [congruence | exact Hmax].
Qed.

Lemma best_field_highest_score_first_discovered_witness :
  exists best,
    best_field (rankFields (discovered Examples.document Examples.clock)) "email"
    = Some best /\
    best ∈ matching_fields (discovered Examples.document Examples.clock) "email" /\
    (forall c, c ∈ matching_fields (discovered Examples.document Examples.clock) "email" ->
               score c <= score best) /\
    head (filter (fun c => score c = score best)
            (matching_fields (discovered Examples.document Examples.clock) "email"))
    = Some best.
Proof.
  refine (proj2 (best_field_highest_score_first_discovered
                   (discovered Examples.document Examples.clock) "email" _)).
  vm_compute. discriminate.
Defined.

(** Two fields of equal score: the one discovered first is chosen. *)
Example best_field_tie :
  best_field
    (rankFields [Examples.field_plain;
                 analyzeField Examples.el_email 1 10;
                 analyzeField Examples.el_departure 2 20;
                 analyzeField Examples.el_email 3 30])
    "email"
  = Some (analyzeField Examples.el_email 1 10).
Proof. vm_compute. reflexivity. Qed.

(** ** Fallback matching *)

Lemma elem_of_partial_matches (detected : list Field) (key : string) (f : Field) :
  f ∈ partial_matches detected key <-> semantic_contains_key detected key f.
Proof.
  unfold partial_matches, semantic_contains_key.
  rewrite list_elem_of_filter, contains_spec. unfold SubstringCI. tauto.
Qed.

Lemma filter_nil_forall {A : Type} (P : A -> Prop) `{!forall a, Decision (P a)}
    (l : list A) :
  filter P l = [] <-> forall x, x ∈ l -> ~ P x.
Proof.
  split.
  - intros Hnil x Hx HP. now apply (filter_nil_not_elem_of P l x).
  - intros Hall. induction l as [|x l IH]; [reflexivity|].
    rewrite filter_cons_False by (apply Hall; left).
    apply IH. intros y Hy. apply Hall. now right.
Qed.

(** C1, as the code has it.  For a key that no field's semantic equals, the
    candidates are the detected fields whose semantic contains the key,
    ignoring case. *)
Theorem fallback_semantic_contains_key
    (detected : list Field) (key : string) (f : Field)
    (Hno_exact : forall g, g ∈ detected -> semantic g <> key) :
  f ∈ matching_fields detected key <-> semantic_contains_key detected key f.
Proof.
  unfold matching_fields.
  replace (exact_matches detected key) with (@nil Field).
  - apply elem_of_partial_matches.
  - symmetry. now apply filter_nil_forall.
Qed.

Lemma fallback_semantic_contains_key_witness :
  Examples.field_departure ∈ matching_fields Examples.fields "depart" <->
  semantic_contains_key Examples.fields "depart" Examples.field_departure.
Proof.
  apply fallback_semantic_contains_key.
  intros g Hg. vm_compute in Hg.
  repeat (apply elem_of_cons in Hg as [-> | Hg]; [vm_compute; discriminate|]).
  inversion Hg.
Defined.

(** The fallback does not look for the semantic inside the key: the key
    "email_address" contains the semantic "email", no semantic equals it,
    and the email field is not a candidate. *)
Lemma fallback_not_in_both_directions :
  (forall g, g ∈ Examples.fields -> semantic g <> "email_address") /\
  ~ (forall f,
        f ∈ matching_fields Examples.fields "email_address" <->
        claimed_fallback Examples.fields "email_address" f).
Proof.
  split.
  - intros g Hg. vm_compute in Hg.
    repeat (apply elem_of_cons in Hg as [-> | Hg]; [vm_compute; discriminate|]).
    inversion Hg.
  - intros H. specialize (H Examples.field_email).
    assert (claimed_fallback Examples.fields "email_address" Examples.field_email)
      as Hclaimed.
    { split.
      - vm_compute. right. left.
      - right. apply contains_ci_spec. vm_compute. reflexivity. }
    apply H in Hclaimed. vm_compute in Hclaimed. inversion Hclaimed.
Qed.

(** ** Mapping confidence *)

Lemma semantic_bonus_spec (key : string) (f : Field) :
  SemanticBonus key f (semantic_bonus key f).
Proof.
  unfold SemanticBonus, semantic_bonus.
  destruct (String.eqb_spec (lower key) (lower (semantic f))) as [Heq|Hne].
  - left. now split.
  - destruct (contains (lower key) (lower (semantic f))) eqn:Hc.
    + right. left. split; [exact Hne | split; [|reflexivity]].
      now apply contains_spec.
    + right. right. split; [|reflexivity].
      intros H%contains_spec. congruence.
Qed.

Lemma context_text_signals (f : Field) :
  context_text f = lower (context_signals f).
Proof. reflexivity. Qed.

Lemma context_bonus_spec (key : string) (f : Field) :
  ContextBonus key f (context_bonus key f).
Proof.
  unfold ContextBonus, context_bonus. rewrite context_text_signals.
  destruct (contains (lower key) (lower (context_signals f))) eqn:Hc.
  - left. split; [now apply contains_spec | reflexivity].
  - right. split; [|reflexivity]. intros H%contains_spec. congruence.
Qed.

Lemma semantic_bonus_nonneg (key : string) (f : Field) :
  (0 <= semantic_bonus key f)%Q.
Proof.
  unfold semantic_bonus.
  destruct (String.eqb _ _); [discriminate|].
  destruct (contains _ _); discriminate.
Qed.

Lemma context_bonus_nonneg (key : string) (f : Field) :
  (0 <= context_bonus key f)%Q.
Proof. unfold context_bonus. destruct (contains _ _); discriminate. Qed.

Lemma base_score_nonneg (f : Field) : 0 <= score f -> (0 <= base_score f)%Q.
Proof.
  intros H. unfold base_score, Qle, Qdiv, Qmult, Qinv, inject_Z. simpl. lia.
Qed.

Lemma clamp_nonneg (x : Q) : (0 <= x)%Q -> (Qmin 1 x == clamp x 0 1)%Q.
Proof.
  intros Hx. unfold clamp. symmetry. apply Q.max_r.
  apply Q.min_glb; [discriminate | exact Hx].
Qed.

(** C2, as the code has it.  The confidence is the sum of score/100, the
    semantic bonus and the context bonus, clamped to [0,1].  The semantic
    bonus is 0.5 when key and semantic are equal ignoring case, else 0.3
    when the semantic contains the key ignoring case, else 0.  The context
    bonus is 0.2 when the key occurs, ignoring case, in label, nearby
    fragments and placeholder joined by spaces, else 0. *)
Theorem confidence_semantic_contains_key
    (key : string) (f : Field) (Hscore : 0 <= score f) :
  exists semanticBonus contextBonus,
    SemanticBonus key f semanticBonus /\
    ContextBonus key f contextBonus /\
    (calculate_mapping_confidence key f
     == clamp (base_score f + semanticBonus + contextBonus) 0 1)%Q.
Proof.
  exists (semantic_bonus key f), (context_bonus key f).
  split; [apply semantic_bonus_spec | split; [apply context_bonus_spec|]].
  unfold calculate_mapping_confidence. apply clamp_nonneg.
  pose proof (semantic_bonus_nonneg key f).
  pose proof (context_bonus_nonneg key f).
  pose proof (base_score_nonneg f Hscore).
  lra.
Qed.

Lemma confidence_semantic_contains_key_witness :
  exists semanticBonus contextBonus,
    SemanticBonus "depart" Examples.field_departure semanticBonus /\
    ContextBonus "depart" Examples.field_departure contextBonus /\
    (calculate_mapping_confidence "depart" Examples.field_departure
     == clamp (base_score Examples.field_departure + semanticBonus + contextBonus)
          0 1)%Q.
Proof.
  apply confidence_semantic_contains_key. vm_compute. discriminate.
Defined.

Example confidence_departure :
  calculate_mapping_confidence "depart" Examples.field_departure = 1%Q /\
  calculate_mapping_confidence "Email" Examples.field_email = 1%Q /\
  (calculate_mapping_confidence "email_address" Examples.field_email == 0.65)%Q.
Proof. vm_compute. repeat split. Qed.

(** The semantic bonus is not granted when only the key contains the
    semantic: for the key "email_address" and the email field of score 65
    the code gives 0.65 where the stated formula gives 0.95. *)
Lemma confidence_not_in_both_directions :
  ~ (calculate_mapping_confidence "email_address" Examples.field_email
     == claimed_confidence "email_address" Examples.field_email)%Q.
Proof. intros H. vm_compute in H. discriminate H. Qed.

(** The sum is capped at 1 and not raised to 0. *)
Example confidence_not_raised_to_zero :
  calculate_mapping_confidence "email" Examples.field_negative = (-100 # 100)%Q /\
  claimed_confidence "email" Examples.field_negative = 0%Q.
Proof. vm_compute. split; reflexivity. Qed.

(** Equality of key and semantic is tested ignoring case: the key "Email"
    earns 0.5 on the email field, where the stated formula gives 0.3. *)
Example semantic_bonus_ignores_case :
  semantic_bonus "Email" Examples.field_email = 0.5%Q /\
  claimed_semantic_bonus "Email" Examples.field_email = 0.3%Q.
Proof. vm_compute. split; reflexivity. Qed.

(** ** Binary64 numbers *)

Lemma pow2_pos (e : Z) : (0 < Binary64.pow2 e)%Q.
Proof. apply Qpower_0_lt. reflexivity. Qed.

Lemma pow2_add (e k : Z) :
  (Binary64.pow2 (e + k) == Binary64.pow2 e * Binary64.pow2 k)%Q.
Proof. apply Qpower_plus. discriminate. Qed.

Lemma pow2_le (e k : Z) : e <= k -> (Binary64.pow2 e <= Binary64.pow2 k)%Q.
Proof. intros H. apply Qpower_le_compat_l; [exact H | discriminate]. Qed.

Lemma pow2_nonneg (e : Z) : 0 <= e -> (Binary64.pow2 e == inject_Z (2 ^ e))%Q.
Proof. intros H. unfold Binary64.pow2. now rewrite Zpower_Qpower. Qed.

Lemma ilog2_upper (a : Q) :
  (0 < a)%Q -> (a < Binary64.pow2 (Binary64.ilog2 a + 1))%Q.
Proof.
  intros Ha. unfold Binary64.ilog2.
  set (k := Z.log2 (Qnum a) - Z.log2 (Z.pos (Qden a))).
  destruct (Qle_bool (Binary64.pow2 k) a) eqn:Hle.
  - destruct a as [n d]. cbn [Qnum Qden] in k.
    assert (0 < n) as Hn by (unfold Qlt in Ha; cbn in Ha; lia).
    pose proof (Z.log2_spec n Hn) as [_ Hupper].
    pose proof (Z.log2_spec (Z.pos d) ltac:(lia)) as [Hlower _].
    pose proof (Z.log2_nonneg n) as Hln.
    pose proof (Z.log2_nonneg (Z.pos d)) as Hld.
    replace (k + 1) with (Z.succ (Z.log2 n) + - Z.log2 (Z.pos d))
      by (unfold k; lia).
    rewrite pow2_add. unfold Binary64.pow2 at 2. rewrite Qpower_opp.
    fold (Binary64.pow2 (Z.log2 (Z.pos d))).
    rewrite !pow2_nonneg by lia.
    apply Qlt_shift_div_l.
    { rewrite <- (pow2_nonneg _ Hld). apply pow2_pos. }
    set (A := 2 ^ Z.succ (Z.log2 n)) in *.
    set (B := 2 ^ Z.log2 (Z.pos d)) in *.
    assert (0 < B) by (apply Z.pow_pos_nonneg; lia).
    unfold Qlt. cbn [Qnum Qden Qmult inject_Z]. rewrite Pos.mul_1_r. nia.
  - replace (k - 1 + 1) with k by lia.
    apply Qnot_le_lt. intros H%Qle_bool_iff. congruence.
Qed.

Lemma ilog2_lower (a : Q) :
  (0 < a)%Q -> (Binary64.pow2 (Binary64.ilog2 a) <= a)%Q.
Proof.
  intros Ha. unfold Binary64.ilog2.
  set (k := Z.log2 (Qnum a) - Z.log2 (Z.pos (Qden a))).
  destruct (Qle_bool (Binary64.pow2 k) a) eqn:Hle; [now apply Qle_bool_iff|].
  destruct a as [n d]. cbn [Qnum Qden] in k.
  assert (0 < n) as Hn by (unfold Qlt in Ha; cbn in Ha; lia).
  pose proof (Z.log2_spec n Hn) as [Hlower _].
  pose proof (Z.log2_spec (Z.pos d) ltac:(lia)) as [_ Hupper].
  pose proof (Z.log2_nonneg n) as Hln.
  pose proof (Z.log2_nonneg (Z.pos d)) as Hld.
  replace (k - 1) with (Z.log2 n + - Z.succ (Z.log2 (Z.pos d)))
    by (unfold k; lia).
  rewrite pow2_add. unfold Binary64.pow2 at 2. rewrite Qpower_opp.
  fold (Binary64.pow2 (Z.succ (Z.log2 (Z.pos d)))).
  rewrite !pow2_nonneg by lia.
  set (A := 2 ^ Z.log2 n) in *.
  set (B := 2 ^ Z.succ (Z.log2 (Z.pos d))) in *.
  assert (0 < A) by (apply Z.pow_pos_nonneg; lia).
  assert (0 < B) by lia.
  apply Qle_shift_div_r; [now rewrite <- (Zlt_Qlt 0)|].
  unfold Qle. cbn [Qnum Qden Qmult inject_Z]. rewrite Pos.mul_1_r. nia.
Qed.

Lemma nearest_even_le (x : Q) (N : Z) :
  (x <= inject_Z N)%Q -> Binary64.nearest_even x <= N.
Proof.
  intros Hx. unfold Binary64.nearest_even.
  pose proof (Qfloor_le x) as Hfloor.
  assert (Qfloor x <= N) as Hn.
  { rewrite <- (Qfloor_Z N). now apply Qfloor_resp_le. }
  destruct (Qcompare_spec (x - inject_Z (Qfloor x)) (1 # 2)) as [Heq|Hlt|Hgt];
    [|exact Hn|].
  - assert (Qfloor x <> N) by (intros HN; rewrite HN in Heq; lra).
    destruct (Z.even (Qfloor x)); lia.
  - assert (Qfloor x <> N) by (intros HN; rewrite HN in Hgt; lra).
    lia.
Qed.

Lemma nearest_even_nonneg (x : Q) : (0 <= x)%Q -> 0 <= Binary64.nearest_even x.
Proof.
  intros Hx. unfold Binary64.nearest_even.
  assert (0 <= Qfloor x) as Hn.
  { change 0 with (Qfloor 0). now apply Qfloor_resp_le. }
  destruct (_ ?= _)%Q; [destruct (Z.even _)| |]; lia.
Qed.

(** The significand has 53 bits at most. *)
Lemma significand_bound (a : Q) :
  (0 < a)%Q ->
  0 <= Binary64.nearest_even
         (a / Binary64.pow2 (Z.max (Binary64.ilog2 a - 52) (-1074)))
    <= 2 ^ 53.
Proof.
  intros Ha. set (e := Z.max (Binary64.ilog2 a - 52) (-1074)).
  pose proof (pow2_pos e) as He. split.
  - apply nearest_even_nonneg. apply Qlt_le_weak.
    apply Qlt_shift_div_l; [exact He|]. now rewrite Qmult_0_l.
  - apply nearest_even_le.
    apply Qle_shift_div_r; [exact He|].
    rewrite <- pow2_nonneg by lia. rewrite <- pow2_add.
    apply Qlt_le_weak. eapply Qlt_le_trans; [apply ilog2_upper, Ha|].
    apply pow2_le. unfold e. lia.
Qed.

(** [nearest_even] is within a half of its argument. *)
Lemma nearest_even_error (x : Q) :
  (Qabs (inject_Z (Binary64.nearest_even x) - x) <= 1 # 2)%Q.
Proof.
  unfold Binary64.nearest_even.
  pose proof (Qfloor_le x) as Hfloor.
  pose proof (Qlt_floor x) as Hceil. rewrite inject_Z_plus in Hceil.
  change (inject_Z 1) with 1%Q in Hceil.
  apply Qabs_Qle_condition.
  destruct (Qcompare_spec (x - inject_Z (Qfloor x)) (1 # 2)) as [Heq|Hlt|Hgt].
  - destruct (Z.even (Qfloor x)); rewrite ?inject_Z_plus;
      change (inject_Z 1) with 1%Q; split; lra.
  - split; lra.
  - rewrite inject_Z_plus. change (inject_Z 1) with 1%Q. split; lra.
Qed.

Lemma scaled_error (m : Z) (x unit : Q) :
  (0 < unit)%Q -> (Qabs (inject_Z m - x) <= 1 # 2)%Q ->
  (Qabs (inject_Z m * unit - x * unit) <= unit * (1 # 2))%Q.
Proof.
  intros Hunit Herror.
  assert (inject_Z m * unit - x * unit == (inject_Z m - x) * unit)%Q as ->
    by ring.
  rewrite Qabs_Qmult, (Qabs_pos unit) by now apply Qlt_le_weak.
  rewrite (Qmult_comm unit). apply Qmult_le_compat_r; [exact Herror|].
  now apply Qlt_le_weak.
Qed.

(** [round q] is a multiple of the weight of the last bit at the size of
    [q], and it is within half that weight of [q]: it is a nearest number
    of the grid. *)
Lemma round_nearest (q : Q) :
  let unit := Binary64.pow2 (Z.max (Binary64.ilog2 (Qabs q) - 52) (-1074)) in
  (exists m : Z,
      Z.abs m <= 2 ^ 53 /\ (Binary64.round q == inject_Z m * unit)%Q) /\
  (Qabs (Binary64.round q - q) <= unit * (1 # 2))%Q.
Proof.
  cbn zeta.
  pose proof (significand_bound (Qabs q)) as Hbits.
  set (unit := Binary64.pow2 _) in *.
  pose proof (pow2_pos (Z.max (Binary64.ilog2 (Qabs q) - 52) (-1074))) as Hunit.
  fold unit in Hunit.
  unfold Binary64.round. fold unit.
  set (m := Binary64.nearest_even (Qabs q / unit)).
  pose proof (nearest_even_error (Qabs q / unit)) as Herror. fold m in Herror.
  apply scaled_error with (unit := unit) in Herror; [|exact Hunit].
  assert (Qabs q / unit * unit == Qabs q)%Q as Hscale
    by (field; intros Hzero; rewrite Hzero in Hunit; discriminate Hunit).
  rewrite Hscale in Herror.
  destruct q as [[|n|n] d].
  - split; [exists 0; split; [lia | now rewrite Qmult_0_l]|].
    cbn [Qnum]. assert (0 - (0 # d) == 0)%Q as -> by reflexivity.
    cbn [Qabs Z.abs]. apply Qmult_le_0_compat; [now apply Qlt_le_weak | discriminate].
  - cbn [Qnum].
    replace (Qle_bool 0 (Z.pos n # d)) with true by reflexivity.
    specialize (Hbits eq_refl). fold m in Hbits.
    split.
    + exists m. split; [lia|]. rewrite Qred_correct. ring.
    + rewrite Qred_correct, Qmult_1_l.
      now change (Qabs (Z.pos n # d)) with (Z.pos n # d) in Herror.
  - cbn [Qnum].
    replace (Qle_bool 0 (Z.neg n # d)) with false by reflexivity.
    specialize (Hbits eq_refl). fold m in Hbits.
    split.
    + exists (- m). split; [lia|]. rewrite Qred_correct, inject_Z_opp. ring.
    + rewrite Qred_correct.
      change (Qabs (Z.neg n # d)) with (- (Z.neg n # d))%Q in Herror.
      rewrite <- Qabs_opp.
      assert (- (-1 * (inject_Z m * unit) - (Z.neg n # d))
              == inject_Z m * unit - - (Z.neg n # d))%Q as -> by ring.
      exact Herror.
Qed.

(** No binary64 number lies strictly between the number the literal [0.3]
    denotes and three tenths: a number above the first is at least a step
    of [2^-54] above it, or it is a quarter at most. *)
Lemma round_not_below_three_tenths (q : Q) :
  (Binary64.literal 0.3 < Binary64.round q)%Q -> (0.3 <= Binary64.round q)%Q.
Proof.
  change (Binary64.literal 0.3) with (5404319552844595 # 18014398509481984)%Q.
  unfold Binary64.round. destruct (Z.eq_dec (Qnum q) 0) as [Hzero|Hnonzero].
  { rewrite Hzero. discriminate. }
  set (a := Qabs q). set (e := Z.max (Binary64.ilog2 a - 52) (-1074)).
  set (m := Binary64.nearest_even (a / Binary64.pow2 e)).
  assert (0 < a)%Q as Ha.
  { unfold a. destruct q as [[|n|n] d]; [contradiction| |]; reflexivity. }
  pose proof (significand_bound a Ha) as [Hm Hbound]. fold e m in Hm, Hbound.
  pose proof (pow2_pos e) as He.
  assert (match Qnum q with
          | 0%Z => 0%Q
          | _ => Qred ((if Qle_bool 0 q then 1 else -1)
                       * (inject_Z m * Binary64.pow2 e))
          end == (if Qle_bool 0 q then 1 else -1)
                 * (inject_Z m * Binary64.pow2 e))%Q as ->.
  { destruct (Qnum q); [contradiction| |]; apply Qred_correct. }
  assert (0 <= inject_Z m * Binary64.pow2 e)%Q as Hvalue.
  { apply Qmult_le_0_compat; [|now apply Qlt_le_weak].
    now rewrite <- (Zle_Qle 0). }
  destruct (Qle_bool 0 q); [|intros Hlt; lra].
  rewrite Qmult_1_l.
  destruct (Z_le_gt_dec (-54) e) as [Hgrid|Hsmall].
  - replace e with ((e + 54) + -54) by lia.
    rewrite pow2_add, pow2_nonneg by lia.
    set (scale := 2 ^ (e + 54)).
    change (Binary64.pow2 (-54)) with (1 # 18014398509481984)%Q.
    rewrite Qmult_assoc, <- inject_Z_mult.
    assert (inject_Z (m * scale) * (1 # 18014398509481984)
            == m * scale # 18014398509481984)%Q as ->
      by (unfold Qeq; cbn; lia).
    unfold Qlt, Qle. cbn. lia.
  - intros Hlt. exfalso.
    assert (inject_Z m * Binary64.pow2 e
            <= inject_Z (2 ^ 53) * Binary64.pow2 (-55))%Q as Hquarter.
    { apply Qmult_le_compat_nonneg.
      - split; [now rewrite <- (Zle_Qle 0) | now rewrite <- Zle_Qle].
      - split; [now apply Qlt_le_weak | apply pow2_le; lia]. }
    change (inject_Z (2 ^ 53) * Binary64.pow2 (-55))%Q
      with (9007199254740992 # 36028797018963968)%Q in Hquarter.
    assert ((9007199254740992 # 36028797018963968)
            < (5404319552844595 # 18014398509481984))%Q by reflexivity.
    lra.
Qed.

(** Known values: one tenth, and the sum that is not three tenths. *)
Example round_tenth :
  Binary64.round 0.1 = (3602879701896397 # 36028797018963968)%Q /\
  (Binary64.literal 0.3 < Binary64.add (Binary64.literal 0.1) (Binary64.literal 0.2))%Q /\
  Binary64.round 9007199254740993 = 9007199254740992%Q.
Proof. vm_compute. repeat split. Qed.

Lemma on_scores_spec (check : Z -> Q -> Q -> bool) (first count : Z)
    (key : string) (f : Field) :
  on_scores check (seqZ first count) = true ->
  first <= score f < first + count ->
  check (score f) (semantic_bonus key f) (context_bonus key f) = true.
Proof.
  unfold on_scores. rewrite forallb_forall. intros Hall Hscore.
  assert (In (score f) (seqZ first count)) as Hin
    by (apply list_elem_of_In, elem_of_seqZ; lia).
  specialize (Hall _ Hin). cbn [forallb] in Hall.
  rewrite !andb_true_iff in Hall.
  destruct Hall as ((? & ? & _) & (? & ? & _) & (? & ? & _) & _).
  unfold semantic_bonus, context_bonus.
  destruct (String.eqb _ _); [|destruct (contains (lower key) (lower (semantic f)))];
    destruct (contains (lower key) (context_text f)); assumption.
Qed.

(** On the scores of the documented range the binary64 confidence and the
    exact one differ by [2^-52] at most. *)
Lemma confidence_binary64_close (key : string) (f : Field) :
  0 <= score f <= 100 ->
  (Qabs (calculate_mapping_confidence_binary64 key f
         - calculate_mapping_confidence key f) <= 1 # 4503599627370496)%Q.
Proof.
  intros Hscore. apply Qle_bool_iff.
  pose proof (on_scores_spec
                (fun score semantic_bonus context_bonus =>
                   Qle_bool
                     (Qabs (confidence_binary64 score semantic_bonus context_bonus
                            - Qmin 1 (inject_Z score / 100 + semantic_bonus
                                      + context_bonus)))
                     (1 # 4503599627370496)) 0 101 key f) as Hcheck.
  cbv beta in Hcheck. apply Hcheck; [vm_compute; reflexivity | lia].
Qed.

(** From a score of 50 on, the binary64 confidence is a half at least. *)
Lemma confidence_binary64_half (key : string) (f : Field) :
  50 <= score f <= 100 ->
  (1 # 2 <= calculate_mapping_confidence_binary64 key f)%Q.
Proof.
  intros Hscore. apply Qle_bool_iff.
  pose proof (on_scores_spec
                (fun score semantic_bonus context_bonus =>
                   Qle_bool (1 # 2)
                     (confidence_binary64 score semantic_bonus context_bonus))
                50 51 key f) as Hcheck.
  cbv beta in Hcheck. apply Hcheck; [vm_compute; reflexivity | lia].
Qed.

Lemma add_not_below_three_tenths (x y : Q) :
  (Binary64.literal 0.3 < Binary64.add x y)%Q -> (0.3 <= Binary64.add x y)%Q.
Proof. exact (round_not_below_three_tenths (x + y)). Qed.

Lemma literal_one : Binary64.literal 1 = 1%Q.
Proof. vm_compute. reflexivity. Qed.

Lemma literal_three_tenths : (Binary64.literal 0.3 < 1 # 2)%Q.
Proof. vm_compute. reflexivity. Qed.

Lemma capped_not_below (threshold sum : Q) :
  ((threshold < sum)%Q -> (0.3 <= sum)%Q) ->
  (threshold < Qmin 1 sum)%Q -> ~ (Qmin 1 sum < 0.3)%Q.
Proof.
  intros Hgrid.
  destruct (Q.min_spec 1 sum) as [[_ Hmin]|[_ Hmin]];
    generalize dependent (Qmin 1 sum); intros capped Hmin Habove Hbelow.
  - lra.
  - assert (threshold < sum)%Q as Hsum by lra.
    specialize (Hgrid Hsum). lra.
Qed.

(** A confidence above the threshold of the code is not below three
    tenths. *)
Lemma confidence_binary64_threshold (key : string) (f : Field) :
  (Binary64.literal 0.3 < calculate_mapping_confidence_binary64 key f)%Q ->
  ~ (calculate_mapping_confidence_binary64 key f < 0.3)%Q.
Proof.
  unfold calculate_mapping_confidence_binary64, confidence_binary64.
  rewrite literal_one.
  apply capped_not_below, add_not_below_three_tenths.
Qed.

(** ** Suggestions for one key *)

Lemma Qgt_bool_spec (x y : Q) : Qgt_bool x y = true <-> (y < x)%Q.
Proof.
  unfold Qgt_bool. rewrite negb_true_iff. split.
  - intros Hgt. apply Qnot_le_lt. intros Hle%Qle_bool_iff. congruence.
  - intros Hlt. destruct (Qle_bool x y) eqn:Hle; [|reflexivity].
    apply Qle_bool_iff in Hle. now apply Qlt_not_le in Hlt.
Qed.

(** The comprehension of [get_field_suggestions], for any confidence and
    threshold. *)
Section Threshold.
Variable confidence_of : Field -> Q.
Variable threshold : Q.

Lemma elem_of_above_threshold (fields : list Field) (s : Suggestion) :
  s ∈ omap (fun field =>
              let confidence := confidence_of field in
              if Qgt_bool confidence threshold
              then Some {| sg_field := field; sg_confidence := confidence |}
              else None) fields ->
  sg_field s ∈ fields /\
  sg_confidence s = confidence_of (sg_field s) /\
  (threshold < sg_confidence s)%Q.
Proof.
  intros (f & Hf & Hs)%list_elem_of_omap. cbn beta zeta in Hs.
  destruct (Qgt_bool (confidence_of f) threshold) eqn:Hgt; [|discriminate].
  injection Hs as <-. cbn [sg_field sg_confidence].
  split; [exact Hf | split; [reflexivity|]]. now apply Qgt_bool_spec.
Qed.

Lemma above_threshold_ranked (fields : list Field) :
  ranked fields ->
  StronglySorted (fun a b => score (sg_field b) <= score (sg_field a))
    (omap (fun field =>
             let confidence := confidence_of field in
             if Qgt_bool confidence threshold
             then Some {| sg_field := field; sg_confidence := confidence |}
             else None) fields).
Proof.
  unfold ranked.
  induction 1 as [|f fields Hsorted IH Hf]; [constructor|].
  cbn -[Qgt_bool].
  destruct (Qgt_bool (confidence_of f) threshold); [|exact IH].
  constructor; [exact IH|].
  apply Forall_forall. intros s Hs.
  apply elem_of_above_threshold in Hs as [Hin _].
  rewrite Forall_forall in Hf. cbn [sg_field]. now apply Hf.
Qed.

Lemma above_threshold_all (fields : list Field) :
  Forall (fun f => (threshold < confidence_of f)%Q) fields ->
  map sg_field
    (omap (fun field =>
             let confidence := confidence_of field in
             if Qgt_bool confidence threshold
             then Some {| sg_field := field; sg_confidence := confidence |}
             else None) fields)
  = fields.
Proof.
  induction 1 as [|f fields Hf _ IH]; [reflexivity|].
  cbn -[Qgt_bool]. rewrite (proj2 (Qgt_bool_spec _ _) Hf).
  cbn [map sg_field]. f_equal. exact IH.
Qed.

End Threshold.

Lemma elem_of_collect_suggestions (fields : list Field) (key : string)
    (s : Suggestion) :
  s ∈ collect_suggestions fields key ->
  sg_field s ∈ fields /\
  sg_confidence s = calculate_mapping_confidence_binary64 key (sg_field s) /\
  (Binary64.literal 0.3 < sg_confidence s)%Q.
Proof. unfold collect_suggestions. apply elem_of_above_threshold. Qed.

Lemma collect_suggestions_ranked (fields : list Field) (key : string) :
  ranked fields ->
  StronglySorted (fun a b => score (sg_field b) <= score (sg_field a))
                 (collect_suggestions fields key).
Proof. unfold collect_suggestions. apply above_threshold_ranked. Qed.

Lemma Qle_bool_total (x y : Q) : Qle_bool x y = false -> Qle_bool y x = true.
Proof.
  intros H. apply Qle_bool_iff. apply Qlt_le_weak, Qnot_le_lt.
  intros Hle%Qle_bool_iff. congruence.
Qed.

Lemma Qle_bool_trans (x y z : Q) :
  Qle_bool x y = true -> Qle_bool y z = true -> Qle_bool x z = true.
Proof. rewrite !Qle_bool_iff. apply Qle_trans. Qed.

Lemma sort_by_confidence_perm (l : list Suggestion) :
  Permutation (sort_by_confidence l) l.
Proof. apply stable_sort_perm. Qed.

Lemma sort_by_confidence_ranks (l : list Suggestion) :
  StronglySorted (fun a b => score (sg_field b) <= score (sg_field a)) l ->
  StronglySorted ranks_before (sort_by_confidence l).
Proof.
  intros Hl. unfold sort_by_confidence.
  eapply StronglySorted_weaken; [|apply stable_sort_sorted_then; [| |exact Hl]].
  - intros a b [Hab Hties]. cbn beta in Hab, Hties.
    apply Qle_bool_iff in Hab. unfold ranks_before.
    destruct (Qlt_le_dec (sg_confidence b) (sg_confidence a)) as [Hlt|Hle];
      [now left | right].
    split; [now apply Qle_antisym|].
    apply Hties. now apply Qle_bool_iff.
  - intros x y. apply Qle_bool_total.
  - intros x y z Hxy Hyz. cbn beta in *. now apply Qle_bool_trans with (sg_confidence y).
Qed.

Lemma StronglySorted_take {A : Type} (R : A -> A -> Prop) (n : nat) (l : list A) :
  StronglySorted R l -> StronglySorted R (take n l).
Proof.
  intros Hl. revert n. induction Hl as [|x l Hl IH Hx]; intros [|n]; cbn [take];
    try constructor.
  - apply IH.
  - apply Forall_forall. intros y Hy. rewrite Forall_forall in Hx.
    apply Hx. now apply (subseteq_take n l).
Qed.

Lemma suggestions_for_spec (fields : list Field) (key : string) :
  ranked fields ->
  (length (suggestions_for fields key) <= 3)%nat /\
  StronglySorted ranks_before (suggestions_for fields key) /\
  forall s, s ∈ suggestions_for fields key ->
    sg_field s ∈ fields /\
    sg_confidence s = calculate_mapping_confidence_binary64 key (sg_field s) /\
    (Binary64.literal 0.3 < sg_confidence s)%Q.
Proof.
  intros Hranked. unfold suggestions_for. split; [|split].
  - rewrite length_take. lia.
  - apply StronglySorted_take, sort_by_confidence_ranks.
    now apply collect_suggestions_ranked.
  - intros s Hs. apply (subseteq_take 3) in Hs.
    rewrite sort_by_confidence_perm in Hs.
    now apply elem_of_collect_suggestions.
Qed.

Lemma detectAllFields_ranked (document : Document) (now : nat -> Z) :
  ranked (detectAllFields document now).
Proof. apply rankFields_sorted. Qed.

(** ** The methods that drive the page *)

Section PageFacts.
Context {P : Type}.
Variable detection : P -> result (Document * (nat -> Z)) * P.
Variable evaluate_fill : Field -> string -> P -> result bool * P.

(** Detection never raises; it leaves the field list as it was or replaces
    it by the outcome of a detection pass. *)
Lemma detect_and_highlight_fields_returns (w : World) :
  exists fields w',
    detect_and_highlight_fields detection w = (Ok fields, w') /\
    (detected_fields w' = detected_fields w \/
     exists document now, detected_fields w' = detectAllFields document now).
Proof.
  unfold detect_and_highlight_fields, try_except, bind, on_page,
    set_detected_fields, ret.
  destruct (detection (page w)) as [[[document now]|e] p]; cbn.
  - eexists _, _. split; [reflexivity|]. right. now exists document, now.
  - eexists _, _. split; [reflexivity|]. now left.
Qed.

Lemma ensure_detected_returns (w : World) :
  exists w',
    ensure_detected detection w = (Ok tt, w') /\
    (ranked (detected_fields w) -> ranked (detected_fields w')).
Proof.
  unfold ensure_detected, bind, get_detected_fields.
  destruct (detected_fields w) as [|f fields] eqn:Hfields.
  - destruct (detect_and_highlight_fields_returns w)
      as (fs & w' & Hrun & Hfs). rewrite Hrun. cbn.
    exists w'. split; [reflexivity|]. intros _.
    destruct Hfs as [-> | (document & now & ->)].
    + rewrite Hfields. constructor.
    + apply detectAllFields_ranked.
  - exists w. split; [reflexivity|]. now rewrite Hfields.
Qed.

Lemma suggest_each_returns (items : list (string * string))
    (acc : gmap string (list Suggestion)) (w : @World P) :
  exists suggestions,
    suggest_each items acc w = (Ok suggestions, w) /\
    forall key,
      (key ∈ items.*1 ->
       suggestions !! key = Some (suggestions_for (detected_fields w) key)) /\
      (key ∉ items.*1 -> suggestions !! key = acc !! key).
Proof.
  revert acc. induction items as [|[k v] rest IH]; intros acc.
  - exists acc. split; [reflexivity|]. intros key. split; [|reflexivity].
    intros H. inversion H.
  - cbn [suggest_each]. unfold bind, get_detected_fields.
    destruct (IH (<[k := suggestions_for (detected_fields w) k]> acc))
      as (m & Hrun & Hm).
    exists m. split; [exact Hrun|]. intros key. cbn [fmap list_fmap fst].
    destruct (decide (key ∈ rest.*1)) as [Hin|Hnotin].
    + split; [intros _; now apply Hm | intros Hno; contradict Hno; now right].
    + destruct (Hm key) as [_ Hrest]. rewrite (Hrest Hnotin). split.
      * intros [->|Hin]%elem_of_cons; [apply lookup_insert_eq | contradiction].
      * intros Hno. apply lookup_insert_ne. intros ->. apply Hno. left.
Qed.

(** C3. For every key of the data passed to [get_field_suggestions], the
    list returned for the key has at most three suggestions; it is ordered
    by decreasing confidence, suggestions of equal confidence by decreasing
    score; and every suggestion in it has a confidence above the threshold
    of the code, so none is below 0.3.  The confidence is the binary64
    number that the code computes and compares.  The field list is ranked,
    as every detection pass leaves it. *)
Theorem suggestions_at_most_three_sorted
    (user_data : list (string * string)) (w : World)
    (Hranked : ranked (detected_fields w)) :
  exists suggestions w',
    get_field_suggestions detection user_data w = (Ok suggestions, w') /\
    forall key, key ∈ user_data.*1 ->
      exists for_key,
        suggestions !! key = Some for_key /\
        (length for_key <= 3)%nat /\
        StronglySorted ranks_before for_key /\
        forall s, s ∈ for_key ->
          sg_field s ∈ detected_fields w' /\
          sg_confidence s
          = calculate_mapping_confidence_binary64 key (sg_field s) /\
          (Binary64.literal 0.3 < sg_confidence s)%Q /\
          ~ (sg_confidence s < 0.3)%Q.
Proof.
  unfold get_field_suggestions, bind.
  destruct (ensure_detected_returns w) as (w1 & Hrun & Hranked1).
  rewrite Hrun.
  destruct (suggest_each_returns user_data ∅ w1) as (m & Heach & Hm).
  exists m, w1. split; [exact Heach|]. intros key Hkey.
  exists (suggestions_for (detected_fields w1) key).
  split; [now apply Hm|].
  destruct (suggestions_for_spec (detected_fields w1) key (Hranked1 Hranked))
    as (Hlen & Hsorted & Helem).
  split; [exact Hlen | split; [exact Hsorted|]].
  intros s Hs. destruct (Helem s Hs) as (Hin & Hconf & Hgt).
  split; [exact Hin | split; [exact Hconf | split; [exact Hgt|]]].
  rewrite Hconf in Hgt |- *. now apply confidence_binary64_threshold.
Qed.

(** Filling one key never raises and leaves the field list alone; with no
    candidate it answers [false] without touching the page. *)
Lemma fill_field_by_semantic_type_returns (key value : string) (w : World) :
  exists success w',
    fill_field_by_semantic_type evaluate_fill key value w = (Ok success, w') /\
    detected_fields w' = detected_fields w /\
    (matching_fields (detected_fields w) key = [] -> success = false /\ w' = w).
Proof.
  unfold fill_field_by_semantic_type, bind, get_detected_fields, best_field.
  destruct (matching_fields (detected_fields w) key) as [|m ms] eqn:Hmatch.
  - exists false, w. cbn. repeat split.
  - cbn [py_max]. unfold try_except, bind, on_page, ret.
    destruct (evaluate_fill (max_from score m ms) value (page w)) as [[b|e] p];
      cbn; eexists _, _; (split; [reflexivity | split; [reflexivity | discriminate]]).
Qed.

Lemma fill_each_returns (items : list (string * string))
    (acc : gmap string bool) (w : World) :
  exists results w',
    fill_each evaluate_fill items acc w = (Ok results, w') /\
    detected_fields w' = detected_fields w /\
    dom results = dom acc ∪ list_to_set items.*1 /\
    forall key,
      (key ∈ items.*1 -> matching_fields (detected_fields w) key = [] ->
       results !! key = Some false) /\
      (key ∉ items.*1 -> results !! key = acc !! key).
Proof.
  revert acc w. induction items as [|[k v] rest IH]; intros acc w.
  - exists acc, w. split; [reflexivity | split; [reflexivity | split]].
    + cbn [fmap list_fmap list_to_set]. now rewrite (right_id_L ∅ (∪)).
    + intros key. split; [intros H; inversion H | reflexivity].
  - cbn [fill_each]. unfold bind at 1.
    destruct (fill_field_by_semantic_type_returns k v w)
      as (b & w1 & Hfill & Hfields1 & Hnone).
    rewrite Hfill.
    destruct (IH (<[k := b]> acc) w1) as (m & w2 & Hrun & Hfields2 & Hdom & Hm).
    exists m, w2. split; [exact Hrun | split; [congruence | split]].
    + rewrite Hdom, dom_insert_L. cbn [fmap list_fmap fst list_to_set].
      apply set_eq. intros x. rewrite !elem_of_union. tauto.
    + intros key. cbn [fmap list_fmap fst].
      destruct (decide (key ∈ rest.*1)) as [Hin|Hnotin].
      * split; [|intros Hno; contradict Hno; now right].
        intros _ Hmatch. apply Hm; [exact Hin | now rewrite Hfields1].
      * destruct (Hm key) as [_ Hrest]. rewrite (Hrest Hnotin). split.
        -- intros [->|Hin]%elem_of_cons; [|contradiction].
           intros Hmatch. destruct (Hnone Hmatch) as [-> _].
           apply lookup_insert_eq.
        -- intros Hno. apply lookup_insert_ne. intros ->. apply Hno. left.
Qed.

(** C5. [smart_field_fill] returns for every data mapping: no exception
    reaches the caller.  The result has exactly the keys of the input, each
    with a boolean, and a key for which no detected field matches, exactly
    or by the fallback, is recorded as [false]. *)
Theorem smart_field_fill_never_raises
    (field_data : list (string * string)) (w : World) :
  exists results w',
    smart_field_fill detection evaluate_fill field_data w = (Ok results, w') /\
    dom results = list_to_set field_data.*1 /\
    forall key, key ∈ field_data.*1 ->
      (exists success, results !! key = Some success) /\
      (matching_fields (detected_fields w') key = [] ->
       results !! key = Some false).
Proof.
  unfold smart_field_fill, bind.
  destruct (ensure_detected_returns w) as (w1 & Hrun & _). rewrite Hrun.
  destruct (fill_each_returns field_data ∅ w1)
    as (m & w2 & Heach & Hfields & Hdom & Hm).
  exists m, w2. split; [exact Heach | split].
  - rewrite Hdom, dom_empty_L. now rewrite (left_id_L ∅ (∪)).
  - intros key Hkey. split.
    + apply elem_of_dom. rewrite Hdom. apply elem_of_union. right.
      now apply elem_of_list_to_set.
    + intros Hmatch. apply Hm; [exact Hkey | now rewrite <- Hfields].
Qed.

End PageFacts.

Lemma suggestions_at_most_three_sorted_witness :
  exists suggestions w',
    get_field_suggestions Examples.detection_ok [("email", "a@b.example")]
      Examples.fresh
    = (Ok suggestions, w') /\
    forall key, key ∈ [("email", "a@b.example")].*1 ->
      exists for_key,
        suggestions !! key = Some for_key /\
        (length for_key <= 3)%nat /\
        StronglySorted ranks_before for_key /\
        forall s, s ∈ for_key ->
          sg_field s ∈ detected_fields w' /\
          sg_confidence s
          = calculate_mapping_confidence_binary64 key (sg_field s) /\
          (Binary64.literal 0.3 < sg_confidence s)%Q /\
          ~ (sg_confidence s < 0.3)%Q.
Proof.
  apply suggestions_at_most_three_sorted. vm_compute. constructor.
Defined.

(** ** Sample runs of the Python methods *)

Example suggestions_email :
  map (fun s => (semantic (sg_field s), Qred (sg_confidence s)))
      (suggestions_for Examples.fields "email")
  = [("departure", 1%Q); ("email", 1%Q); ("unknown", (1 # 2)%Q)].
Proof. vm_compute. reflexivity. Qed.

Example fill_departure_and_unmatched :
  match smart_field_fill Examples.detection_ok Examples.evaluate_fill_by_id
          [("departure", "LAX"); ("foo", "x"); ("email", "a@b.example")]
          Examples.fresh with
  | (Ok results, w) =>
      (results !! "departure", results !! "foo", results !! "email", page w)
      = (Some true, Some false, Some false, 3%nat)
  | (Raise _, _) => False
  end.
Proof. vm_compute. reflexivity. Qed.

Example fill_without_detection :
  match smart_field_fill Examples.detection_blocked Examples.evaluate_fill_by_id
          [("departure", "LAX")] Examples.fresh with
  | (Ok results, w) => results !! "departure" = Some false
  | (Raise _, _) => False
  end.
Proof. vm_compute. reflexivity. Qed.

(** ** The task bridge *)

Import Bridge BridgeProps.

Lemma mentions_bot_detection_spec (e : exn) :
  mentions_bot_detection e = true <-> MentionsBotDetection e.
Proof.
  unfold mentions_bot_detection, MentionsBotDetection, SubstringCI.
  cbn [existsb bot_keywords]. rewrite !orb_true_iff, !contains_spec. split.
  - intros [H|[H|[H|[H|[H|H]]]]];
      [exists "captcha" | exists "bot" | exists "verification"
      | exists "challenge" | exists "blocked" | discriminate];
      (split; [|exact H]); repeat ((left; fail) || right); left.
  - intros (keyword & Hin & H).
    apply elem_of_cons in Hin as [->|Hin]; [left; exact H|].
    apply elem_of_cons in Hin as [->|Hin]; [right; left; exact H|].
    apply elem_of_cons in Hin as [->|Hin]; [do 2 right; left; exact H|].
    apply elem_of_cons in Hin as [->|Hin]; [do 3 right; left; exact H|].
    apply elem_of_cons in Hin as [->|Hin]; [do 4 right; left; exact H|].
    inversion Hin.
Qed.

Lemma timeout_message_mentions_bot (e : exn) (seconds : Z) :
  str e = timeout_message seconds -> mentions_bot_detection e = true.
Proof.
  intros He. apply mentions_bot_detection_spec.
  exists "bot". split; [right; left|].
  unfold SubstringCI. rewrite He. unfold timeout_message.
  rewrite !lower_app. apply Substring_app_r, Substring_app_r.
  apply contains_spec. vm_compute. reflexivity.
Qed.

Lemma bot_detection_message_longer (e : exn) : bot_detection_message e <> str e.
Proof.
  intros H. apply (f_equal String.length) in H.
  unfold bot_detection_message in H. rewrite length_app in H.
  cbn [String.length] in H. lia.
Qed.

(** A response that carries a message and no data is always written. *)
Lemma send_response_message (timestamp type : string) (message : option string) :
  send_response timestamp type message None
  = [response timestamp type message None].
Proof. reflexivity. Qed.

Lemma send_response_length (timestamp type : string) (message : option string)
    (data : option Processed) :
  (length (send_response timestamp type message data) <= 1)%nat.
Proof.
  unfold send_response. destruct (encodable_response _); cbn; lia.
Qed.

Lemma send_response_type (timestamp type : string) (message : option string)
    (data : option Processed) (line : Response) :
  line ∈ send_response timestamp type message data -> r_type line = type.
Proof.
  unfold send_response. destruct (encodable_response _); intros Hin.
  - apply list_elem_of_singleton in Hin as ->. reflexivity.
  - inversion Hin.
Qed.

(** ** Awaiting the run under a deadline *)

Lemma Qle_bool_false_lt (x y : Q) : Qle_bool x y = false <-> (y < x)%Q.
Proof.
  split.
  - intros H. apply Qnot_le_lt. intros Hle%Qle_bool_iff. congruence.
  - intros H. destruct (Qle_bool x y) eqn:Hle; [|reflexivity].
    apply Qle_bool_iff in Hle. now apply Qlt_not_le in H.
Qed.

Lemma wait_for_deadline (run : Run) (timeout : Z) :
  DeadlineElapses run timeout -> StopsWhenCancelled run ->
  wait_for run timeout = Some (Raise (TimeoutError EmptyString)).
Proof.
  destruct run as [seconds outcome| |alone caught]; [|reflexivity|contradiction].
  cbn [DeadlineElapses wait_for]. intros Hlt _.
  apply Qlt_le_weak, Qle_bool_iff in Hlt. now rewrite Hlt.
Qed.

Lemma wait_for_delivers (run : Run) (timeout : Z) (r : AgentResult) :
  wait_for run timeout = Some (Ok r) <-> Delivers run timeout r.
Proof.
  destruct run as [seconds outcome| |[[seconds outcome]|] caught];
    cbn [wait_for Delivers].
  - destruct (Qle_bool (inject_Z timeout) seconds) eqn:Hle.
    + split; [discriminate|]. intros [Hlt _].
      apply Qle_bool_iff in Hle. now apply Qlt_not_le in Hlt.
    + apply Qle_bool_false_lt in Hle. split.
      * intros [= ->]. now split.
      * now intros [_ ->].
  - split; [discriminate | contradiction].
  - destruct (Qle_bool (inject_Z timeout) seconds) eqn:Hle.
    + apply Qle_bool_iff in Hle. split.
      * intros ->. right. now split.
      * intros [[Hlt _]|[_ ->]]; [now apply Qlt_not_le in Hlt | reflexivity].
    + apply Qle_bool_false_lt in Hle. split.
      * intros [= ->]. left. now split.
      * intros [[_ ->]|[Hge _]]; [reflexivity | now apply Qlt_not_le in Hle].
  - reflexivity.
Qed.

Lemma wait_for_throws (run : Run) (timeout : Z) (e : exn) :
  Throws run timeout e -> wait_for run timeout = Some (Raise e).
Proof.
  destruct run as [seconds outcome| |[[seconds outcome]|] caught];
    cbn [wait_for Throws].
  - intros [Hlt ->]. apply Qle_bool_false_lt in Hlt. now rewrite Hlt.
  - contradiction.
  - intros [[Hlt ->]|[Hge ->]].
    + apply Qle_bool_false_lt in Hlt. now rewrite Hlt.
    + apply Qle_bool_iff in Hge. now rewrite Hge.
  - now intros ->.
Qed.

Lemma wait_for_never (run : Run) (timeout : Z) :
  wait_for run timeout = None <-> NeverEnds run timeout.
Proof.
  destruct run as [seconds outcome| |[[seconds outcome]|] caught];
    cbn [wait_for NeverEnds].
  - destruct (Qle_bool _ _); split; (discriminate || contradiction).
  - split; (discriminate || contradiction).
  - destruct (Qle_bool (inject_Z timeout) seconds) eqn:Hle.
    + apply Qle_bool_iff in Hle. split; [now intros -> | now intros [_ ->]].
    + apply Qle_bool_false_lt in Hle. split; [discriminate|].
      intros [Hge _]. now apply Qlt_not_le in Hle.
  - reflexivity.
Qed.

Section BridgeFacts.
Variable timestamp : string.
Variable create_agent : string -> Z -> option exn.
Variable agent_run : string -> Run.

Lemma report_fault_message (e : exn) :
  report_fault timestamp e
  = [response timestamp "error"
       (Some (if mentions_bot_detection e then bot_detection_message e else str e))
       None].
Proof. unfold report_fault. now destruct (mentions_bot_detection e). Qed.

Lemma timeout_report_not_fault_report (seconds : Z) (e : exn) :
  [response timestamp "error" (Some (timeout_message seconds)) None]
  <> report_fault timestamp e.
Proof.
  rewrite report_fault_message. intros [= H].
  destruct (mentions_bot_detection e) eqn:Hbot.
  - unfold timeout_message, bot_detection_message in H. discriminate H.
  - symmetry in H. apply timeout_message_mentions_bot in H. congruence.
Qed.

(** The answer of [execute_task], case by case. *)
Lemma execute_task_given
    (create : string -> Z -> option exn) (run : string -> Run)
    (task_data : TaskData) :
  TaskGiven task_data ->
  execute_task timestamp create run task_data
  = match create (enhanced task_data) (deadline task_data) with
    | Some e => Returns (report_fault timestamp e)
    | None =>
        match wait_for (run (enhanced task_data)) (deadline task_data) with
        | None => Never []
        | Some (Ok r) =>
            Returns (send_response timestamp "success" None
                       (Some (process_result r)))
        | Some (Raise (TimeoutError _)) =>
            Returns [response timestamp "error"
                       (Some (timeout_message (deadline task_data))) None]
        | Some (Raise (Exception msg)) =>
            Returns (report_fault timestamp (Exception msg))
        end
    end.
Proof.
  intros (task & Htask & Hgiven).
  unfold execute_task, attempt, enhanced, deadline. rewrite Htask.
  change (default EmptyString (Some task)) with task.
  assert (negb (nonempty task) = false) as ->
    by (destruct task; [now contradict Hgiven | reflexivity]).
  destruct (create _ _); [reflexivity|].
  unfold run_with_deadline. destruct (wait_for _ _) as [[r|[msg|msg]]|]; reflexivity.
Qed.

Lemma execute_task_not_given
    (create : string -> Z -> option exn) (run : string -> Run)
    (task_data : TaskData) :
  ~ TaskGiven task_data ->
  execute_task timestamp create run task_data
  = Returns [response timestamp "error" (Some "Task description is required")
               None].
Proof.
  intros Hnot. unfold execute_task, attempt.
  assert (negb (nonempty (default EmptyString (td_task task_data))) = true) as ->.
  { destruct (td_task task_data) as [[|c task]|] eqn:Htask; try reflexivity.
    contradict Hnot. exists (String c task). now split. }
  reflexivity.
Qed.

Lemma TaskGiven_dec (task_data : TaskData) :
  TaskGiven task_data \/ ~ TaskGiven task_data.
Proof.
  unfold TaskGiven. destruct (td_task task_data) as [[|c task]|].
  - right. intros (t & [= <-] & Hne). now apply Hne.
  - left. now exists (String c task).
  - right. intros (t & [=] & _).
Qed.

(** C8. When the task is given, the agent is made, the deadline elapses
    before its run completes, and the run stops when it is cancelled, the
    response is the timeout report, whatever the run would have ended with.
    That report differs from every report of the fault handler,
    bot-detection or generic, and from every success report. *)
Theorem deadline_reported_as_timeout
    (task_data : TaskData)
    (Hgiven : TaskGiven task_data)
    (Hcreated : create_agent (enhanced task_data) (deadline task_data) = None)
    (Hdeadline :
       DeadlineElapses (agent_run (enhanced task_data)) (deadline task_data))
    (Hstops : StopsWhenCancelled (agent_run (enhanced task_data))) :
  execute_task timestamp create_agent agent_run task_data
  = Returns [response timestamp "error"
               (Some (timeout_message (deadline task_data))) None] /\
  (forall e, execute_task timestamp create_agent agent_run task_data
             <> Returns (report_fault timestamp e)) /\
  (forall r, execute_task timestamp create_agent agent_run task_data
             <> Returns (send_response timestamp "success" None (Some r))).
Proof.
  rewrite (execute_task_given _ _ _ Hgiven), Hcreated.
  rewrite (wait_for_deadline _ _ Hdeadline Hstops).
  split; [reflexivity | split].
  - intros e [= H]. now apply timeout_report_not_fault_report in H.
  - intros r. unfold send_response.
    destruct (encodable_response _); discriminate.
Qed.

(** C9. A fault thrown during the attempt, other than the deadline that
    elapses and other than a [TimeoutError] which the run throws, is
    reported in one response of type "error" without data.  When its message
    contains a word of the bot-detection vocabulary, ignoring case, the
    reported message is the fault's message behind
    "Bot detection encountered: ", otherwise it is the fault's message; the
    two differ. *)
Theorem fault_reported_with_cause
    (task_data : TaskData) (e : exn)
    (Hthrown : Thrown create_agent agent_run task_data e)
    (Hclass : ~ OwnTimeout create_agent agent_run task_data e) :
  exists cause,
    execute_task timestamp create_agent agent_run task_data
    = Returns [response timestamp "error" (Some cause) None] /\
    (MentionsBotDetection e ->
     cause = "Bot detection encountered: " +:+ str e) /\
    (~ MentionsBotDetection e -> cause = str e) /\
    "Bot detection encountered: " +:+ str e <> str e.
Proof.
  assert (forall cause,
             cause = (if mentions_bot_detection e
                      then bot_detection_message e else str e) ->
             (MentionsBotDetection e ->
              cause = "Bot detection encountered: " +:+ str e) /\
             (~ MentionsBotDetection e -> cause = str e) /\
             "Bot detection encountered: " +:+ str e <> str e) as Hcause.
  { intros cause ->. split; [|split].
    - intros H%mentions_bot_detection_spec. now rewrite H.
    - intros H. destruct (mentions_bot_detection e) eqn:Hbot; [|reflexivity].
      contradict H. now apply mentions_bot_detection_spec.
    - apply bot_detection_message_longer. }
  eexists. split; [|apply Hcause; reflexivity].
  destruct Hthrown as [[Hmissing ->]|[[Hgiven Hraises]|(Hgiven & Hcreated & Hrun)]].
  - now rewrite execute_task_not_given.
  - now rewrite (execute_task_given _ _ _ Hgiven), Hraises, report_fault_message.
  - rewrite (execute_task_given _ _ _ Hgiven), Hcreated.
    rewrite (wait_for_throws _ _ _ Hrun).
    destruct e as [msg|msg].
    + contradict Hclass. split; [exact Hgiven | split; [exact Hcreated|]].
      split; [exact Hrun | now exists msg].
    + now rewrite report_fault_message.
Qed.

End BridgeFacts.

(** A run that catches the cancellation and then meets a CAPTCHA: the
    deadline of 30 seconds elapses, and the report is the bot-detection
    report of the fault handler, not the timeout report. *)
Lemma deadline_not_always_timeout :
  DeadlineElapses (Examples.run_cancelled_captcha (enhanced Examples.search_task))
                  (deadline Examples.search_task) /\
  execute_task "t" Examples.create_ok Examples.run_cancelled_captcha
    Examples.search_task
  = Returns [response "t" "error"
               (Some "Bot detection encountered: CAPTCHA challenge detected")
               None] /\
  execute_task "t" Examples.create_ok Examples.run_cancelled_captcha
    Examples.search_task
  <> Returns [response "t" "error"
                (Some (timeout_message (deadline Examples.search_task))) None].
Proof.
  split; [exact I | split; [vm_compute; reflexivity|]].
  vm_compute. discriminate.
Qed.

Lemma deadline_reported_as_timeout_witness :
  execute_task "2025-07-30T12:00:00" Examples.create_ok Examples.run_slow_captcha
    Examples.search_task
  = Returns [response "2025-07-30T12:00:00" "error"
               (Some (timeout_message (deadline Examples.search_task))) None] /\
  (forall e, execute_task "2025-07-30T12:00:00" Examples.create_ok
               Examples.run_slow_captcha Examples.search_task
             <> Returns (report_fault "2025-07-30T12:00:00" e)) /\
  (forall r, execute_task "2025-07-30T12:00:00" Examples.create_ok
               Examples.run_slow_captcha Examples.search_task
             <> Returns (send_response "2025-07-30T12:00:00" "success" None
                           (Some r))).
Proof.
  apply (deadline_reported_as_timeout "2025-07-30T12:00:00" Examples.create_ok
           Examples.run_slow_captcha Examples.search_task).
  - exists "Find flights from LAX to JFK". split; [reflexivity | discriminate].
  - reflexivity.
  - vm_compute. reflexivity.
  - exact I.
Defined.

(** Two faults that are not reported with their cause.  A [TimeoutError]
    that the run raises after one second, well before the deadline of 30
    seconds, and whose message names a captcha: the report is the timeout
    report, which is neither the fault's message behind the bot-detection
    prefix nor the fault's message.  A fault while the actions of the result
    are read: [process_result] catches it, and the response has type
    "success". *)
Lemma fault_not_always_reported_with_cause :
  (Thrown Examples.create_ok Examples.run_own_timeout Examples.search_task
     (TimeoutError "Navigation blocked by a captcha page") /\
   ~ DeadlineElapses (Examples.run_own_timeout (enhanced Examples.search_task))
       (deadline Examples.search_task) /\
   MentionsBotDetection (TimeoutError "Navigation blocked by a captcha page") /\
   execute_task "t" Examples.create_ok Examples.run_own_timeout
     Examples.search_task
   = Returns [response "t" "error" (Some (timeout_message 30)) None] /\
   timeout_message 30
   <> "Bot detection encountered: " +:+ "Navigation blocked by a captcha page" /\
   timeout_message 30 <> "Navigation blocked by a captcha page") /\
  (actions Examples.result_unreadable
   = Some (Raise (Exception "'int' object is not iterable")) /\
   execute_task "t" Examples.create_ok
     (fun _ => Finishes 5 (Ok Examples.result_unreadable)) Examples.search_task
   = Returns [response "t" "success" None
                (Some (Unprocessed "'int' object is not iterable"
                                   "AgentHistoryList()"))]).
Proof.
  split; [split; [|split; [|split; [|split; [|split]]]] | split].
  - right. right. split; [|split; [reflexivity|]].
    + exists "Find flights from LAX to JFK". split; [reflexivity | discriminate].
    + split; [reflexivity | reflexivity].
  - vm_compute. discriminate.
  - apply mentions_bot_detection_spec. vm_compute. reflexivity.
  - vm_compute. reflexivity.
  - vm_compute. discriminate.
  - vm_compute. discriminate.
  - reflexivity.
  - vm_compute. reflexivity.
Qed.

Lemma fault_reported_with_cause_witness :
  exists cause,
    execute_task "2025-07-30T12:00:00" Examples.create_ok Examples.run_captcha
      Examples.search_task
    = Returns [response "2025-07-30T12:00:00" "error" (Some cause) None] /\
    (MentionsBotDetection (Exception "CAPTCHA challenge detected") ->
     cause = "Bot detection encountered: "
             +:+ str (Exception "CAPTCHA challenge detected")) /\
    (~ MentionsBotDetection (Exception "CAPTCHA challenge detected") ->
     cause = str (Exception "CAPTCHA challenge detected")) /\
    "Bot detection encountered: " +:+ str (Exception "CAPTCHA challenge detected")
    <> str (Exception "CAPTCHA challenge detected").
Proof.
  apply (fault_reported_with_cause "2025-07-30T12:00:00" Examples.create_ok
           Examples.run_captcha Examples.search_task
           (Exception "CAPTCHA challenge detected")).
  - right. right. split; [|split; [reflexivity|]].
    + exists "Find flights from LAX to JFK". split; [reflexivity | discriminate].
    + split; [reflexivity | reflexivity].
  - intros (_ & _ & _ & msg & Hclass). discriminate Hclass.
Defined.

(** ** Sample runs of the bridge *)

Example report_captcha :
  execute_task "t" Examples.create_ok Examples.run_captcha Examples.search_task
  = Returns [response "t" "error"
               (Some "Bot detection encountered: CAPTCHA challenge detected")
               None].
Proof. vm_compute. reflexivity. Qed.

Example report_slow_captcha :
  execute_task "t" Examples.create_ok Examples.run_slow_captcha
    Examples.search_task
  = Returns [response "t" "error"
               (Some "Task timed out after 30 seconds. Site may have bot detection or be unresponsive.")
               None].
Proof. vm_compute. reflexivity. Qed.

Example report_missing_task :
  execute_task "t" Examples.create_ok Examples.run_done
    {| td_task := None; td_url := None; td_timeout := None |}
  = Returns [response "t" "error" (Some "Task description is required") None].
Proof. vm_compute. reflexivity. Qed.

Example report_success :
  execute_task "t" Examples.create_ok Examples.run_done Examples.search_task
  = Returns [response "t" "success" None
               (Some (Extracted [] None (Items []) (Items [])))].
Proof. vm_compute. reflexivity. Qed.

(** A run cancelled at the deadline that returns all the same is answered
    with a success; one that never ends is not answered. *)
Example report_cancelled_runs :
  execute_task "t" Examples.create_ok Examples.run_cancelled_done
    Examples.search_task
  = Returns [response "t" "success" None
               (Some (Extracted [] None (Items []) (Items [])))] /\
  execute_task "t" Examples.create_ok Examples.run_never_ends
    Examples.search_task
  = Never [].
Proof. vm_compute. split; reflexivity. Qed.

(** A result whose screenshots cannot be encoded gives no line at all; a
    result whose actions cannot be read gives a line of type "success" whose
    data say that processing failed. *)
Example report_unencodable :
  execute_task "t" Examples.create_ok
    (fun _ => Finishes 5 (Ok Examples.result_with_bytes)) Examples.search_task
  = Returns [] /\
  execute_task "t" Examples.create_ok
    (fun _ => Finishes 5 (Ok Examples.result_unreadable)) Examples.search_task
  = Returns [response "t" "success" None
               (Some (Unprocessed "'int' object is not iterable"
                                  "AgentHistoryList()"))].
Proof. vm_compute. split; reflexivity. Qed.

(** * Further facts *)

(** ** The scanner and the analyzer *)

Import DetectorProps.

Lemma isVisible_Drawn (e : Element) : isVisible e = true <-> Drawn e.
Proof.
  unfold isVisible, Drawn.
  rewrite !andb_true_iff, !negb_true_iff.
  assert (forall x : Q, Qle_bool x 0 = false <-> (0 < x)%Q) as Hpos.
  { intros x. split.
    - intros H. apply Qnot_le_lt. intros Hle%Qle_bool_iff. congruence.
    - intros H. destruct (Qle_bool x 0) eqn:Hle; [|reflexivity].
      apply Qle_bool_iff in Hle. apply Qlt_not_le in H. contradiction. }
  rewrite !Hpos.
  assert (forall a b : string, String.eqb a b = false <-> a <> b) as Hneq.
  { intros a b. destruct (String.eqb_spec a b); split; congruence. }
  rewrite !Hneq. tauto.
Qed.

Lemma analyzeAll_visible (now : nat -> Z) (elements : list Element) (counter : nat) :
  Forall2 analysis_of
    (filter (fun e => isVisible e = true) elements)
    (analyzeAll now counter elements).
Proof.
  revert counter. induction elements as [|e rest IH]; intros counter.
  - constructor.
  - cbn [analyzeAll]. rewrite filter_cons.
    destruct (isVisible e) eqn:Hv.
    + rewrite decide_True by reflexivity. constructor; [|apply IH].
      repeat split.
    + rewrite decide_False by discriminate. apply IH.
Qed.

(** X1. The fields of a detection pass are, one for one and in discovery
    order before ranking, the analyses of the candidates that are drawn; an
    element with an empty box, with [display: none] or with
    [visibility: hidden] gives no field. *)
Theorem detection_keeps_drawn_candidates (document : Document) (now : nat -> Z) :
  Forall2 analysis_of
    (filter (fun e => isVisible e = true) (candidates document))
    (discovered document now) /\
  Permutation (detectAllFields document now) (discovered document now) /\
  length (detectAllFields document now)
  = length (filter (fun e => isVisible e = true) (candidates document)) /\
  forall f, f ∈ detectAllFields document now ->
    exists e, e ∈ candidates document /\ Drawn e /\ analysis_of e f.
Proof.
  pose proof (analyzeAll_visible now (candidates document) 0) as Hall.
  fold (discovered document now) in Hall.
  split; [exact Hall | split; [apply rankFields_perm | split]].
  - unfold detectAllFields. rewrite rankFields_perm.
    symmetry. exact (Forall2_length _ _ _ Hall).
  - intros f Hf. unfold detectAllFields in Hf. rewrite rankFields_perm in Hf.
    apply list_elem_of_lookup in Hf as [i Hi].
    destruct (Forall2_lookup_r _ _ _ _ _ Hall Hi) as (e & He & Hef).
    exists e. apply list_elem_of_lookup_2 in He.
    apply list_elem_of_filter in He as [Hv He].
    split; [exact He | split; [now apply isVisible_Drawn | exact Hef]].
Qed.

(** ** Field identifiers *)

Lemma pretty_N_go_lacks_underscore (x : N) (s : string) :
  occurs "_" s = false -> occurs "_" (pretty_N_go x s) = false.
Proof.
  revert s. induction (N.lt_wf_0 x) as [x _ IH]; intros s Hs.
  assert (x = 0 \/ 0 < x)%N as [->|Hpos] by lia.
  - now rewrite pretty_N_go_0.
  - rewrite pretty_N_go_step by exact Hpos. apply IH.
    + now apply N.div_lt.
    + cbn [occurs]. rewrite Hs, orb_false_r.
      unfold pretty_N_char. now repeat case_match.
Qed.

Lemma pretty_nat_lacks_underscore (n : nat) : occurs "_" (pretty n) = false.
Proof.
  unfold pretty, pretty_nat, pretty, pretty_N.
  destruct (decide (N.of_nat n = 0%N)); [reflexivity|].
  now apply pretty_N_go_lacks_underscore.
Qed.

(** Two texts without [c] that are followed by [c] in equal texts are
    equal. *)
Lemma before_separator (c : ascii) (a b r1 r2 : string) :
  occurs c a = false -> occurs c b = false ->
  a +:+ String c r1 = b +:+ String c r2 -> a = b.
Proof.
  revert b. induction a as [|x a IH]; intros [|y b] Ha Hb H.
  - reflexivity.
  - rewrite app_nil_l, app_cons in H. injection H as <- _.
    cbn [occurs] in Hb. now rewrite Ascii.eqb_refl in Hb.
  - rewrite app_nil_l, app_cons in H. injection H as -> _.
    cbn [occurs] in Ha. now rewrite Ascii.eqb_refl in Ha.
  - rewrite !app_cons in H. injection H as -> H.
    cbn [occurs] in Ha, Hb.
    apply orb_false_iff in Ha as [_ Ha]. apply orb_false_iff in Hb as [_ Hb].
    f_equal. now apply IH.
Qed.

Lemma analyzeField_id_order (e1 e2 : Element) (order1 order2 : nat) (now1 now2 : Z) :
  id (analyzeField e1 order1 now1) = id (analyzeField e2 order2 now2) ->
  order1 = order2.
Proof.
  unfold analyzeField. cbn [id]. intros H.
  apply (inj (String.app "field_")) in H.
  apply (inj pretty).
  apply (before_separator "_" _ _ (pretty now1) (pretty now2));
    [apply pretty_nat_lacks_underscore..|exact H].
Qed.

Lemma analyzeAll_numbered (now : nat -> Z) (elements : list Element)
    (counter : nat) (f : Field) :
  f ∈ analyzeAll now counter elements ->
  exists e order, (counter <= order)%nat /\ f = analyzeField e order (now order).
Proof.
  revert counter. induction elements as [|e rest IH]; intros counter Hf.
  - inversion Hf.
  - cbn [analyzeAll] in Hf. destruct (isVisible e).
    + apply elem_of_cons in Hf as [->|Hf].
      * exists e, counter. split; [lia | reflexivity].
      * destruct (IH _ Hf) as (e' & o & Ho & ->).
        exists e', o. split; [lia | reflexivity].
    + now apply IH.
Qed.

Lemma analyzeAll_ids_NoDup (now : nat -> Z) (elements : list Element) (counter : nat) :
  NoDup (map id (analyzeAll now counter elements)).
Proof.
  revert counter. induction elements as [|e rest IH]; intros counter.
  - constructor.
  - cbn [analyzeAll]. destruct (isVisible e); [|apply IH].
    cbn [map]. constructor; [|apply IH].
    intros Hin. apply list_elem_of_fmap in Hin as (f & Hid & Hf).
    destruct (analyzeAll_numbered _ _ _ _ Hf) as (e' & o & Ho & ->).
    apply analyzeField_id_order in Hid. lia.
Qed.

Lemma detectAllFields_ids_NoDup (document : Document) (now : nat -> Z) :
  NoDup (map id (detectAllFields document now)).
Proof.
  unfold detectAllFields. rewrite rankFields_perm.
  apply analyzeAll_ids_NoDup.
Qed.

(** X2. Within one detection pass no two fields have the same [id]: the
    order number written into the identifier tells them apart, whatever the
    clock reads. *)
Theorem detected_ids_unique (document : Document) (now : nat -> Z)
    (f g : Field) (i j : nat) :
  NoDup (map id (detectAllFields document now)) /\
  (detectAllFields document now !! i = Some f ->
   detectAllFields document now !! j = Some g ->
   id f = id g -> i = j).
Proof.
  pose proof (detectAllFields_ids_NoDup document now) as Hnodup.
  split; [exact Hnodup|].
  intros Hi Hj Hid.
  apply (NoDup_lookup _ i j (id f) Hnodup).
  - now rewrite list_lookup_fmap, Hi.
  - now rewrite list_lookup_fmap, Hj, Hid.
Qed.

(** ** Ranking *)

(** X3. Ranking leaves a list unchanged exactly when the list is already
    in order of decreasing score; in particular ranking twice is ranking
    once. *)
Theorem rankFields_fixes_ranked (fields : list Field) :
  (rankFields fields = fields <-> ranked fields) /\
  rankFields (rankFields fields) = rankFields fields.
Proof.
  assert (forall l, ranked l -> rankFields l = l) as Hfix.
  { intros l Hl. symmetry. now apply rankFields_unique. }
  split; [split|].
  - intros <-. apply rankFields_sorted.
  - apply Hfix.
  - apply Hfix, rankFields_sorted.
Qed.

(** ** What the analyzer hands to the classifier *)

Lemma or_undefined_not_empty (o : option string) :
  or_undefined o <> Some EmptyString.
Proof. destruct o as [[|c s]|]; discriminate. Qed.

Lemma getNearbyText_not_empty (e : Element) :
  Forall (fun t => t <> EmptyString) (getNearbyText e).
Proof.
  unfold getNearbyText. apply Forall_forall. intros t Ht.
  apply list_elem_of_fmap in Ht as (raw & -> & Hraw).
  apply list_elem_of_filter in Hraw as [Hne _].
  intros Hempty. rewrite Hempty in Hne. discriminate.
Qed.

Lemma filter_nonempty_id (parts : list string) :
  Forall (fun t => t <> EmptyString) parts ->
  filter (fun s => nonempty s = true) parts = parts.
Proof.
  induction 1 as [|t parts Ht _ IH]; [reflexivity|].
  rewrite filter_cons_True by (destruct t; [contradiction | reflexivity]).
  now rewrite IH.
Qed.

(** X4. The analyzer never records an empty text for name, id, placeholder
    or class, and never keeps an empty nearby fragment; so, unless the label
    it found has an empty text, the search string of the classifier is just
    the lower-cased space-joined list of the defined signals. *)
Theorem analyzer_records_no_empty_text (e : Element) :
  a_name (extractAttributes e) <> Some EmptyString /\
  a_id (extractAttributes e) <> Some EmptyString /\
  a_placeholder (extractAttributes e) <> Some EmptyString /\
  a_className (extractAttributes e) <> Some EmptyString /\
  Forall (fun t => t <> EmptyString) (nearbyText (analyzeContext e)) /\
  (label (analyzeContext e) <> Some EmptyString ->
   searchText (extractAttributes e) (analyzeContext e)
   = claimed_searchText (extractAttributes e) (analyzeContext e)).
Proof.
  repeat (split; [apply or_undefined_not_empty|]).
  split; [apply getNearbyText_not_empty|].
  intros Hlabel. rewrite searchText_claimed_parts. unfold claimed_searchText.
  f_equal. f_equal. apply filter_nonempty_id.
  unfold claimed_parts. apply Forall_app. split; [|apply getNearbyText_not_empty].
  apply Forall_forall. intros t Ht.
  apply list_elem_of_omap in Ht as (o & Ho & ->).
  intros ->.
  repeat (apply elem_of_cons in Ho as [Ho|Ho];
          [first [ now apply (or_undefined_not_empty _ (eq_sym Ho))
                 | now apply Hlabel ]|]).
  inversion Ho.
Qed.

(** ** The categories *)

Lemma first_category_in_table (table : list (string * list string)) (text : string) :
  first_category table text ∈ map fst table ++ ["unknown"].
Proof.
  induction table as [|[semantic patterns] rest IH]; cbn [first_category].
  - left.
  - destruct (existsb _ patterns); [left | now right].
Qed.

Lemma detected_semantic_listed (document : Document) (now : nat -> Z) :
  Forall (fun f => semantic f ∈ categories) (detectAllFields document now).
Proof.
  apply Forall_forall. intros f Hf.
  destruct (detectAllFields_analyzed _ _ _ Hf) as (e & o & _ & _ & ->).
  apply first_category_in_table.
Qed.

(** X5. Every field of a detection pass carries one of the eight categories
    of the pattern table or "unknown". *)
Theorem detected_semantic_in_categories (document : Document) (now : nat -> Z) :
  categories
  = ["email"; "password"; "name"; "departure"; "destination"; "date";
     "phone"; "address"; "unknown"] /\
  Forall (fun f => semantic f ∈ categories) (detectAllFields document now).
Proof.
  split; [reflexivity | apply detected_semantic_listed].
Qed.

Lemma Substring_trans (a b c : string) :
  Substring a b -> Substring b c -> Substring a c.
Proof.
  intros [p1 [s1 ->]] [p2 [s2 ->]].
  exists (p2 +:+ p1), (s1 +:+ s2). now rewrite !app_assoc.
Qed.

Lemma test_weaker (weak strong text : string) :
  Substring (lower weak) (lower strong) ->
  test weak text = false -> test strong text = false.
Proof.
  intros Hsub Hweak. destruct (test strong text) eqn:Hstrong; [|reflexivity].
  apply test_spec in Hstrong. unfold SubstringCI in Hstrong.
  assert (test weak text = true) as H; [|congruence].
  apply test_spec. unfold SubstringCI. now apply Substring_trans with (lower strong).
Qed.

(** X6. A field is classified "email" exactly when its search string
    contains "mail": the patterns "email" and "e-mail" add nothing, and no
    later category can take a text that contains "mail". *)
Theorem email_iff_mail (a : Attributes) (c : Context) :
  inferPurpose a c = "email" <-> SubstringCI "mail" (searchText a c).
Proof.
  rewrite <- test_spec. unfold inferPurpose.
  set (text := searchText a c).
  change semanticPatterns
    with (("email", ["email"; "e-mail"; "mail"]) :: tl semanticPatterns).
  cbn [first_category existsb].
  destruct (test "mail" text) eqn:Hmail.
  - rewrite !orb_true_r. split; reflexivity.
  - rewrite (test_weaker "mail" "email" text), (test_weaker "mail" "e-mail" text);
      [| (apply contains_spec; vm_compute; reflexivity) | exact Hmail
       | (apply contains_spec; vm_compute; reflexivity) | exact Hmail ].
    cbn [orb]. split; [|discriminate].
    intros H. pose proof (first_category_in_table (tl semanticPatterns) text) as Hin.
    rewrite H in Hin. vm_compute in Hin.
    repeat (apply elem_of_cons in Hin as [Hin|Hin]; [discriminate Hin|]).
    inversion Hin.
Qed.

(** X7. A field is classified "date" only when its search string contains
    "date" or "when": the third pattern of that category, "departure", never
    decides, because the category "departure" comes first. *)
Theorem date_only_by_date_or_when (a : Attributes) (c : Context) :
  inferPurpose a c = "date" ->
  SubstringCI "date" (searchText a c) \/ SubstringCI "when" (searchText a c).
Proof.
  unfold inferPurpose. set (text := searchText a c).
  unfold semanticPatterns. cbn [first_category].
  destruct (existsb _ ["email"; "e-mail"; "mail"]); [discriminate|].
  destruct (existsb _ ["password"; "pass"; "pwd"]); [discriminate|].
  destruct (existsb _ ["name"; "firstname"; "lastname"]); [discriminate|].
  destruct (existsb _ ["from"; "departure"; "origin"; "depart"]) eqn:Hdeparture;
    [discriminate|].
  destruct (existsb _ ["to"; "destination"; "arrival"; "arrive"]); [discriminate|].
  cbn [existsb] in Hdeparture.
  apply orb_false_iff in Hdeparture as [_ Hdeparture].
  apply orb_false_iff in Hdeparture as [Hdeparture _].
  cbn [existsb]. rewrite Hdeparture, !orb_false_r.
  destruct (test "date" text) eqn:Hdate; [intros _; left; now apply test_spec|].
  destruct (test "when" text) eqn:Hwhen; [intros _; right; now apply test_spec|].
  cbn [orb]. intros H.
  repeat match type of H with
         | context [if ?b then _ else _] => destruct b
         end; discriminate H.
Qed.

Lemma date_only_by_date_or_when_witness :
  SubstringCI "date"
    (searchText {| a_name := Some "travel_date"; a_id := None; a_type := "text";
                   a_placeholder := None; a_className := None |}
                {| label := None; nearbyText := [] |}) \/
  SubstringCI "when"
    (searchText {| a_name := Some "travel_date"; a_id := None; a_type := "text";
                   a_placeholder := None; a_className := None |}
                {| label := None; nearbyText := [] |}).
Proof.
  apply date_only_by_date_or_when. vm_compute. reflexivity.
Defined.

(** ** The highlighter *)

Import Highlighter.

(** X8. Every field of a detection pass gets an overlay labelled with its
    semantic.  The overlay has the grey style of "unknown" exactly when the
    semantic is "date", "phone", "address" or "unknown": the style table has
    no entry for the first three. *)
Theorem detected_overlay_style (document : Document) (now : nat -> Z) :
  Forall (fun f =>
            ov_label (overlay_of f) = semantic f /\
            ov_border (overlay_of f) = border (style_of (semantic f)) /\
            (style_of (semantic f) = unknown_style <->
             semantic f ∈ ["date"; "phone"; "address"; "unknown"]))
         (detectAllFields document now).
Proof.
  pose proof (detected_semantic_listed document now) as Hall.
  eapply Forall_impl; [exact Hall|]. intros f Hf. cbn beta in Hf.
  split; [reflexivity | split; [reflexivity|]].
  change categories
    with ["email"; "password"; "name"; "departure"; "destination"; "date";
          "phone"; "address"; "unknown"] in Hf.
  repeat (apply elem_of_cons in Hf as [->|Hf];
          [vm_compute; split;
           [ first [ discriminate | intros _; repeat ((left; fail) || right); left ]
           | first [ reflexivity
                   | intros H;
                     repeat (apply elem_of_cons in H as [H|H]; [discriminate H|]);
                     inversion H ] ]|]).
  inversion Hf.
Qed.

Lemma createHighlight_body (f : Field) (st : State) :
  nodes (createHighlight f st).2 = nodes st.2 ++ [(fresh st.2, overlay_of f)] /\
  fresh (createHighlight f st).2 = S (fresh st.2).
Proof. destruct st as [hl body]. split; reflexivity. Qed.

Lemma foldl_createHighlight_body (fields : list Field) (st : State) :
  let st' := foldl (fun st field => createHighlight field st) st fields in
  nodes st'.2
  = nodes st.2 ++ combine (seq (fresh st.2) (length fields)) (map overlay_of fields) /\
  fresh st'.2 = (fresh st.2 + length fields)%nat.
Proof.
  revert st. induction fields as [|f fields IH]; intros st; cbn zeta.
  - cbn. rewrite app_nil_r. split; [reflexivity | lia].
  - cbn [foldl]. destruct (IH (createHighlight f st)) as [Hnodes Hfresh].
    destruct (createHighlight_body f st) as [Hn1 Hf1].
    rewrite Hnodes, Hfresh, Hn1, Hf1. cbn [length seq map combine].
    rewrite <- List.app_assoc. split; [reflexivity | lia].
Qed.

Lemma map_set_new (key : string) (value : nat) (m : list (string * nat)) :
  key ∉ map fst m -> map_set key value m = m ++ [(key, value)].
Proof.
  induction m as [|[k v] m IH]; intros Hnew; [reflexivity|].
  cbn [map_set]. destruct (String.eqb_spec k key) as [->|Hne].
  - contradict Hnew. left.
  - cbn [app]. f_equal. apply IH. intros Hin. apply Hnew. now right.
Qed.

Lemma foldl_createHighlight_map (fields : list Field) (st : State) :
  NoDup (map fst st.1 ++ map id fields) ->
  (foldl (fun st field => createHighlight field st) st fields).1
  = st.1 ++ combine (map id fields) (seq (fresh st.2) (length fields)).
Proof.
  revert st. induction fields as [|f fields IH]; intros [hl body] Hnodup.
  - cbn. now rewrite app_nil_r.
  - cbn [foldl]. cbn [map] in Hnodup.
    assert (id f ∉ map fst hl) as Hnew.
    { apply NoDup_app in Hnodup as (_ & Hdisj & _).
      intros Hin. apply (Hdisj _ Hin). left. }
    assert (createHighlight f (hl, body)
            = (hl ++ [(id f, fresh body)],
               {| nodes := nodes body ++ [(fresh body, overlay_of f)];
                  fresh := S (fresh body) |})) as Hstep.
    { unfold createHighlight, appendChild. cbn [fst snd].
      now rewrite map_set_new. }
    rewrite Hstep, IH.
    + cbn [fst snd fresh length seq map combine]. now rewrite <- List.app_assoc.
    + cbn [fst]. rewrite map_app. cbn [map fst].
      rewrite <- List.app_assoc. exact Hnodup.
Qed.

Lemma filter_nonempty_id_gen {A : Type} (P : A -> Prop)
    `{!forall a, Decision (P a)} (l : list A) :
  (forall x, x ∈ l -> P x) -> l = filter P l.
Proof.
  intros Hall. induction l as [|x l IH]; [reflexivity|].
  rewrite filter_cons_True by (apply Hall; left).
  f_equal. apply IH. intros y Hy. apply Hall. now right.
Qed.

Lemma foldl_remove_nodes (entries : list (string * nat)) (body : Body) :
  nodes (foldl (fun body entry => remove entry.2 body) body entries)
  = filter (fun node => node.1 ∉ map snd entries) (nodes body) /\
  fresh (foldl (fun body entry => remove entry.2 body) body entries) = fresh body.
Proof.
  revert body. induction entries as [|[k n] entries IH]; intros body.
  - cbn [foldl map]. split; [|reflexivity].
    apply filter_nonempty_id_gen. intros node _ Hin. inversion Hin.
  - cbn [foldl snd]. destruct (IH (remove n body)) as [Hnodes Hfresh].
    rewrite Hnodes, Hfresh. split; [|reflexivity].
    unfold remove. cbn [nodes snd map].
    rewrite list_filter_filter. apply list_filter_iff.
    intros node. rewrite not_elem_of_cons. tauto.
Qed.

Lemma highlightFields_new (fields : list Field) (body : Body) :
  highlightFields fields (new_highlights, body)
  = foldl (fun st field => createHighlight field st) ([], body) fields.
Proof. reflexivity. Qed.

Lemma map_snd_combine {A B : Type} (l1 : list A) (l2 : list B) :
  length l1 = length l2 -> map snd (combine l1 l2) = l2.
Proof.
  revert l2. induction l1 as [|a l1 IH]; intros [|b l2] Hlen; try discriminate.
  - reflexivity.
  - cbn. f_equal. apply IH. now injection Hlen.
Qed.

Lemma elem_of_combine_fst {A B : Type} (l1 : list A) (l2 : list B) (x : A * B) :
  x ∈ combine l1 l2 -> x.1 ∈ l1.
Proof.
  destruct x as [a b]. intros Hin%list_elem_of_In%in_combine_l.
  now apply list_elem_of_In.
Qed.

Lemma detection_script_nodes (document : Document) (now : nat -> Z) (body : Body) :
  nodes (detection_script document now body).2
  = nodes body
    ++ combine (seq (fresh body) (length (detectAllFields document now)))
               (map overlay_of (detectAllFields document now)).
Proof.
  unfold detection_script. cbn [fst snd]. rewrite highlightFields_new.
  destruct (foldl_createHighlight_body (detectAllFields document now) ([], body))
    as [Hnodes _]. exact Hnodes.
Qed.

Lemma detection_script_length (document : Document) (now : nat -> Z) (body : Body) :
  length (nodes (detection_script document now body).2)
  = (length (nodes body) + length (detectAllFields document now))%nat.
Proof.
  rewrite detection_script_nodes, List.length_app, length_combine, length_seq,
    length_map. lia.
Qed.

(** X9. A detection pass draws one overlay per detected field, in ranked
    order, after the overlays that are already on the page: the highlighter
    it creates starts with no record of earlier overlays, so none is
    removed and overlays pile up from pass to pass. *)
Theorem detection_script_appends_overlays
    (document : Document) (now : nat -> Z) (body : Body) :
  (detection_script document now body).1 = detectAllFields document now /\
  nodes (detection_script document now body).2
  = nodes body
    ++ combine (seq (fresh body) (length (detectAllFields document now)))
               (map overlay_of (detectAllFields document now)) /\
  length (nodes (detection_script document now body).2)
  = (length (nodes body) + length (detectAllFields document now))%nat.
Proof.
  split; [reflexivity | split].
  - apply detection_script_nodes.
  - apply detection_script_length.
Qed.

(** X10. On one highlighter, when the fields have distinct identifiers,
    [removeAllHighlights] after [highlightFields] takes away exactly the
    overlays that were drawn: the page is as before. *)
Theorem highlight_then_remove
    (fields : list Field) (body : Body)
    (Hids : NoDup (map id fields))
    (Hbody : well_numbered body) :
  nodes (removeAllHighlights (highlightFields fields (new_highlights, body))).2
  = nodes body /\
  (removeAllHighlights (highlightFields fields (new_highlights, body))).1 = [].
Proof.
  split; [|reflexivity].
  rewrite highlightFields_new. unfold removeAllHighlights. cbn [snd].
  destruct (foldl_remove_nodes
              (foldl (fun st field => createHighlight field st) ([], body) fields).1
              (foldl (fun st field => createHighlight field st) ([], body) fields).2)
    as [Hnodes _].
  rewrite Hnodes. clear Hnodes.
  rewrite (foldl_createHighlight_map fields ([], body)) by exact Hids.
  destruct (foldl_createHighlight_body fields ([], body)) as [Hnodes _].
  rewrite Hnodes. cbn [fst snd app].
  rewrite map_snd_combine by now rewrite length_map, length_seq.
  rewrite filter_app.
  rewrite <- (filter_nonempty_id_gen _ (nodes body)).
  - rewrite (proj2 (filter_nil_forall _ _)); [apply app_nil_r|].
    intros node Hnode Hout. apply Hout. now apply elem_of_combine_fst in Hnode.
  - intros node Hnode Hin. apply elem_of_seq in Hin.
    unfold well_numbered in Hbody. rewrite Forall_forall in Hbody.
    specialize (Hbody node Hnode). lia.
Qed.

Lemma highlight_then_remove_witness :
  nodes (removeAllHighlights
           (highlightFields Examples.fields (new_highlights, Samples.clean_body))).2
  = nodes Samples.clean_body /\
  (removeAllHighlights
     (highlightFields Examples.fields (new_highlights, Samples.clean_body))).1 = [].
Proof.
  apply highlight_then_remove.
  - refine (bool_decide_unpack _ _). vm_compute. exact I.
  - constructor.
Defined.

(** Two fields with one identifier: the second overwrites the record of the
    first, whose overlay is then never removed. *)
Example highlight_then_remove_same_id :
  map fst
    (nodes (removeAllHighlights
              (highlightFields [Examples.field_plain; Examples.field_plain]
                 (new_highlights, Samples.clean_body))).2)
  = [0%nat].
Proof. vm_compute. reflexivity. Qed.

(** X11. [remove_highlights] removes nothing: the highlighter it creates has
    recorded no overlay, so after a detection pass all the overlays of the
    pass, and the earlier ones, are still on the page, whether or not the
    class is loaded. *)
Theorem remove_highlights_keeps_overlays
    (document : Document) (now : nat -> Z) (body : Body) (loaded : bool) :
  nodes (remove_highlights_script loaded (detection_script document now body).2)
  = nodes (detection_script document now body).2 /\
  length (nodes (remove_highlights_script loaded
                   (detection_script document now body).2))
  = (length (nodes body) + length (detectAllFields document now))%nat.
Proof.
  assert (forall b, nodes (remove_highlights_script loaded b) = nodes b) as Hkeep.
  { intros b. destruct loaded; reflexivity. }
  rewrite Hkeep. split; [reflexivity|].
  apply detection_script_length.
Qed.

(** ** Detection and the field list of the object *)

Section DetectionFacts.
Context {P : Type}.
Variables detection detection' : P -> result (Document * (nat -> Z)) * P.
Variables evaluate_fill evaluate_fill' : Field -> string -> P -> result bool * P.

Lemma detect_and_highlight_fields_fails (w : World) (e : exn) (p : P) :
  detection (page w) = (Raise e, p) ->
  detect_and_highlight_fields detection w
  = (Ok [], {| detected_fields := detected_fields w; page := p |}).
Proof.
  unfold detect_and_highlight_fields, try_except, bind, on_page,
    set_detected_fields, ret.
  intros ->. reflexivity.
Qed.

Lemma detect_and_highlight_fields_runs (w : World) (document : Document)
    (now : nat -> Z) (p : P) :
  detection (page w) = (Ok (document, now), p) ->
  detect_and_highlight_fields detection w
  = (Ok (detectAllFields document now),
     {| detected_fields := detectAllFields document now; page := p |}).
Proof.
  unfold detect_and_highlight_fields, try_except, bind, on_page,
    set_detected_fields, ret.
  intros ->. reflexivity.
Qed.

(** X12. [detect_and_highlight_fields] never raises.  When the scripts run
    it returns the ranked fields and stores them; when injection or
    evaluation raises it returns the empty list and leaves the stored list
    as it was, so fields of an earlier pass stay in use.  Either way a
    stored list that was ranked with distinct identifiers is so afterwards. *)
Theorem detect_and_highlight_fields_outcomes (w : World) :
  (forall fields w',
      detect_and_highlight_fields detection w = (Ok fields, w') ->
      ranked (detected_fields w) -> NoDup (map id (detected_fields w)) ->
      ranked (detected_fields w') /\ NoDup (map id (detected_fields w'))) /\
  (forall document now p,
      detection (page w) = (Ok (document, now), p) ->
      detect_and_highlight_fields detection w
      = (Ok (detectAllFields document now),
         {| detected_fields := detectAllFields document now; page := p |})) /\
  (forall e p,
      detection (page w) = (Raise e, p) ->
      detect_and_highlight_fields detection w
      = (Ok [], {| detected_fields := detected_fields w; page := p |})) /\
  exists fields w', detect_and_highlight_fields detection w = (Ok fields, w').
Proof.
  split; [|split; [|split]].
  - intros fields w' Hcall Hranked Hids.
    destruct (detection (page w)) as [[[document now]|e] p] eqn:Hrun.
    + rewrite (detect_and_highlight_fields_runs w document now p Hrun) in Hcall.
      injection Hcall as _ <-. cbn [detected_fields].
      split; [apply detectAllFields_ranked | apply detectAllFields_ids_NoDup].
    + rewrite (detect_and_highlight_fields_fails w e p Hrun) in Hcall.
      injection Hcall as _ <-. now split.
  - intros document now p. apply detect_and_highlight_fields_runs.
  - intros e p. apply detect_and_highlight_fields_fails.
  - destruct (detection (page w)) as [[[document now]|e] p] eqn:Hrun.
    + rewrite (detect_and_highlight_fields_runs w document now p Hrun). eauto.
    + rewrite (detect_and_highlight_fields_fails w e p Hrun). eauto.
Qed.

Lemma ensure_detected_known_any
    (det : P -> result (Document * (nat -> Z)) * P) (w : World) :
  detected_fields w <> [] -> ensure_detected det w = (Ok tt, w).
Proof.
  unfold ensure_detected, bind, get_detected_fields.
  destruct (detected_fields w); [contradiction | reflexivity].
Qed.

(** X13. Once the object holds a non-empty field list, [smart_field_fill]
    and [get_field_suggestions] never run detection again: their outcome
    does not depend on what a detection would find now, the stored list is
    unchanged afterwards, and suggesting leaves the page untouched. *)
Theorem known_fields_are_reused
    (data : list (string * string)) (w : World)
    (Hknown : detected_fields w <> []) :
  smart_field_fill detection evaluate_fill data w
  = smart_field_fill detection' evaluate_fill data w /\
  (forall results w',
      smart_field_fill detection evaluate_fill data w = (Ok results, w') ->
      detected_fields w' = detected_fields w) /\
  exists suggestions,
    get_field_suggestions detection data w = (Ok suggestions, w) /\
    get_field_suggestions detection' data w = (Ok suggestions, w) /\
    dom suggestions = list_to_set data.*1.
Proof.
  assert (forall det, smart_field_fill det evaluate_fill data w
                      = fill_each evaluate_fill data ∅ w) as Hfill.
  { intros det. unfold smart_field_fill, bind.
    now rewrite (ensure_detected_known_any det w Hknown). }
  split; [now rewrite !Hfill | split].
  - intros results w' Hrun. rewrite Hfill in Hrun.
    destruct (fill_each_returns evaluate_fill data ∅ w)
      as (m & w2 & Heach & Hfields & _).
    rewrite Heach in Hrun. now injection Hrun as _ <-.
  - destruct (suggest_each_returns data ∅ w) as (m & Heach & Hm).
    exists m. unfold get_field_suggestions, bind.
    rewrite !(ensure_detected_known_any _ w Hknown).
    split; [exact Heach | split; [exact Heach|]].
    apply set_eq. intros key. rewrite elem_of_dom, elem_of_list_to_set.
    destruct (Hm key) as [Hin Hout]. split.
    + intros Hsome. destruct (decide (key ∈ data.*1)) as [|Hno]; [assumption|].
      rewrite (Hout Hno), lookup_empty in Hsome. now destruct Hsome.
    + intros Hkey. rewrite (Hin Hkey). eauto.
Qed.

End DetectionFacts.

Lemma known_fields_are_reused_witness :
  smart_field_fill Examples.detection_ok Examples.evaluate_fill_by_id
    [("departure", "LAX")]
    {| detected_fields := Examples.fields; page := 7%nat |}
  = smart_field_fill Examples.detection_blocked Examples.evaluate_fill_by_id
      [("departure", "LAX")]
      {| detected_fields := Examples.fields; page := 7%nat |}.
Proof.
  refine (proj1 (known_fields_are_reused Examples.detection_ok
                   Examples.detection_blocked Examples.evaluate_fill_by_id
                   [("departure", "LAX")]
                   {| detected_fields := Examples.fields; page := 7%nat |} _)).
  vm_compute. discriminate.
Defined.

Section FailedDetectionFacts.
Context {P : Type}.
Variable detection : P -> result (Document * (nat -> Z)) * P.
Variables evaluate_fill evaluate_fill' : Field -> string -> P -> result bool * P.

Lemma fill_each_no_fields_any
    (fill : Field -> string -> P -> result bool * P)
    (items : list (string * string)) (acc : gmap string bool) (w : World) :
  detected_fields w = [] ->
  fill_each fill items acc w
  = (Ok (foldl (fun m item => <[item.1 := false]> m) acc items), w).
Proof.
  intros Hnone. revert acc. induction items as [|[k v] rest IH]; intros acc.
  - reflexivity.
  - cbn [fill_each]. unfold bind at 1.
    destruct (fill_field_by_semantic_type_returns fill k v w)
      as (b & w1 & Hfill & _ & Hno).
    destruct Hno as [-> ->].
    { unfold matching_fields, exact_matches, partial_matches.
      now rewrite Hnone. }
    rewrite Hfill. apply IH.
Qed.

Lemma foldl_insert_false (items : list (string * string)) (acc : gmap string bool)
    (key : string) :
  key ∈ items.*1 ->
  foldl (fun m item => <[item.1 := false]> m) acc items !! key = Some false.
Proof.
  revert acc. induction items as [|[k v] rest IH]; intros acc Hkey.
  - inversion Hkey.
  - cbn [foldl fst]. destruct (decide (key ∈ rest.*1)) as [Hin|Hout].
    + now apply IH.
    + cbn in Hkey. apply elem_of_cons in Hkey as [->|Hkey]; [|contradiction].
      clear IH. revert acc. induction rest as [|[k' v'] rest IH]; intros acc.
      * apply lookup_insert_eq.
      * cbn [foldl fst]. cbn in Hout. apply not_elem_of_cons in Hout as [Hne Hout].
        rewrite insert_insert_ne by congruence. now apply IH.
Qed.

(** X14. When the object has no field list and detection fails, every key
    of the data is answered [false], no fill script is run on the page, and
    the field list stays empty, so the next call tries detection again. *)
Theorem fill_after_failed_detection
    (field_data : list (string * string)) (w : World) (e : exn) (p : P)
    (Hnone : detected_fields w = [])
    (Hfails : detection (page w) = (Raise e, p)) :
  exists results,
    smart_field_fill detection evaluate_fill field_data w
    = (Ok results, {| detected_fields := []; page := p |}) /\
    smart_field_fill detection evaluate_fill' field_data w
    = (Ok results, {| detected_fields := []; page := p |}) /\
    forall key, key ∈ field_data.*1 -> results !! key = Some false.
Proof.
  exists (foldl (fun m item => <[item.1 := false]> m) ∅ field_data).
  assert (forall fill : Field -> string -> P -> result bool * P,
             smart_field_fill detection fill field_data w
             = (Ok (foldl (fun m item => <[item.1 := false]> m) ∅ field_data),
                {| detected_fields := []; page := p |})) as Hrun.
  { intros fill. unfold smart_field_fill, bind at 1.
    unfold ensure_detected, bind, get_detected_fields. rewrite Hnone.
    rewrite (detect_and_highlight_fields_fails detection w e p Hfails), Hnone.
    cbn [ret].
    now apply fill_each_no_fields_any. }
  split; [apply Hrun | split; [apply Hrun|]].
  intros key Hkey. now apply foldl_insert_false.
Qed.

End FailedDetectionFacts.

Lemma fill_after_failed_detection_witness :
  exists results,
    smart_field_fill Examples.detection_blocked Examples.evaluate_fill_by_id
      [("departure", "LAX"); ("email", "a@b.example")] Examples.fresh
    = (Ok results, {| detected_fields := []; page := 0%nat |}) /\
    smart_field_fill Examples.detection_blocked
      (fun _ _ p => (Ok true, p))
      [("departure", "LAX"); ("email", "a@b.example")] Examples.fresh
    = (Ok results, {| detected_fields := []; page := 0%nat |}) /\
    forall key, key ∈ [("departure", "LAX"); ("email", "a@b.example")].*1 ->
                results !! key = Some false.
Proof.
  apply (fill_after_failed_detection Examples.detection_blocked
           Examples.evaluate_fill_by_id (fun _ _ p => (Ok true, p)) _
           Examples.fresh
           (Exception "Field detection scripts not loaded") 0%nat).
  - reflexivity.
  - reflexivity.
Defined.

(** ** Confidence on detected fields *)

(** Rounding decides between confidences that are equal in exact
    arithmetic.  The voucher field scores 85 and the promo field 65; for
    the key "promo" the second earns the context bonus, and 0.65 + 0.2 is
    the binary64 number next above 0.85.  The promo field comes first. *)
Example suggestions_rounding :
  map (fun f => (a_placeholder (attributes f), score f))
      (detectAllFields Samples.checkout Examples.clock)
  = [(Some "Voucher", 85); (Some "Promo", 65)] /\
  map (fun s => (a_placeholder (attributes (sg_field s)), sg_confidence s))
      (suggestions_for (detectAllFields Samples.checkout Examples.clock) "promo")
  = [(Some "Promo", (1914029841632461 # 2251799813685248)%Q);
     (Some "Voucher", (7656119366529843 # 9007199254740992)%Q)] /\
  map (fun f => Qred (calculate_mapping_confidence "promo" f))
      (detectAllFields Samples.checkout Examples.clock)
  = [(17 # 20)%Q; (17 # 20)%Q].
Proof. repeat split; vm_compute; reflexivity. Qed.

Lemma collect_suggestions_all (fields : list Field) (key : string) :
  Forall (fun f => 50 <= score f <= 100) fields ->
  map sg_field (collect_suggestions fields key) = fields.
Proof.
  intros Hscores. unfold collect_suggestions. apply above_threshold_all.
  eapply Forall_impl; [exact Hscores|]. intros f Hf.
  pose proof (confidence_binary64_half key f Hf) as Hhalf.
  pose proof literal_three_tenths as Hthreshold.
  generalize dependent (calculate_mapping_confidence_binary64 key f).
  generalize dependent (Binary64.literal 0.3). intros. lra.
Qed.

Lemma detected_scores (document : Document) (now : nat -> Z) :
  Forall (fun f => 50 <= score f <= 100) (detectAllFields document now).
Proof.
  apply Forall_forall. intros f Hf.
  destruct (detectAllFields_analyzed _ _ _ Hf) as (e & o & _ & _ & ->).
  apply calculateScore_range.
Qed.

(** X15. On the fields of a detection pass the threshold 0.3 discards
    nothing, because every confidence is at least 0.5: whatever the key,
    related to the page or not, every detected field is a candidate and the
    key gets three suggestions, or as many as there are fields. *)
Theorem threshold_keeps_every_detected_field
    (document : Document) (now : nat -> Z) (key : string) :
  map sg_field (collect_suggestions (detectAllFields document now) key)
  = detectAllFields document now /\
  length (suggestions_for (detectAllFields document now) key)
  = Nat.min 3 (length (detectAllFields document now)) /\
  Forall (fun s => (1 # 2 <= sg_confidence s)%Q)
         (suggestions_for (detectAllFields document now) key).
Proof.
  pose proof (collect_suggestions_all _ key (detected_scores document now)) as Hall.
  split; [exact Hall | split].
  - unfold suggestions_for. rewrite length_take, sort_by_confidence_perm.
    now rewrite <- Hall at 2; rewrite length_map.
  - apply Forall_forall. intros s Hs.
    destruct (suggestions_for_spec _ key (detectAllFields_ranked document now))
      as (_ & _ & Helem).
    destruct (Helem s Hs) as (Hin & -> & _).
    apply confidence_binary64_half.
    pose proof (detected_scores document now) as Hscores.
    rewrite Forall_forall in Hscores. now apply Hscores.
Qed.

(** X16. A detected field whose semantic equals the key, ignoring case,
    has confidence exactly 1: score/100 is at least 0.5 and the bonus is 0.5,
    so among such fields the confidence tells nothing apart. *)
Theorem equal_semantic_confidence_one
    (document : Document) (now : nat -> Z) (f : Field) (key : string)
    (Hdetected : f ∈ detectAllFields document now)
    (Hequal : lower key = lower (semantic f)) :
  (calculate_mapping_confidence key f == 1)%Q.
Proof.
  pose proof (detected_scores document now) as Hscores.
  rewrite Forall_forall in Hscores. specialize (Hscores f Hdetected).
  unfold calculate_mapping_confidence. apply Q.min_l.
  pose proof (base_score_half f (proj1 Hscores)).
  pose proof (context_bonus_nonneg key f).
  assert (semantic_bonus key f = 0.5%Q) as ->.
  { unfold semantic_bonus. rewrite Hequal. now rewrite String.eqb_refl. }
  lra.
Qed.

Lemma equal_semantic_confidence_one_witness :
  (calculate_mapping_confidence "EMAIL" Examples.field_email == 1)%Q.
Proof.
  apply (equal_semantic_confidence_one Examples.document Examples.clock).
  - vm_compute. right. left.
  - reflexivity.
Defined.

(** ** Flight search *)

Import FlightSearch.

Section FlightSearchFacts.
Context {P H : Type}.
Variable detection : P -> result (Document * (nat -> Z)) * P.
Variable evaluate_fill : Field -> string -> P -> result bool * P.
Variable wait_for_selector : string -> P -> result (option H) * P.
Variables click click' : H -> P -> result unit * P.

Lemma probe_returns (selector : string) (w : World) :
  exists clicked w',
    probe wait_for_selector click selector w = (Ok clicked, w') /\
    detected_fields w' = detected_fields w.
Proof.
  unfold probe, try_except, bind, on_page, ret.
  destruct (wait_for_selector selector (page w)) as [[[h|]|e] p]; cbn.
  - destruct (click h p) as [[[]|e] p']; cbn; eauto.
  - eauto.
  - eauto.
Qed.

Lemma probe_each_returns (selectors : list string) (w : World) :
  exists clicked w',
    probe_each wait_for_selector click selectors w = (Ok clicked, w') /\
    detected_fields w' = detected_fields w.
Proof.
  revert w. induction selectors as [|selector rest IH]; intros w.
  - exists false, w. split; reflexivity.
  - cbn [probe_each]. unfold bind.
    destruct (probe_returns selector w) as (b & w1 & Hprobe & Hfields).
    rewrite Hprobe. destruct b.
    + exists true, w1. split; [reflexivity | exact Hfields].
    + destruct (IH w1) as (b' & w2 & Hrest & Hfields').
      exists b', w2. split; [exact Hrest | congruence].
Qed.

Lemma probe_unresolved
    (clk : H -> P -> result unit * P) (selector : string) (w : World) :
  (forall p h p', wait_for_selector selector p <> (Ok (Some h), p')) ->
  probe wait_for_selector clk selector w
  = (Ok false, {| detected_fields := detected_fields w;
                  page := (wait_for_selector selector (page w)).2 |}).
Proof.
  intros Hnone. unfold probe, try_except, bind, on_page, ret.
  destruct (wait_for_selector selector (page w)) as [[[h|]|e] p] eqn:Hwait; cbn.
  - now destruct (Hnone _ _ _ Hwait).
  - reflexivity.
  - reflexivity.
Qed.

Lemma probe_each_unresolved
    (clk1 clk2 : H -> P -> result unit * P) (selectors : list string) (w : World) :
  (forall selector p h p', wait_for_selector selector p <> (Ok (Some h), p')) ->
  exists w',
    probe_each wait_for_selector clk1 selectors w = (Ok false, w') /\
    probe_each wait_for_selector clk2 selectors w = (Ok false, w').
Proof.
  intros Hnone. revert w. induction selectors as [|selector rest IH]; intros w.
  - exists w. split; reflexivity.
  - cbn [probe_each]. unfold bind.
    rewrite !(probe_unresolved _ selector w (Hnone selector)). apply IH.
Qed.

(** X17. [click_search_button] never raises and does not touch the field
    list.  When no selector ever resolves to an element it answers [False]
    without clicking anything.  When the first selector resolves and the
    click returns, it answers [True] at once and probes no other selector.
    A click that raises is swallowed and the next selector is probed. *)
Theorem click_search_button_outcomes (w : World) :
  (exists clicked w',
      click_search_button wait_for_selector click w = (Ok clicked, w') /\
      detected_fields w' = detected_fields w) /\
  ((forall selector p h p', wait_for_selector selector p <> (Ok (Some h), p')) ->
   exists w',
     click_search_button wait_for_selector click w = (Ok false, w') /\
     click_search_button wait_for_selector click' w = (Ok false, w')) /\
  (forall h p1 p2,
      wait_for_selector ("button[type=" +:+ quoted "submit" +:+ "]") (page w)
      = (Ok (Some h), p1) ->
      click h p1 = (Ok tt, p2) ->
      click_search_button wait_for_selector click w
      = (Ok true, {| detected_fields := detected_fields w; page := p2 |})) /\
  (forall h p1 e p2,
      wait_for_selector ("button[type=" +:+ quoted "submit" +:+ "]") (page w)
      = (Ok (Some h), p1) ->
      click h p1 = (Raise e, p2) ->
      click_search_button wait_for_selector click w
      = probe_each wait_for_selector click (tl search_selectors)
          {| detected_fields := detected_fields w; page := p2 |}).
Proof.
  split; [apply probe_each_returns | split; [|split]].
  - intros Hnone. now apply probe_each_unresolved.
  - intros h p1 p2 Hwait Hclick.
    unfold click_search_button, search_selectors. cbn [probe_each].
    unfold bind at 1. unfold probe, try_except, bind, on_page, ret.
    rewrite Hwait. cbn. rewrite Hclick. reflexivity.
  - intros h p1 e p2 Hwait Hclick.
    unfold click_search_button, search_selectors. cbn [probe_each tl].
    unfold bind at 1. unfold probe, try_except, bind at 1 2, on_page, ret.
    rewrite Hwait. cbn. rewrite Hclick. reflexivity.
Qed.

Lemma smart_field_fill_results (field_data : list (string * string)) (w : World) :
  exists results w',
    smart_field_fill detection evaluate_fill field_data w = (Ok results, w') /\
    forall key, key ∈ field_data.*1 ->
      matching_fields (detected_fields w') key = [] ->
      results !! key = Some false.
Proof.
  unfold smart_field_fill, bind.
  destruct (ensure_detected_returns detection w) as (w1 & Hrun & _). rewrite Hrun.
  destruct (fill_each_returns evaluate_fill field_data ∅ w1)
    as (m & w2 & Heach & Hfields & _ & Hm).
  exists m, w2. split; [exact Heach|].
  intros key Hkey Hmatch. apply Hm; [exact Hkey | now rewrite <- Hfields].
Qed.

Lemma search_flights_steps (flight_data : gmap string string) (w : World) :
  exists fields w1 results w2 clicked w3,
    detect_and_highlight_fields detection w = (Ok fields, w1) /\
    smart_field_fill detection evaluate_fill (field_mapping flight_data) w1
    = (Ok results, w2) /\
    (forall key, key ∈ (field_mapping flight_data).*1 ->
       matching_fields (detected_fields w2) key = [] ->
       results !! key = Some false) /\
    click_search_button wait_for_selector click w2 = (Ok clicked, w3) /\
    detected_fields w3 = detected_fields w2 /\
    search_flights detection evaluate_fill wait_for_selector click flight_data w
    = if all_required_filled (field_mapping flight_data) results
      then (Ok clicked, w3) else (Ok false, w2).
Proof.
  destruct (detect_and_highlight_fields_returns detection w)
    as (fields & w1 & Hdetect & _).
  destruct (smart_field_fill_results (field_mapping flight_data) w1)
    as (results & w2 & Hfill & Hresults).
  destruct (probe_each_returns search_selectors w2)
    as (clicked & w3 & Hclick & Hfields).
  exists fields, w1, results, w2, clicked, w3.
  split; [exact Hdetect | split; [exact Hfill | split; [exact Hresults|]]].
  split; [exact Hclick | split; [exact Hfields|]].
  unfold search_flights, try_except, bind at 1.
  rewrite Hdetect. unfold bind at 1. rewrite Hfill.
  destruct (all_required_filled _ results); [|reflexivity].
  unfold bind, click_search_button.
  rewrite Hclick. now destruct clicked.
Qed.

End FlightSearchFacts.

Lemma field_mapping_departure (flight_data : gmap string string) :
  get flight_data "from" <> EmptyString ->
  "departure" ∈ (field_mapping flight_data).*1 /\
  truthy (mapping_get (field_mapping flight_data) "departure") = true.
Proof.
  intros Hfrom. unfold field_mapping.
  rewrite filter_cons_True
    by (cbn [snd]; destruct (get flight_data "from"); [contradiction | reflexivity]).
  split; [left|].
  cbn [mapping_get]. rewrite String.eqb_refl. cbn [truthy].
  destruct (get flight_data "from"); [contradiction | reflexivity].
Qed.

Lemma field_mapping_destination (flight_data : gmap string string) :
  get flight_data "to" <> EmptyString ->
  "destination" ∈ (field_mapping flight_data).*1 /\
  truthy (mapping_get (field_mapping flight_data) "destination") = true.
Proof.
  intros Hto. unfold field_mapping.
  assert (nonempty (get flight_data "to") = true) as Hne
    by (destruct (get flight_data "to"); [contradiction | reflexivity]).
  rewrite (filter_cons _ ("departure", _)).
  rewrite (filter_cons_True _ ("destination", _)) by exact Hne.
  cbn [snd]. destruct (decide (nonempty (get flight_data "from") = true)).
  - split; [right; left|].
    cbn [mapping_get]. change (String.eqb "departure" "destination") with false.
    cbn iota. rewrite String.eqb_refl. exact Hne.
  - split; [left|].
    cbn [mapping_get]. rewrite String.eqb_refl. exact Hne.
Qed.

Lemma all_required_filled_departure (mapping : list (string * string))
    (results : gmap string bool) :
  all_required_filled mapping results = true ->
  truthy (mapping_get mapping "departure") = true ->
  results !! "departure" = Some true.
Proof.
  unfold all_required_filled, required_fields. intros Hall Hdep.
  rewrite filter_cons_True in Hall by exact Hdep.
  cbn [forallb] in Hall. apply andb_true_iff in Hall as [Hall _].
  destruct (results !! "departure") as [[]|]; [reflexivity | discriminate..].
Qed.

Lemma all_required_filled_destination (mapping : list (string * string))
    (results : gmap string bool) :
  all_required_filled mapping results = true ->
  truthy (mapping_get mapping "destination") = true ->
  results !! "destination" = Some true.
Proof.
  unfold all_required_filled, required_fields. intros Hall Hdest.
  rewrite filter_cons, (filter_cons_True _ "destination") in Hall by exact Hdest.
  assert (default false (results !! "destination") = true) as Hres.
  { destruct (decide _); cbn [forallb] in Hall.
    - apply andb_true_iff in Hall as [_ Hall].
      now apply andb_true_iff in Hall as [Hall _].
    - now apply andb_true_iff in Hall as [Hall _]. }
  destruct (results !! "destination") as [[]|]; [reflexivity | discriminate..].
Qed.

Lemma all_required_filled_vacuous (flight_data : gmap string string)
    (results : gmap string bool) :
  get flight_data "from" = EmptyString ->
  get flight_data "to" = EmptyString ->
  all_required_filled (field_mapping flight_data) results = true.
Proof.
  intros Hfrom Hto. unfold all_required_filled, field_mapping.
  rewrite Hfrom, Hto.
  rewrite (filter_cons_False _ ("departure", _)) by discriminate.
  rewrite (filter_cons_False _ ("destination", _)) by discriminate.
  assert (forall key,
             key = "departure" \/ key = "destination" ->
             mapping_get
               (filter (fun item : string * string => nonempty item.2 = true)
                  [("date", get flight_data "departure_date");
                   ("email", get flight_data "email");
                   ("name", get flight_data "passenger_name")]) key = None) as Hget.
  { intros key Hkey.
    rewrite !filter_cons, filter_nil.
    repeat destruct (decide _); cbn [mapping_get];
      destruct Hkey as [-> | ->]; reflexivity. }
  unfold required_fields.
  rewrite (filter_cons_False _ "departure"), (filter_cons_False _ "destination"),
    filter_nil; [reflexivity|..];
    rewrite (Hget _); [discriminate | now right | discriminate | now left].
Qed.

Section FlightSearchOutcomes.
Context {P H : Type}.
Variable detection : P -> result (Document * (nat -> Z)) * P.
Variable evaluate_fill : Field -> string -> P -> result bool * P.
Variable wait_for_selector : string -> P -> result (option H) * P.
Variable click : H -> P -> result unit * P.

(** X18. [search_flights] answers [True] only when each required value
    that was given had a field to go to: with a non-empty "from" some
    detected field matches "departure", with a non-empty "to" some detected
    field matches "destination". *)
Theorem search_flights_true_has_required_fields
    (flight_data : gmap string string) (w w' : World)
    (Htrue : search_flights detection evaluate_fill wait_for_selector click
               flight_data w = (Ok true, w')) :
  (get flight_data "from" <> EmptyString ->
   matching_fields (detected_fields w') "departure" <> []) /\
  (get flight_data "to" <> EmptyString ->
   matching_fields (detected_fields w') "destination" <> []).
Proof.
  destruct (search_flights_steps detection evaluate_fill wait_for_selector click
              flight_data w)
    as (fields & w1 & results & w2 & clicked & w3 & _ & _ & Hresults & _
        & Hfields & Hrun).
  rewrite Hrun in Htrue.
  destruct (all_required_filled _ results) eqn:Hall; [|discriminate].
  injection Htrue as -> ->. rewrite Hfields.
  split.
  - intros Hfrom Hnone.
    destruct (field_mapping_departure flight_data Hfrom) as [Hkey Hgiven].
    pose proof (Hresults "departure" Hkey Hnone) as Hfalse.
    rewrite (all_required_filled_departure _ _ Hall Hgiven) in Hfalse.
    discriminate.
  - intros Hto Hnone.
    destruct (field_mapping_destination flight_data Hto) as [Hkey Hgiven].
    pose proof (Hresults "destination" Hkey Hnone) as Hfalse.
    rewrite (all_required_filled_destination _ _ Hall Hgiven) in Hfalse.
    discriminate.
Qed.

(** X19. With neither "from" nor "to" given, nothing is required:
    [search_flights] goes on to the search button whatever the fills
    returned, and its answer is the answer of [click_search_button]. *)
Theorem search_flights_without_required_data
    (flight_data : gmap string string) (w : World)
    (Hfrom : get flight_data "from" = EmptyString)
    (Hto : get flight_data "to" = EmptyString) :
  exists fields w1 results w2,
    detect_and_highlight_fields detection w = (Ok fields, w1) /\
    smart_field_fill detection evaluate_fill (field_mapping flight_data) w1
    = (Ok results, w2) /\
    search_flights detection evaluate_fill wait_for_selector click flight_data w
    = click_search_button wait_for_selector click w2.
Proof.
  destruct (search_flights_steps detection evaluate_fill wait_for_selector click
              flight_data w)
    as (fields & w1 & results & w2 & clicked & w3 & Hdetect & Hfill & _ & Hclick
        & _ & Hrun).
  exists fields, w1, results, w2.
  split; [exact Hdetect | split; [exact Hfill|]].
  rewrite Hrun, Hclick. now rewrite all_required_filled_vacuous.
Qed.

End FlightSearchOutcomes.

Lemma search_flights_true_has_required_fields_witness :
  (get {["from" := "LAX"]} "from" <> EmptyString ->
   matching_fields
     (detected_fields {| detected_fields := Examples.fields; page := 4%nat |})
     "departure" <> []) /\
  (get {["from" := "LAX"]} "to" <> EmptyString ->
   matching_fields
     (detected_fields {| detected_fields := Examples.fields; page := 4%nat |})
     "destination" <> []).
Proof.
  apply (search_flights_true_has_required_fields Examples.detection_ok
           Examples.evaluate_fill_by_id Samples.wait_submit Samples.click_ok
           {["from" := "LAX"]} Examples.fresh).
  vm_compute. reflexivity.
Defined.

Lemma search_flights_without_required_data_witness :
  exists fields w1 results w2,
    detect_and_highlight_fields Examples.detection_ok Examples.fresh
    = (Ok fields, w1) /\
    smart_field_fill Examples.detection_ok Examples.evaluate_fill_by_id
      (field_mapping ∅) w1
    = (Ok results, w2) /\
    search_flights Examples.detection_ok Examples.evaluate_fill_by_id
      Samples.wait_submit Samples.click_ok ∅ Examples.fresh
    = click_search_button Samples.wait_submit Samples.click_ok w2.
Proof.
  apply search_flights_without_required_data; reflexivity.
Defined.

(** With no data at all the search button is clicked. *)
Example search_flights_no_data :
  search_flights Examples.detection_ok Examples.evaluate_fill_by_id
    Samples.wait_submit Samples.click_ok ∅ Examples.fresh
  = (Ok true, {| detected_fields := Examples.fields; page := 3%nat |}).
Proof. vm_compute. reflexivity. Qed.

(** ** More on the task bridge *)

Import BridgeProps.

Lemma starts_with_app (p s : string) : starts_with p (p +:+ s) = true.
Proof. apply starts_with_spec. now exists s. Qed.

(** X20. The text handed to the agent contains the task word for word and
    is never empty; with a URL it starts with "Navigate to " and the URL,
    without one it starts with the task. *)
Theorem enhance_task_description_keeps_task (task url : string) :
  Substring task (enhance_task_description task url) /\
  enhance_task_description task url <> EmptyString /\
  (url <> EmptyString ->
   starts_with ("Navigate to " +:+ url) (enhance_task_description task url) = true) /\
  (url = EmptyString ->
   starts_with task (enhance_task_description task url) = true).
Proof.
  unfold enhance_task_description.
  split; [|split; [|split]].
  - destruct (nonempty url).
    + rewrite !app_assoc. do 5 apply Substring_app_r. apply Substring_app_l.
      exists EmptyString, EmptyString. now rewrite app_nil_l, app_empty_r.
    + apply Substring_app_l. exists EmptyString, EmptyString.
      now rewrite app_nil_l, app_empty_r.
  - intros Hempty. apply (f_equal String.length) in Hempty.
    rewrite !length_app in Hempty. cbn [String.length nl] in Hempty. lia.
  - intros Hurl. destruct url as [|c url]; [contradiction|]. cbn [nonempty].
    rewrite !app_assoc. rewrite <- (app_assoc "Navigate to " (String c url)).
    apply starts_with_app.
  - intros ->. cbn [nonempty]. apply starts_with_app.
Qed.

(** [execute_task] writes one line and returns, unless the task is lost:
    then it writes nothing, and returns or never does. *)
Lemma execute_task_cases (timestamp : string)
    (create : string -> Z -> option exn) (run : string -> Run)
    (task_data : TaskData) :
  (exists line, execute_task timestamp create run task_data = Returns [line] /\
                ~ Lost create run task_data) \/
  ((execute_task timestamp create run task_data = Returns [] \/
    execute_task timestamp create run task_data = Never []) /\
   Lost create run task_data).
Proof.
  destruct (TaskGiven_dec task_data) as [Hgiven|Hmissing].
  2:{ left. rewrite execute_task_not_given by exact Hmissing.
      eexists. split; [reflexivity|]. now intros [Hgiven _]. }
  rewrite (execute_task_given _ _ _ _ Hgiven).
  destruct (create _ _) as [e|] eqn:Hcreate.
  { left. rewrite report_fault_message. eexists. split; [reflexivity|].
    intros (_ & Hnone & _). congruence. }
  pose proof (wait_for_delivers (run (enhanced task_data)) (deadline task_data))
    as Hdelivers.
  pose proof (wait_for_never (run (enhanced task_data)) (deadline task_data))
    as Hnever.
  assert (forall answer,
             wait_for (run (enhanced task_data)) (deadline task_data)
             = Some answer ->
             (forall r, answer = Ok r -> encodable_data (process_result r) = true) ->
             ~ Lost create run task_data) as Hkept.
  { intros answer Hwait Hencodable (_ & _ & [Hno|(r & Hr & Henc)]).
    - apply Hnever in Hno. congruence.
    - apply Hdelivers in Hr. rewrite Hr in Hwait. injection Hwait as <-.
      specialize (Hencodable r eq_refl). congruence. }
  destruct (wait_for _ _) as [[r|[msg|msg]]|] eqn:Hwait.
  - unfold send_response, encodable_response. cbn [response r_data].
    destruct (encodable_data (process_result r)) eqn:Henc.
    + left. eexists. split; [reflexivity|].
      apply (Hkept _ eq_refl). now intros r' [= <-].
    + right. split; [now left|].
      split; [exact Hgiven | split; [exact Hcreate|]].
      right. exists r. split; [now apply Hdelivers | exact Henc].
  - left. eexists. split; [reflexivity|]. apply (Hkept _ eq_refl). discriminate.
  - left. rewrite report_fault_message. eexists. split; [reflexivity|].
    apply (Hkept _ eq_refl). discriminate.
  - right. split; [now right|].
    split; [exact Hgiven | split; [exact Hcreate|]]. left. now apply Hnever.
Qed.

Section BridgeOutcomes.
Variable timestamp : string.
Variables create_agent create_agent' : string -> Z -> option exn.
Variables agent_run agent_run' : string -> Run.

(** X21. The deadline is never more than 90 seconds: when the task is
    given and the agent is made, a run that stops when it is cancelled and
    that takes more than 90 seconds, or would never end if left alone, is
    reported as timed out whatever timeout the request asked for, and the
    report names the shorter of the two. *)
Theorem run_longer_than_90_times_out
    (task_data : TaskData)
    (Hgiven : TaskGiven task_data)
    (Hcreated : create_agent (enhanced task_data) (deadline task_data) = None)
    (Hlong : DeadlineElapses (agent_run (enhanced task_data)) 90)
    (Hstops : StopsWhenCancelled (agent_run (enhanced task_data))) :
  deadline task_data <= 90 /\
  execute_task timestamp create_agent agent_run task_data
  = Returns [response timestamp "error"
               (Some (timeout_message (deadline task_data))) None].
Proof.
  split; [unfold deadline; lia|].
  rewrite (execute_task_given _ _ _ _ Hgiven), Hcreated.
  rewrite wait_for_deadline; [reflexivity| |exact Hstops].
  destruct (agent_run (enhanced task_data)) as [seconds outcome| |alone caught];
    [|exact I|contradiction].
  cbn [DeadlineElapses] in *.
  apply Qle_lt_trans with (inject_Z 90); [|exact Hlong].
  rewrite <- Zle_Qle. unfold deadline. lia.
Qed.

(** X22. A [TimeoutError] that the run itself raises, however early, is
    reported like an elapsed deadline: the report says that the task timed
    out after the whole deadline and drops the message of the fault. *)
Theorem own_timeout_reported_as_deadline
    (task_data : TaskData) (seconds : Q) (msg : string)
    (Hgiven : TaskGiven task_data)
    (Hcreated : create_agent (enhanced task_data) (deadline task_data) = None)
    (Hraises : agent_run (enhanced task_data)
               = Finishes seconds (Raise (TimeoutError msg))) :
  execute_task timestamp create_agent agent_run task_data
  = Returns [response timestamp "error"
               (Some (timeout_message (deadline task_data))) None].
Proof.
  rewrite (execute_task_given _ _ _ _ Hgiven), Hcreated, Hraises.
  unfold wait_for. now destruct (Qle_bool _ seconds).
Qed.

(** X23. Without a task, or with an empty one, no agent is made and no run
    is started: the answer is the error "Task description is required"
    whatever the agent would do. *)
Theorem missing_task_starts_nothing
    (task_data : TaskData) (Hmissing : ~ TaskGiven task_data) :
  execute_task timestamp create_agent agent_run task_data
  = Returns [response timestamp "error" (Some "Task description is required")
               None] /\
  execute_task timestamp create_agent' agent_run' task_data
  = execute_task timestamp create_agent agent_run task_data.
Proof.
  rewrite !execute_task_not_given by exact Hmissing. now split.
Qed.

(** X24. [execute_task] writes a response of type "success" exactly when
    the task is given, the agent is made, the run hands a result to the
    caller, before the deadline or after it caught the cancellation, and the
    processed result can be encoded.  It never returns exactly when the run
    catches the cancellation and never ends.  It writes exactly one line
    unless the task is lost: the run never ends, or its result cannot be
    encoded.  It raises nothing, writes one line at most, and a line it
    writes has type "success" or "error". *)
Theorem success_iff_result_delivered (task_data : TaskData) :
  ((exists line,
       execute_task timestamp create_agent agent_run task_data = Returns [line])
   <-> ~ Lost create_agent agent_run task_data) /\
  ((exists line,
       execute_task timestamp create_agent agent_run task_data = Returns [line] /\
       r_type line = "success") <->
   TaskGiven task_data /\
   create_agent (enhanced task_data) (deadline task_data) = None /\
   exists r,
     Delivers (agent_run (enhanced task_data)) (deadline task_data) r /\
     encodable_data (process_result r) = true) /\
  (execute_task timestamp create_agent agent_run task_data = Never [] <->
   TaskGiven task_data /\
   create_agent (enhanced task_data) (deadline task_data) = None /\
   NeverEnds (agent_run (enhanced task_data)) (deadline task_data)) /\
  (forall lines e,
      execute_task timestamp create_agent agent_run task_data <> Raises lines e) /\
  (length (written (execute_task timestamp create_agent agent_run task_data))
   <= 1)%nat /\
  (forall line,
      line ∈ written (execute_task timestamp create_agent agent_run task_data) ->
      r_type line = "success" \/ r_type line = "error").
Proof.
  split.
  { destruct (execute_task_cases timestamp create_agent agent_run task_data)
      as [(line & -> & Hkept)|[[-> | ->] Hlost]].
    - split; [now intros _ | eauto].
    - split; [intros (line & [=]) | tauto].
    - split; [intros (line & [=]) | tauto]. }
  destruct (TaskGiven_dec task_data) as [Hgiven|Hmissing].
  2:{ rewrite execute_task_not_given by exact Hmissing.
      split; [|split; [|split; [|split]]].
      - split; [intros (line & [= <-] & Htype); discriminate Htype | tauto].
      - split; [discriminate | tauto].
      - discriminate.
      - cbn. lia.
      - intros line Hin. apply list_elem_of_singleton in Hin as ->. now right. }
  rewrite (execute_task_given _ _ _ _ Hgiven).
  destruct (create_agent _ _) as [e|] eqn:Hcreate.
  { rewrite report_fault_message. split; [|split; [|split; [|split]]].
    - split; [intros (line & [= <-] & Htype); discriminate Htype|].
      intros (_ & [=] & _).
    - split; [discriminate | intros (_ & [=] & _)].
    - discriminate.
    - cbn. lia.
    - intros line Hin. apply list_elem_of_singleton in Hin as ->. now right. }
  pose proof (wait_for_delivers (agent_run (enhanced task_data))
                (deadline task_data)) as Hdelivers.
  pose proof (wait_for_never (agent_run (enhanced task_data))
                (deadline task_data)) as Hnever.
  destruct (wait_for _ _) as [[r|[msg|msg]]|].
  - split; [|split; [|split; [|split]]].
    + unfold send_response, encodable_response. cbn [response r_data].
      destruct (encodable_data (process_result r)) eqn:Henc.
      * split; [|intros _; eexists; split; reflexivity].
        intros _. split; [exact Hgiven | split; [reflexivity|]].
        exists r. split; [now apply Hdelivers | exact Henc].
      * split; [intros (line & [=] & _)|].
        intros (_ & _ & r' & Hr' & Henc').
        apply Hdelivers in Hr'. injection Hr' as <-. congruence.
    + split; [discriminate|]. intros (_ & _ & Hno). apply Hnever in Hno.
      discriminate Hno.
    + discriminate.
    + apply send_response_length.
    + intros line Hin%send_response_type. now left.
  - split; [|split; [|split; [|split]]].
    + split; [intros (line & [= <-] & Htype); discriminate Htype|].
      intros (_ & _ & r & Hr & _). apply Hdelivers in Hr. discriminate Hr.
    + split; [discriminate|]. intros (_ & _ & Hno). apply Hnever in Hno.
      discriminate Hno.
    + discriminate.
    + cbn. lia.
    + intros line Hin. apply list_elem_of_singleton in Hin as ->. now right.
  - rewrite report_fault_message. split; [|split; [|split; [|split]]].
    + split; [intros (line & [= <-] & Htype); discriminate Htype|].
      intros (_ & _ & r & Hr & _). apply Hdelivers in Hr. discriminate Hr.
    + split; [discriminate|]. intros (_ & _ & Hno). apply Hnever in Hno.
      discriminate Hno.
    + discriminate.
    + cbn. lia.
    + intros line Hin. apply list_elem_of_singleton in Hin as ->. now right.
  - split; [|split; [|split; [|split]]].
    + split; [intros (line & [=] & _)|].
      intros (_ & _ & r & Hr & _). apply Hdelivers in Hr. discriminate Hr.
    + split; [|reflexivity]. intros _.
      split; [exact Hgiven | split; [reflexivity | now apply Hnever]].
    + discriminate.
    + cbn. lia.
    + intros line Hin. inversion Hin.
Qed.

(** X25. When the constructor of the agent raises, the run is never started
    and the fault goes to the fault handler; this holds for a [TimeoutError]
    too, which is then classified by its words and not reported as a timed
    out task. *)
Theorem constructor_fault_reported
    (task_data : TaskData) (e : exn)
    (Hgiven : TaskGiven task_data)
    (Hraises : create_agent (enhanced task_data) (deadline task_data) = Some e) :
  execute_task timestamp create_agent agent_run task_data
  = Returns (report_fault timestamp e) /\
  execute_task timestamp create_agent agent_run' task_data
  = Returns (report_fault timestamp e) /\
  report_fault timestamp e
  = [response timestamp "error"
       (Some (if mentions_bot_detection e then bot_detection_message e else str e))
       None].
Proof.
  rewrite !(execute_task_given _ _ _ _ Hgiven), Hraises.
  split; [reflexivity | split; [reflexivity|]].
  apply report_fault_message.
Qed.

End BridgeOutcomes.

(** ** The host side of the bridge *)

Import Host HostProps.

Section InitializeFacts.
Variable stamp : string.
Variables openai_key anthropic_key anthropic_key' : option string.
Variable make_openai : string -> option exn.
Variables load_anthropic load_anthropic' : option exn.
Variables make_anthropic make_anthropic' : string -> option exn.

(** X26. [initialize_llm] leaves the bridge without a model exactly when it
    sends an error response, and then it sends one.  A non-empty
    OPENAI_API_KEY decides alone: the Anthropic key is not looked at, and
    when the OpenAI constructor raises there is no second try with
    Anthropic. *)
Theorem initialize_llm_outcomes :
  let init := initialize_llm stamp openai_key anthropic_key make_openai
                load_anthropic make_anthropic in
  (init.1 = None <-> init.2 <> []) /\
  (length init.2 <= 1)%nat /\
  (truthy openai_key = true ->
   init = initialize_llm stamp openai_key anthropic_key' make_openai
            load_anthropic' make_anthropic') /\
  (forall key e,
      openai_key = Some key -> key <> EmptyString -> make_openai key = Some e ->
      init = (None, [response stamp "error"
                       (Some ("Failed to initialize LLM: " +:+ str e)) None])).
Proof.
  cbn zeta. unfold initialize_llm, choose_llm.
  split; [|split; [|split]].
  - destruct openai_key as [[|c key]|]; [| destruct (make_openai _) |];
      try (destruct anthropic_key as [[|c' key']|];
           [| destruct load_anthropic; [|destruct (make_anthropic _)] |]);
      cbn; split; intros; congruence.
  - destruct openai_key as [[|c key]|]; [| destruct (make_openai _) |];
      try (destruct anthropic_key as [[|c' key']|];
           [| destruct load_anthropic; [|destruct (make_anthropic _)] |]);
      cbn; lia.
  - destruct openai_key as [[|c key]|]; try discriminate. reflexivity.
  - intros key e -> Hne Hraise. destruct key as [|c key]; [contradiction|].
    now rewrite Hraise.
Qed.

End InitializeFacts.

(** ** One message *)

Lemma test_connection_cases (w : World) :
  (exists line, test_connection w = Returns [line] /\
                ~ exists model, llm w = Some model /\ ainvoke w model = Silent) \/
  (test_connection w = Never [] /\
   exists model, llm w = Some model /\ ainvoke w model = Silent).
Proof.
  unfold test_connection. destruct (llm w) as [model|].
  2:{ left. eexists. split; [reflexivity|]. intros (model & [=] & _). }
  destruct (ainvoke w model) eqn:Hreply.
  - left. eexists. split; [reflexivity|]. intros (model' & [= <-] & H). congruence.
  - left. eexists. split; [reflexivity|]. intros (model' & [= <-] & H). congruence.
  - right. split; [reflexivity | eauto].
Qed.

Lemma type_of_message (message : Message) (type : string) :
  type <> EmptyString ->
  default EmptyString (m_type message) = type <-> m_type message = Some type.
Proof.
  intros Hne. destruct (m_type message) as [t|]; cbn; split; congruence.
Qed.

(** [handle_message] writes one line and returns, unless the message gets no
    answer: then it writes nothing, and returns or never does. *)
Lemma handle_message_cases (w : World) (json : Json) :
  (exists line, handle_message w json = Returns [line] /\
                ~ Unanswered w json) \/
  ((handle_message w json = Returns [] \/ handle_message w json = Never []) /\
   Unanswered w json).
Proof.
  unfold handle_message, dispatch.
  destruct json as [message|no_get].
  2:{ left. eexists. split; [reflexivity|]. intros (message & [=] & _). }
  destruct (String.eqb_spec (default EmptyString (m_type message)) "execute_task")
    as [Htype|Hnot_task].
  { apply type_of_message in Htype; [|discriminate].
    destruct (execute_task_cases (timestamp w) (create_agent w) (agent_run w)
                (default no_task_data (m_data message)))
      as [(line & -> & Hkept)|[Hrun Hlost]].
    - left. exists line. split; [reflexivity|].
      intros (message' & [= <-] & [[_ Hlost]|[Htest _]]); [tauto | congruence].
    - right. split.
      + destruct Hrun as [-> | ->]; [now left | now right].
      + exists message. split; [reflexivity|]. left. now split. }
  destruct (String.eqb_spec (default EmptyString (m_type message)) "test")
    as [Htype|Hnot_test].
  { apply type_of_message in Htype; [|discriminate].
    destruct (test_connection_cases w) as [(line & -> & Hanswers)|[-> Hsilent]].
    - left. exists line. split; [reflexivity|].
      intros (message' & [= <-] & [[Htask _]|[_ Hsilent]]); [congruence | tauto].
    - right. split; [now right|].
      exists message. split; [reflexivity|]. right. now split. }
  assert (~ Unanswered w (JObject message)) as Hanswered.
  { intros (message' & [= <-] & [[Htask _]|[Htest _]]).
    - apply Hnot_task. now apply type_of_message.
    - apply Hnot_test. now apply type_of_message. }
  destruct (String.eqb _ "ping"); left; eexists; (split; [reflexivity | exact Hanswered]).
Qed.

(** The message asks for no task to be run, or gives none. *)
Lemma handle_message_starts_nothing (w w' : World) (json : Json) :
  timestamp w' = timestamp w -> llm w' = llm w -> ainvoke w' = ainvoke w ->
  (forall message,
      json = JObject message ->
      m_type message = Some "execute_task" ->
      ~ TaskGiven (default no_task_data (m_data message))) ->
  handle_message w' json = handle_message w json.
Proof.
  intros Hstamp Hllm Hinvoke Hno. unfold handle_message, dispatch.
  destruct json as [message|no_get]; rewrite Hstamp; [|reflexivity].
  destruct (String.eqb_spec (default EmptyString (m_type message)) "execute_task")
    as [Htype|_].
  - apply type_of_message in Htype; [|discriminate].
    rewrite !execute_task_not_given by (now apply Hno). reflexivity.
  - unfold test_connection. now rewrite Hstamp, Hllm, Hinvoke.
Qed.

(** X27. [handle_message] raises nothing and writes one line at most.  It
    answers with exactly one line unless the message gets no answer: it
    starts a task whose run never ends or whose result cannot be encoded, or
    it tests a model that never answers.  A message of another type, a value
    that is not an object, a task request without a task and a test without
    a model are thus all answered once.  When the method does not return, it
    has written nothing.  Unless the message has type "execute_task" and
    carries a non-empty task, the agent plays no part in the answer. *)
Theorem handle_message_answers_at_most_once (w : World) (json : Json)
    (create : string -> Z -> option exn) (run : string -> Run) :
  (forall lines e, handle_message w json <> Raises lines e) /\
  (length (written (handle_message w json)) <= 1)%nat /\
  ((exists line, handle_message w json = Returns [line]) <->
   ~ Unanswered w json) /\
  (forall lines, handle_message w json = Never lines -> lines = []) /\
  ((forall message,
       json = JObject message ->
       m_type message = Some "execute_task" ->
       ~ TaskGiven (default no_task_data (m_data message))) ->
   handle_message
     {| timestamp := timestamp w; llm := llm w; ainvoke := ainvoke w;
        create_agent := create; agent_run := run |} json
   = handle_message w json).
Proof.
  split; [|split; [|split; [|split]]].
  - intros lines e.
    destruct (handle_message_cases w json)
      as [(line & -> & _)|[[-> | ->] _]]; discriminate.
  - destruct (handle_message_cases w json)
      as [(line & -> & _)|[[-> | ->] _]]; cbn; lia.
  - destruct (handle_message_cases w json)
      as [(line & -> & Hanswered)|[[-> | ->] Hnone]].
    + split; [now intros _ | eauto].
    + split; [intros (line & [=]) | tauto].
    + split; [intros (line & [=]) | tauto].
  - intros lines.
    destruct (handle_message_cases w json)
      as [(line & -> & _)|[[-> | ->] _]]; [discriminate.. |].
    now intros [= <-].
  - intros Hno. now apply handle_message_starts_nothing.
Qed.

(** ** The loop *)

Section RunFacts.
Variable json_loads : string -> result Json.
Variable world : nat -> World.
Variable started : string.

Lemma answer_cases (k : nat) (line : string) :
  (exists lines, answer json_loads world k line = Returns lines /\
                 (length lines <= if blank line then 0 else 1)%nat) \/
  (answer json_loads world k line = Never [] /\ blank line = false).
Proof.
  unfold answer. destruct (blank line); [left; eexists; split; [reflexivity | cbn; lia]|].
  destruct (json_loads line) as [json|e];
    [|left; eexists; split; [reflexivity | cbn; lia]].
  destruct (handle_message_cases (world k) json)
    as [(response & -> & _)|[[-> | ->] _]].
  - left. eexists. split; [reflexivity | cbn; lia].
  - left. eexists. split; [reflexivity | cbn; lia].
  - right. now split.
Qed.

Lemma answer_one (k : nat) (line : string) :
  blank line = false ->
  (forall json, json_loads line = Ok json -> ~ Unanswered (world k) json) ->
  exists response, answer json_loads world k line = Returns [response].
Proof.
  intros Hblank Hanswered. unfold answer. rewrite Hblank.
  destruct (json_loads line) as [json|e]; [|eauto].
  destruct (handle_message_cases (world k) json)
    as [(response & -> & _)|[_ Hnone]]; [eauto|].
  now apply Hanswered in Hnone.
Qed.

(** The loop raises nothing, and writes one line at most for each line that
    is not blank. *)
Lemma answer_each_cases (k : nat) (lines : list string) :
  exists answers,
    (answer_each json_loads world k lines = Returns answers \/
     answer_each json_loads world k lines = Never answers) /\
    (length answers <= length (filter (fun line => blank line = false) lines))%nat.
Proof.
  revert k. induction lines as [|line lines IH]; intros k.
  - exists []. split; [now left | cbn; lia].
  - cbn [answer_each]. rewrite filter_cons.
    destruct (answer_cases k line) as [(ls & -> & Hlen)|[-> Hblank]].
    + destruct (IH (S k)) as (answers & [->| ->] & Hrest);
        exists (ls ++ answers); cbn [and_then after];
        (split; [tauto|]); rewrite List.length_app;
        destruct (blank line);
        [rewrite decide_False by discriminate | rewrite decide_True by reflexivity
        |rewrite decide_False by discriminate | rewrite decide_True by reflexivity];
        cbn [length]; lia.
    + exists []. split; [now right | cbn; lia].
Qed.

Lemma answer_each_app (k : nat) (lines more : list string) :
  exists rest,
    written (answer_each json_loads world k (lines ++ more))
    = written (answer_each json_loads world k lines) ++ rest /\
    (forall answers,
        answer_each json_loads world k lines = Returns answers ->
        rest = written (answer_each json_loads world (k + length lines) more)).
Proof.
  revert k. induction lines as [|line lines IH]; intros k.
  - cbn [app answer_each written length]. rewrite Nat.add_0_r. eexists.
    split; [reflexivity|]. now intros.
  - cbn [app answer_each length].
    destruct (answer json_loads world k line) as [ls|ls e|ls] eqn:Hline;
      cbn [and_then].
    + destruct (IH (S k)) as (rest & Happ & Hrest). exists rest.
      replace (k + S (length lines))%nat with (S k + length lines)%nat by lia.
      split.
      * destruct (answer_each json_loads world (S k) (lines ++ more)),
          (answer_each json_loads world (S k) lines);
          cbn [after written] in *; rewrite Happ; now rewrite List.app_assoc.
      * intros answers Hreturns. apply (Hrest (drop (length ls) answers)).
        destruct (answer_each json_loads world (S k) lines) as [tail|tail e|tail];
          cbn [after] in Hreturns; [|discriminate..].
        injection Hreturns as <-. now rewrite drop_app_length.
    + exists []. split; [now rewrite List.app_nil_r | discriminate].
    + exists []. split; [now rewrite List.app_nil_r | discriminate].
Qed.

(** When every message gets its answer, every line that is not blank is
    answered once. *)
Lemma answer_each_all (k : nat) (lines : list string) :
  (forall i line json,
      lines !! i = Some line -> json_loads line = Ok json ->
      ~ Unanswered (world (k + i)) json) ->
  exists answers,
    answer_each json_loads world k lines = Returns answers /\
    length answers = length (filter (fun line => blank line = false) lines).
Proof.
  revert k. induction lines as [|line lines IH]; intros k Hanswered.
  - now exists [].
  - cbn [answer_each]. rewrite filter_cons.
    destruct (IH (S k)) as (answers & -> & Hlen).
    { intros i l json Hl. replace (S k + i)%nat with (k + S i)%nat by lia.
      now apply (Hanswered (S i)). }
    destruct (blank line) eqn:Hblank.
    + rewrite decide_False by discriminate.
      unfold answer. rewrite Hblank. now exists answers.
    + rewrite decide_True by reflexivity.
      destruct (answer_one k line Hblank) as [response ->].
      { intros json. specialize (Hanswered 0%nat line json eq_refl).
        now rewrite Nat.add_0_r in Hanswered. }
      exists (response :: answers). split; [reflexivity | cbn [length]; lia].
Qed.

(** X28. The bridge writes the ready signal first and then one response at
    most for every line that is not blank, in the order of the lines; it
    raises nothing.  What was written for earlier lines does not depend on
    the lines that follow.  A line that is not valid JSON is answered with
    an error and does not stop the loop.  When every message gets its
    answer, that is when no line starts a task whose run never ends or
    whose result cannot be encoded and none tests a model that never
    answers, the bridge returns after exactly one response for every line
    that is not blank. *)
Theorem run_answers_each_line (lines : list string) (line : string) :
  (exists answers,
      written (run json_loads world started lines)
      = response started "ready" (Some "Browser-use bridge is ready") None
        :: answers /\
      (length answers
       <= length (filter (fun l => blank l = false) lines))%nat) /\
  (forall written e, run json_loads world started lines <> Raises written e) /\
  (exists more,
      written (run json_loads world started (lines ++ [line]))
      = written (run json_loads world started lines) ++ more) /\
  (forall e, blank line = false -> json_loads line = Raise e ->
     answer json_loads world (length lines) line
     = Returns [response (timestamp (world (length lines))) "error"
                  (Some ("Invalid JSON: " +:+ str e)) None]) /\
  ((forall i l json,
       lines !! i = Some l -> json_loads l = Ok json ->
       ~ Unanswered (world i) json) ->
   exists answers,
     run json_loads world started lines
     = Returns (response started "ready" (Some "Browser-use bridge is ready")
                  None :: answers) /\
     length answers = length (filter (fun l => blank l = false) lines)).
Proof.
  unfold run. rewrite send_response_message.
  split; [|split; [|split; [|split]]].
  - destruct (answer_each_cases 0 lines) as (answers & [->| ->] & Hlen);
      now exists answers.
  - intros ls e.
    destruct (answer_each_cases 0 lines) as (answers & [->| ->] & _); discriminate.
  - destruct (answer_each_app 0 lines [line]) as (rest & Happ & _).
    exists rest.
    destruct (answer_each json_loads world 0 (lines ++ [line])),
      (answer_each json_loads world 0 lines);
      cbn [catch after written app] in *; rewrite ?List.app_nil_r in *;
      now rewrite Happ.
  - intros e Hblank Hparse. unfold answer. now rewrite Hblank, Hparse.
  - intros Hanswered.
    destruct (answer_each_all 0 lines Hanswered) as (answers & -> & Hlen).
    now exists answers.
Qed.

End RunFacts.

(** X29. Started with no usable API key, the bridge first reports that the
    model could not be initialised, then signals ready and serves requests
    all the same, with one response at most for every line that is not
    blank; every "test" request is then answered with the error
    "LLM not initialized". *)
Theorem main_without_api_key
    (constructed started : string) (openai_key anthropic_key : option string)
    (make_openai make_anthropic : string -> option exn) (load_anthropic : option exn)
    (json_loads : string -> result Json) (world : nat -> World)
    (lines : list string)
    (Hopenai : truthy openai_key = false)
    (Hanthropic : truthy anthropic_key = false) :
  (exists answers,
      written (main constructed openai_key anthropic_key make_openai
                 load_anthropic make_anthropic json_loads world started lines)
      = response constructed "error"
          (Some ("Failed to initialize LLM: " +:+
                 "No API key found. Please set OPENAI_API_KEY or ANTHROPIC_API_KEY"))
          None
        :: response started "ready" (Some "Browser-use bridge is ready") None
        :: answers /\
      (length answers <= length (filter (fun l => blank l = false) lines))%nat) /\
  (forall k line message,
      blank line = false ->
      json_loads line = Ok (JObject message) ->
      m_type message = Some "test" ->
      answer json_loads (fun k => with_llm None (world k)) k line
      = Returns [response (timestamp (world k)) "test_error"
                   (Some "Browser-use test failed: LLM not initialized") None]).
Proof.
  assert (initialize_llm constructed openai_key anthropic_key make_openai
            load_anthropic make_anthropic
          = (None,
             [response constructed "error"
                (Some ("Failed to initialize LLM: " +:+
                       "No API key found. Please set OPENAI_API_KEY or ANTHROPIC_API_KEY"))
                None])) as Hinit.
  { unfold initialize_llm, choose_llm.
    destruct openai_key as [[|c key]|]; try discriminate;
      destruct anthropic_key as [[|c' key']|]; try discriminate; reflexivity. }
  split.
  - unfold main. rewrite Hinit. unfold run. rewrite send_response_message.
    destruct (answer_each_cases json_loads (fun k => with_llm None (world k))
                0 lines) as (answers & [->| ->] & Hlen);
      now exists answers.
  - intros k line message Hblank Hparse Htype.
    unfold answer. rewrite Hblank, Hparse.
    unfold handle_message, dispatch. rewrite Htype. reflexivity.
Qed.

Lemma main_without_api_key_witness :
  exists answers,
    written (main "t0" None (Some EmptyString) (fun _ => None) None (fun _ => None)
               Samples.parse Samples.quiet_world "t1"
               ["ping"; "   "; "{oops"; "test"])
    = response "t0" "error"
        (Some ("Failed to initialize LLM: " +:+
               "No API key found. Please set OPENAI_API_KEY or ANTHROPIC_API_KEY"))
        None
      :: response "t1" "ready" (Some "Browser-use bridge is ready") None
      :: answers /\
    (length answers
     <= length (filter (fun l => blank l = false)
                       ["ping"; "   "; "{oops"; "test"]))%nat.
Proof.
  refine (proj1 (main_without_api_key "t0" "t1" None (Some EmptyString)
                   (fun _ => None) (fun _ => None) None
                   Samples.parse Samples.quiet_world
                   ["ping"; "   "; "{oops"; "test"] _ _)); reflexivity.
Defined.

(** Four lines, one of them blank and one malformed: three answers after
    the two opening responses. *)
Example main_sample :
  map (fun r => (r_type r, r_message r))
    (written
       (main "t0" None (Some EmptyString) (fun _ => None) None (fun _ => None)
          Samples.parse Samples.quiet_world "t1"
          ["ping"; "   "; "{oops"; "test"]))
  = [ ("error",
       Some "Failed to initialize LLM: No API key found. Please set OPENAI_API_KEY or ANTHROPIC_API_KEY");
      ("ready", Some "Browser-use bridge is ready");
      ("pong", Some "Bridge is alive");
      ("error", Some "Invalid JSON: Expecting value: line 1 column 1 (char 0)");
      ("test_error", Some "Browser-use test failed: LLM not initialized") ].
Proof. vm_compute. reflexivity. Qed.

(** A task whose run never ends stops the loop: the lines after it are not
    answered. *)
Example main_stuck :
  main "t0" (Some "sk-test") None (fun _ => None) None (fun _ => None)
    Samples.parse Samples.stuck_world "t1" ["ping"; "run"; "ping"]
  = Never [response "t1" "ready" (Some "Browser-use bridge is ready") None;
           response "0" "pong" (Some "Bridge is alive") None].
Proof. vm_compute. reflexivity. Qed.

(** ** Witnesses for the outcomes of a task *)

Lemma run_longer_than_90_times_out_witness :
  deadline {| td_task := Some "Find flights"; td_url := None;
              td_timeout := Some 500 |} <= 90 /\
  execute_task "t" Examples.create_ok Examples.run_slow_captcha
    {| td_task := Some "Find flights"; td_url := None; td_timeout := Some 500 |}
  = Returns [response "t" "error"
               (Some (timeout_message
                        (deadline {| td_task := Some "Find flights";
                                     td_url := None;
                                     td_timeout := Some 500 |}))) None].
Proof.
  apply run_longer_than_90_times_out.
  - exists "Find flights". split; [reflexivity | discriminate].
  - reflexivity.
  - vm_compute. reflexivity.
  - exact I.
Defined.

Lemma own_timeout_reported_as_deadline_witness :
  execute_task "t" Examples.create_ok
    (fun _ => Finishes 1 (Raise (TimeoutError "Timeout 30000ms exceeded.")))
    Examples.search_task
  = Returns [response "t" "error"
               (Some (timeout_message (deadline Examples.search_task))) None].
Proof.
  apply (own_timeout_reported_as_deadline "t" Examples.create_ok _
           Examples.search_task 1 "Timeout 30000ms exceeded.").
  - exists "Find flights from LAX to JFK". split; [reflexivity | discriminate].
  - reflexivity.
  - reflexivity.
Defined.

Lemma missing_task_starts_nothing_witness :
  execute_task "t" Examples.create_ok Examples.run_done
    {| td_task := Some EmptyString; td_url := None; td_timeout := None |}
  = Returns [response "t" "error" (Some "Task description is required") None] /\
  execute_task "t" (fun _ _ => Some (Exception "no browser")) Examples.run_captcha
    {| td_task := Some EmptyString; td_url := None; td_timeout := None |}
  = execute_task "t" Examples.create_ok Examples.run_done
      {| td_task := Some EmptyString; td_url := None; td_timeout := None |}.
Proof.
  apply missing_task_starts_nothing.
  intros (task & Htask & Hne). injection Htask as <-. now apply Hne.
Defined.

Lemma constructor_fault_reported_witness :
  execute_task "t" (fun _ _ => Some (TimeoutError "browser launch timed out"))
    Examples.run_done Examples.search_task
  = Returns (report_fault "t" (TimeoutError "browser launch timed out")) /\
  execute_task "t" (fun _ _ => Some (TimeoutError "browser launch timed out"))
    Examples.run_captcha Examples.search_task
  = Returns (report_fault "t" (TimeoutError "browser launch timed out")) /\
  report_fault "t" (TimeoutError "browser launch timed out")
  = [response "t" "error"
       (Some (if mentions_bot_detection (TimeoutError "browser launch timed out")
              then bot_detection_message (TimeoutError "browser launch timed out")
              else str (TimeoutError "browser launch timed out")))
       None].
Proof.
  apply constructor_fault_reported.
  - exists "Find flights from LAX to JFK". split; [reflexivity | discriminate].
  - reflexivity.
Defined.

(** ** The fill script *)

Import FillScript.

(** X30. The fill script looks the element up by id, then by name, then by
    placeholder, and stops at the first that resolves.  A field that has
    none of the three is never filled, whatever the document holds.  A field
    whose id resolves is filled without any query by name or placeholder.
    When the id gives nothing and the name resolves, the element found by
    name is filled whatever a query by placeholder would give; a query by
    name that raises ends the script.  The placeholder is queried only when
    id and name gave nothing.  Whenever the script answers [true] it has
    done exactly four things to one element: focus, set the value, dispatch
    "input", dispatch "change"; when it answers [false] it has done
    nothing. *)
Theorem fill_script_outcomes (dom : Dom) (fieldData : Field) (value : string) :
  (truthy (a_id (attributes fieldData)) = false ->
   truthy (a_name (attributes fieldData)) = false ->
   truthy (a_placeholder (attributes fieldData)) = false ->
   fill_script dom fieldData value = Ok (false, [])) /\
  (forall text node query,
      a_id (attributes fieldData) = Some text -> text <> EmptyString ->
      getElementById dom text = Some node ->
      fill_script {| getElementById := getElementById dom; querySelector := query |}
        fieldData value
      = Ok (true, [Focus node; SetValue node value;
                   Dispatch node "input"; Dispatch node "change"])) /\
  (forall name found,
      by_id dom fieldData = None ->
      a_name (attributes fieldData) = Some name -> name <> EmptyString ->
      querySelector dom (attribute_selector "name" name) = found ->
      match found with
      | Ok (Some node) =>
          fill_script dom fieldData value
          = Ok (true, [Focus node; SetValue node value;
                       Dispatch node "input"; Dispatch node "change"])
      | Raise e => fill_script dom fieldData value = Raise e
      | Ok None =>
          fill_script dom fieldData value
          = match or_by_attribute dom "placeholder"
                    (a_placeholder (attributes fieldData)) None with
            | Raise e => Raise e
            | Ok (Some node) =>
                Ok (true, [Focus node; SetValue node value;
                           Dispatch node "input"; Dispatch node "change"])
            | Ok None => Ok (false, [])
            end
      end) /\
  (forall placeholder node,
      by_id dom fieldData = None ->
      (truthy (a_name (attributes fieldData)) = false \/
       exists name, a_name (attributes fieldData) = Some name /\
                    querySelector dom (attribute_selector "name" name) = Ok None) ->
      a_placeholder (attributes fieldData) = Some placeholder ->
      placeholder <> EmptyString ->
      querySelector dom (attribute_selector "placeholder" placeholder)
      = Ok (Some node) ->
      fill_script dom fieldData value
      = Ok (true, [Focus node; SetValue node value;
                   Dispatch node "input"; Dispatch node "change"])) /\
  (forall filled actions,
      fill_script dom fieldData value = Ok (filled, actions) ->
      (filled = false /\ actions = []) \/
      (filled = true /\
       exists node, actions = [Focus node; SetValue node value;
                               Dispatch node "input"; Dispatch node "change"])).
Proof.
  unfold fill_script. split; [|split; [|split; [|split]]].
  - intros Hid Hname Hplaceholder. unfold by_id.
    destruct (a_id (attributes fieldData)) as [[|c1 t1]|]; try discriminate;
      destruct (a_name (attributes fieldData)) as [[|c2 t2]|]; try discriminate;
      destruct (a_placeholder (attributes fieldData)) as [[|c3 t3]|];
      try discriminate; reflexivity.
  - intros text node query Hid Hne Hfound. unfold by_id. rewrite Hid.
    destruct text as [|c rest]; [contradiction|].
    cbn [getElementById]. rewrite Hfound. reflexivity.
  - intros name found Hid Hname Hne Hquery. rewrite Hid, Hname.
    destruct name as [|c rest]; [contradiction|].
    cbn [or_by_attribute]. rewrite Hquery.
    destruct found as [[node|]|e]; reflexivity.
  - intros placeholder node Hid Hname Hplaceholder Hne Hquery.
    rewrite Hid, Hplaceholder.
    destruct placeholder as [|c rest]; [contradiction|].
    destruct Hname as [Hname|(name & Hname & Hnone)].
    + destruct (a_name (attributes fieldData)) as [[|c2 t2]|]; try discriminate;
        cbn [or_by_attribute]; now rewrite Hquery.
    + rewrite Hname. destruct name as [|c2 t2]; cbn [or_by_attribute];
        rewrite ?Hnone; cbn [or_by_attribute]; now rewrite Hquery.
  - intros filled actions Hrun.
    destruct (or_by_attribute dom "name" _ _) as [element|e]; [|discriminate].
    destruct (or_by_attribute dom "placeholder" _ element) as [[node|]|e];
      [| |discriminate]; injection Hrun as <- <-.
    + right. split; [reflexivity | now exists node].
    + now left.
Qed.

(** A document in which the name and the placeholder of the departure input
    resolve to different elements, and no element has its id: the script
    fills the one found by name. *)
Example fill_by_name_first :
  fill_script
    {| getElementById := fun _ => None;
       querySelector := fun selector =>
         if String.eqb selector (attribute_selector "name" "origin")
         then Ok (Some 1%nat)
         else if String.eqb selector (attribute_selector "placeholder" "From city")
         then Ok (Some 2%nat)
         else Ok None |}
    {| id := "field_0_0"; rect := Examples.box 1 1;
       attributes := {| a_name := Some "origin"; a_id := Some "dep";
                        a_type := "text"; a_placeholder := Some "From city";
                        a_className := None |};
       context := {| label := None; nearbyText := [] |};
       semantic := "departure"; score := 80; visible := true |}
    "LAX"
  = Ok (true, [Focus 1%nat; SetValue 1%nat "LAX";
               Dispatch 1%nat "input"; Dispatch 1%nat "change"]).
Proof. vm_compute. reflexivity. Qed.
